(** * Matchstick digits: a shallow embedding of [digits.py]

    The program is Python 2.  Sticks, stick collections, symbols, the symbol
    catalog, expressions and the single-move substitution search are modelled
    below definition by definition.  Frozensets of sticks are [gset]s; Python
    sets and dicts whose members define their own [__eq__] are
    insertion-ordered lists compared with that [__eq__]; exceptions are
    values of an error monad.  Python does not specify the order in which a
    set is iterated over: the model iterates in the order of [elements] for
    a [gset] and in insertion order for a list; printing is left out. *)

From Stdlib Require Import ZArith String Ascii List Lia Bool.
From stdpp Require Import base decidable countable gmap sets list strings sorting pretty.

#[local] Set Warnings "-clear-no-such-hyp".

Local Open Scope Z_scope.

(** ** Exceptions and results *)

(** The argument an exception is constructed with: [ValueError(self.code)]
    carries a string, [ValueError(pattern)] a list of strings. *)
Inductive ExnArg : Type :=
  | ArgStr (s : string)
  | ArgList (l : list string).

Inductive PyExn : Type :=
  | ValueError (arg : ExnArg)
  | SyntaxError
  | TypeError
  | IndexError
  | KeyError
  | AttributeError (attr : string).

(** The outcome of running a piece of the program.  [Undefined] is not a
    Python outcome: the model gives it where it has no answer (the builtin
    [eval] on a string outside the modelled fragment of Python 2, or
    exhausted recursion fuel); [evaluate_defined] shows when it cannot
    occur. *)
Inductive result (A : Type) : Type :=
  | Ok (a : A)
  | Raise (e : PyExn)
  | Undefined.
Arguments Ok {A} a.
Arguments Raise {A} e.
Arguments Undefined {A}.

#[global] Instance result_ret : MRet result := λ A a, Ok a.
#[global] Instance result_bind : MBind result := λ A B k r,
  match r with
  | Ok a => k a
  | Raise e => Raise e
  | Undefined => Undefined
  end.

(** Values an expression evaluates to: Python's [int] and [bool]. *)
Inductive PyVal : Type :=
  | VInt (z : Z)
  | VBool (b : bool).

(** Truth value of a Python object used as a condition. *)
Definition truthy (v : PyVal) : bool :=
  match v with
  | VInt z => negb (z =? 0)
  | VBool b => b
  end.

(** ** Python sets and dicts over objects with a user-defined [__eq__] *)

Section PyContainers.
Context {A : Type} (eqb : A → A → bool).

(** [x in s] *)
Definition pyset_contains (s : list A) (x : A) : bool :=
  existsb (λ y, eqb y x) s.

(** [s.add(x)]: an element equal to one already present is not stored. *)
Definition pyset_add (s : list A) (x : A) : list A :=
  if pyset_contains s x then s else s ++ [x].

(** [set(l)], and a set comprehension over the values [l]. *)
Definition pyset_of_list (l : list A) : list A :=
  foldl pyset_add [] l.

Context {V : Type}.

(** [d.get(k)], with [None] for a missing key. *)
Fixpoint pydict_get (d : list (A * V)) (k : A) : option V :=
  match d with
  | [] => None
  | (k', v) :: d' => if eqb k' k then Some v else pydict_get d' k
  end.

(** [d[k]] *)
Definition pydict_getitem (d : list (A * V)) (k : A) : result V :=
  match pydict_get d k with
  | Some v => Ok v
  | None => Raise KeyError
  end.

(** [d.setdefault(k, v)], for its effect on [d]. *)
Definition pydict_setdefault (d : list (A * V)) (k : A) (v : V) : list (A * V) :=
  match pydict_get d k with
  | Some _ => d
  | None => d ++ [(k, v)]
  end.

(** [d[k].m(...)] for a method [m] that mutates the value stored under [k]
    in place to [f] of it.  The source only does this right after
    [d.setdefault(k, ...)], so the key is present. *)
Fixpoint pydict_update (d : list (A * V)) (k : A) (f : V → V) : list (A * V) :=
  match d with
  | [] => []
  | (k', v) :: d' =>
      if eqb k' k then (k', f v) :: d' else (k', v) :: pydict_update d' k f
  end.
End PyContainers.

(** ** class Stick *)

Module Stick.
Inductive Orientation : Type := VERTICAL | HORIZONTAL.

Record t : Type := mk {
  row : Z;
  column : Z;
  orientation : Orientation
}.

#[global] Instance Orientation_eq_dec : EqDecision Orientation.
Proof. solve_decision. Defined.

#[global] Instance eq_dec : EqDecision t.
Proof. solve_decision. Defined.

Definition to_tuple (s : t) : Z * Z * bool :=
  (row s, column s, match orientation s with VERTICAL => true | HORIZONTAL => false end).

Definition of_tuple (p : Z * Z * bool) : t :=
  mk p.1.1 p.1.2 (if p.2 then VERTICAL else HORIZONTAL).

(** [__hash__] hashes the tuple of the three fields. *)
#[global] Instance countable : Countable t.
Proof.
  apply (inj_countable' to_tuple of_tuple).
  intros [r c []]; reflexivity.
Defined.

Definition __eq__ (a b : t) : bool :=
  bool_decide (row a = row b) && bool_decide (column a = column b)
  && bool_decide (orientation a = orientation b).

Definition __ne__ (a b : t) : bool :=
  bool_decide (row a ≠ row b) || bool_decide (column a ≠ column b)
  || bool_decide (orientation a ≠ orientation b).

Definition is_vertical (s : t) : bool := bool_decide (orientation s = VERTICAL).
Definition is_horizontal (s : t) : bool := bool_decide (orientation s = HORIZONTAL).

(** The stick moved by a (row, column) offset; not in the source, used to
    state translation invariance. *)
Definition shift (dr dc : Z) (s : t) : t :=
  mk (row s + dr) (column s + dc) (orientation s).

#[global] Instance shift_inj dr dc : Inj (=) (=) (shift dr dc).
Proof.
  intros [r c o] [r' c' o']. unfold shift; simpl.
  intros [= H1 H2 ->]. f_equal; lia.
Qed.
End Stick.

(** ** class StickCollection *)

(** [min(xs) if xs else 0] *)
Definition min_or_zero (l : list Z) : Z :=
  match l with
  | [] => 0
  | x :: xs => foldr Z.min x xs
  end.

(** [sorted(d.keys())] followed by [d[k]]: the items of a dict with integer
    keys (distinct in a dict), in increasing key order. *)
Definition key_le {V : Type} (a b : Z * V) : Prop := a.1 ≤ b.1.

#[global] Instance key_le_dec {V : Type} (a b : Z * V) : Decision (key_le a b).
Proof. unfold key_le. apply _. Defined.

Definition sorted_items {V : Type} (d : list (Z * V)) : list (Z * V) :=
  merge_sort key_le d.

Module StickCollection.
(** [normalized_sticks] is computed once by [__init__] from [sticks], and
    [_removal_set] caches [removal_set]; both are functions of the one
    stored field. *)
Record t : Type := mk {
  sticks : gset Stick.t
}.

Definition min_row (c : t) : Z := min_or_zero (Stick.row <$> elements (sticks c)).
Definition min_col (c : t) : Z := min_or_zero (Stick.column <$> elements (sticks c)).

Definition normalized_sticks (c : t) : gset Stick.t :=
  set_map (λ stick,
    Stick.mk (Stick.row stick - min_row c) (Stick.column stick - min_col c)
             (Stick.orientation stick))
    (sticks c).

Definition __eq__ (a b : t) : bool :=
  bool_decide (normalized_sticks a = normalized_sticks b).

Definition __ne__ (a b : t) : bool :=
  bool_decide (normalized_sticks a ≠ normalized_sticks b).

(** [hash(self.normalized_sticks)]: a function of the normalized set,
    which here stands for its own hash. *)
Definition __hash__ (c : t) : gset Stick.t := normalized_sticks c.

Definition __len__ (c : t) : nat := size (sticks c).

Definition __add__ (c : t) (stick : Stick.t) : t :=
  mk (sticks c ∪ {[ stick ]}).

Definition __sub__ (c : t) (stick : Stick.t) : t :=
  if decide (stick ∈ sticks c) then mk (sticks c ∖ {[ stick ]}) else c.

(** [__iter__]: the members, in the order the set gives them. *)
Definition __iter__ (c : t) : list Stick.t := elements (sticks c).

(** [{self - stick for stick in self.sticks}] *)
Definition removal_set (c : t) : list t :=
  pyset_of_list __eq__ ((λ stick, __sub__ c stick) <$> elements (sticks c)).

(** [_sticks_from_dict]: the dict [{row: {column: [orientations]}}] is
    given as an association list; both levels are visited in sorted key
    order. *)
Definition _sticks_from_dict
    (stick_dict : list (Z * list (Z * list Stick.Orientation))) : list Stick.t :=
  r ← sorted_items stick_dict;
  c ← sorted_items r.2;
  o ← c.2;
  [Stick.mk r.1 c.1 o].

Definition from_dict
    (stick_dict : list (Z * list (Z * list Stick.Orientation))) : t :=
  mk (list_to_set (_sticks_from_dict stick_dict)).
End StickCollection.

Definition _DIGIT_STICKS : StickCollection.t :=
  Eval vm_compute in
  StickCollection.from_dict
    [ (0, [(1, [Stick.HORIZONTAL])]);
      (4, [(0, [Stick.VERTICAL]); (1, [Stick.HORIZONTAL]); (2, [Stick.VERTICAL])]);
      (8, [(0, [Stick.VERTICAL]); (1, [Stick.HORIZONTAL]); (2, [Stick.VERTICAL])]) ].

Definition _OPERATOR_STICKS : StickCollection.t :=
  Eval vm_compute in
  StickCollection.from_dict
    [ (1, [(1, [Stick.HORIZONTAL])]);
      (2, [(1, [Stick.HORIZONTAL])]);
      (3, [(1, [Stick.HORIZONTAL])]);
      (4, [(1, [Stick.VERTICAL])]) ].

(** ** class Symbol and its subclasses *)

Module Symbol.
(** The class of an instance: [Symbol], or one of [Digit], [Operator],
    [EqualityOperator]. *)
Inductive Class : Type := Symbol | Digit | Operator | EqualityOperator.

#[global] Instance Class_eq_dec : EqDecision Class.
Proof. solve_decision. Defined.

(** The [value] a [Digit] is built with: an integer, or a string (the
    blank is built with [value=""]). *)
Inductive DigitValue : Type :=
  | IntValue (z : Z)
  | StrValue (s : string).

(** An instance.  [name] and [code] are [None] for the intermediate
    symbols of [removal_set]; [value] is set by [Digit.__init__] only. *)
Record t : Type := mk {
  cls : Class;
  name : option string;
  sticks : StickCollection.t;
  code : option string;
  display_code : string;
  value : option DigitValue
}.

(** [unicode(code)] *)
Definition unicode (code : option string) : string :=
  match code with
  | Some s => s
  | None => "None"
  end.

(** [str(value)] *)
Definition str (v : DigitValue) : string :=
  match v with
  | IntValue z => pretty z
  | StrValue s => s
  end.

(** [Symbol.__init__], run for an instance of class [c]. *)
Definition __init__ (c : Class) (sticks : StickCollection.t)
    (code name display_code : option string) : t :=
  {| cls := c; name := name; sticks := sticks; code := code;
     display_code := match display_code with
                     | None => unicode code
                     | Some d => d
                     end;
     value := None |}.

(** [Digit.__init__] *)
Definition Digit__init__ (sticks : StickCollection.t) (v : DigitValue)
    (name display_code : option string) : t :=
  let self := __init__ Digit sticks (Some (str v)) name display_code in
  {| cls := cls self; name := Symbol.name self; sticks := Symbol.sticks self;
     code := code self; display_code := Symbol.display_code self;
     value := Some v |}.

(** [isinstance(s, EqualityOperator)]: the class has no subclass. *)
Definition is_EqualityOperator (s : t) : bool :=
  match cls s with
  | EqualityOperator => true
  | _ => false
  end.

Definition __eq__ (self other : t) : bool :=
  StickCollection.__eq__ (sticks self) (sticks other).

Definition __hash__ (self : t) : gset Stick.t :=
  StickCollection.__hash__ (sticks self).

(** What reading an attribute of an instance gives, as far as [__ne__]
    needs it: a stick collection, or an object of another type. *)
Inductive AttrValue : Type :=
  | AttrSticks (c : StickCollection.t)
  | AttrOther.

(** Names bound in the classes (methods, properties, class methods) and in
    [object]. *)
Definition class_attributes (c : Class) : list string :=
  ["__init__"; "__eq__"; "__ne__"; "__hash__"; "is_reachable_from";
   "removal_set"; "with_pattern"]%string
  ++ match c with
     | Symbol => []
     | _ => ["_get_all_sticks"%string]
     end
  ++ ["__class__"; "__delattr__"; "__dict__"; "__doc__"; "__format__";
      "__getattribute__"; "__module__"; "__new__"; "__reduce__";
      "__reduce_ex__"; "__repr__"; "__setattr__"; "__sizeof__"; "__str__";
      "__subclasshook__"; "__weakref__"]%string.

(** [obj.attr]: the instance attributes set by [__init__], then the
    names of the class; anything else raises [AttributeError]. *)
Definition getattr (self : t) (attr : string) : result AttrValue :=
  if decide (attr = "sticks"%string) then Ok (AttrSticks (sticks self))
  else if decide (attr ∈ ["name"; "code"; "display_code"]%string) then Ok AttrOther
  else if decide (attr = "value"%string ∧ cls self = Digit) then Ok AttrOther
  else if decide (attr ∈ class_attributes (cls self)) then Ok AttrOther
  else Raise (AttributeError attr).

(** [a != b] for a stick collection [a]: [StickCollection.__ne__] reads
    [b.normalized_sticks], which only a stick collection has. *)
Definition sticks_ne (a : StickCollection.t) (b : AttrValue) : result bool :=
  match b with
  | AttrSticks c => Ok (StickCollection.__ne__ a c)
  | AttrOther => Raise (AttributeError "normalized_sticks")
  end.

(** [return self.sticks != other.sticks__] *)
Definition __ne__ (self other : t) : result bool :=
  a ← Ok (sticks self);
  b ← getattr other "sticks__";
  sticks_ne a b.

Definition is_reachable_from (self other : t) : bool :=
  if negb (bool_decide (StickCollection.__len__ (sticks self)
                        = S (StickCollection.__len__ (sticks other))))
  then false
  else existsb
         (λ stick, StickCollection.__eq__ (sticks other)
                     (StickCollection.__sub__ (sticks self) stick))
         (StickCollection.__iter__ (sticks self)).

(** [{Symbol(sticks, None, None) for sticks in self.sticks.removal_set}] *)
Definition removal_set (self : t) : list t :=
  pyset_of_list __eq__
    ((λ sticks, __init__ Symbol sticks None None None)
       <$> StickCollection.removal_set (sticks self)).

(** [cls._get_all_sticks()]: defined by [Digit] and [Operator] only. *)
Definition _get_all_sticks (c : Class) : result StickCollection.t :=
  match c with
  | Symbol => Raise (AttributeError "_get_all_sticks")
  | Digit => Ok _DIGIT_STICKS
  | Operator | EqualityOperator => Ok _OPERATOR_STICKS
  end.

(** The sticks one pattern character stands for at a cell, or [None] for
    a character that the [if]/[elif] chain rejects. *)
Definition pattern_value_sticks (row_id col_id : Z) (pattern_value : ascii)
    : option (list Stick.t) :=
  if decide (pattern_value = "|"%char) then
    Some [Stick.mk row_id col_id Stick.VERTICAL]
  else if decide (pattern_value = "_"%char) then
    Some [Stick.mk row_id col_id Stick.HORIZONTAL]
  else if decide (pattern_value = "+"%char) then
    Some [Stick.mk row_id col_id Stick.VERTICAL; Stick.mk row_id col_id Stick.HORIZONTAL]
  else if decide (pattern_value = " "%char) then
    Some []
  else None.

(** [sorted({stick.column for stick in all_sticks})] and the same for the
    rows. *)
Definition all_cols (all_sticks : gset Stick.t) : list Z :=
  merge_sort Z.le (elements (set_map Stick.column all_sticks : gset Z)).

Definition all_rows (all_sticks : gset Stick.t) : list Z :=
  merge_sort Z.le (elements (set_map Stick.row all_sticks : gset Z)).

(** The inner loop of [with_pattern] over one row of the pattern. *)
Fixpoint with_pattern_row (pattern : list string) (row_id : Z)
    (cells : list (Z * ascii)) (sticks : gset Stick.t) : result (gset Stick.t) :=
  match cells with
  | [] => Ok sticks
  | (col_id, pattern_value) :: cells' =>
      match pattern_value_sticks row_id col_id pattern_value with
      | None => Raise (ValueError (ArgList pattern))
      | Some l => with_pattern_row pattern row_id cells' (sticks ∪ list_to_set l)
      end
  end.

(** The outer loop of [with_pattern] over the rows. *)
Fixpoint with_pattern_rows (pattern : list string) (all_cols : list Z)
    (rows : list (Z * string)) (sticks : gset Stick.t) : result (gset Stick.t) :=
  match rows with
  | [] => Ok sticks
  | (row_id, row_pattern) :: rows' =>
      sticks' ← with_pattern_row pattern row_id
                  (zip all_cols (list_ascii_of_string row_pattern)) sticks;
      with_pattern_rows pattern all_cols rows' sticks'
  end.

(** [with_pattern]; [init] is the call [cls(_, *args, **kwargs)] with the
    arguments given after the pattern.  [zip] stops at the end of the
    shorter sequence. *)
Definition with_pattern (c : Class) (pattern : list string)
    (init : StickCollection.t → t) : result t :=
  grid ← _get_all_sticks c;
  let all_sticks : gset Stick.t := list_to_set (StickCollection.__iter__ grid) in
  sticks ← with_pattern_rows pattern (all_cols all_sticks)
              (zip (all_rows all_sticks) pattern) ∅;
  if decide (sticks ∖ all_sticks ≠ ∅) then Raise (ValueError (ArgList pattern))
  else Ok (init (StickCollection.mk sticks)).
End Symbol.

(** ** The symbols of the program *)

(** A statement at module level that binds a name to the value of a call
    which may raise: the program goes on only if the call returns, and
    [returned r H] is the value then bound. *)
Definition returns {A : Type} (r : result A) : Prop :=
  match r with
  | Ok _ => True
  | _ => False
  end.

Definition returned {A : Type} (r : result A) : returns r → A :=
  match r with
  | Ok a => λ _, a
  | Raise _ => λ H, False_rect A H
  | Undefined => λ H, False_rect A H
  end.

(** [Digit.with_pattern(pattern, value=..., name=...)] *)
Definition Digit_with_pattern (pattern : list string) (value : Symbol.DigitValue)
    (name : string) : result Symbol.t :=
  Symbol.with_pattern Symbol.Digit pattern
    (λ sticks, Symbol.Digit__init__ sticks value (Some name) None).

(** [Operator.with_pattern(pattern, name=..., code=...)] *)
Definition Operator_with_pattern (pattern : list string) (name code : string)
    : result Symbol.t :=
  Symbol.with_pattern Symbol.Operator pattern
    (λ sticks, Symbol.__init__ Symbol.Operator sticks (Some code) (Some name) None).

(** [EqualityOperator.with_pattern(pattern, name=..., code=..., display_code=...)] *)
Definition EqualityOperator_with_pattern (pattern : list string)
    (name code display_code : string) : result Symbol.t :=
  Symbol.with_pattern Symbol.EqualityOperator pattern
    (λ sticks, Symbol.__init__ Symbol.EqualityOperator sticks (Some code) (Some name)
                 (Some display_code)).

Local Open Scope string_scope.

Definition blank : Symbol.t :=
  Eval vm_compute in
  returned (Digit_with_pattern ["   "; "   "; "   "] (Symbol.StrValue "") "blank")
    ltac:(vm_compute; exact I).

Definition zero : Symbol.t :=
  Eval vm_compute in
  returned (Digit_with_pattern [" _ "; "| |"; "|_|"] (Symbol.IntValue 0) "zero")
    ltac:(vm_compute; exact I).

Definition one_a : Symbol.t :=
  Eval vm_compute in
  returned (Digit_with_pattern ["   "; "|  "; "|  "] (Symbol.IntValue 1) "one_double")
    ltac:(vm_compute; exact I).

Definition one_b : Symbol.t :=
  Eval vm_compute in
  returned (Digit_with_pattern ["   "; "|  "; "   "] (Symbol.IntValue 1) "one_single")
    ltac:(vm_compute; exact I).

Definition two : Symbol.t :=
  Eval vm_compute in
  returned (Digit_with_pattern [" _ "; " _|"; "|_ "] (Symbol.IntValue 2) "two")
    ltac:(vm_compute; exact I).

Definition three : Symbol.t :=
  Eval vm_compute in
  returned (Digit_with_pattern [" _ "; " _|"; " _|"] (Symbol.IntValue 3) "three")
    ltac:(vm_compute; exact I).

Definition four : Symbol.t :=
  Eval vm_compute in
  returned (Digit_with_pattern ["   "; "|_|"; "  |"] (Symbol.IntValue 4) "four")
    ltac:(vm_compute; exact I).

Definition five : Symbol.t :=
  Eval vm_compute in
  returned (Digit_with_pattern [" _ "; "|_ "; " _|"] (Symbol.IntValue 5) "five")
    ltac:(vm_compute; exact I).

Definition six_a : Symbol.t :=
  Eval vm_compute in
  returned (Digit_with_pattern [" _ "; "|_ "; "|_|"] (Symbol.IntValue 6) "six")
    ltac:(vm_compute; exact I).

Definition six_b : Symbol.t :=
  Eval vm_compute in
  returned (Digit_with_pattern ["   "; "|_ "; "|_|"] (Symbol.IntValue 6) "six_alt")
    ltac:(vm_compute; exact I).

Definition seven_a : Symbol.t :=
  Eval vm_compute in
  returned (Digit_with_pattern [" _ "; "  |"; "  |"] (Symbol.IntValue 7) "seven")
    ltac:(vm_compute; exact I).

Definition seven_b : Symbol.t :=
  Eval vm_compute in
  returned (Digit_with_pattern [" _ "; "| |"; "  |"] (Symbol.IntValue 7) "seven_alt")
    ltac:(vm_compute; exact I).

Definition eight : Symbol.t :=
  Eval vm_compute in
  returned (Digit_with_pattern [" _ "; "|_|"; "|_|"] (Symbol.IntValue 8) "eight")
    ltac:(vm_compute; exact I).

Definition nine_a : Symbol.t :=
  Eval vm_compute in
  returned (Digit_with_pattern [" _ "; "|_|"; "  |"] (Symbol.IntValue 9) "nine")
    ltac:(vm_compute; exact I).

Definition nine_b : Symbol.t :=
  Eval vm_compute in
  returned (Digit_with_pattern [" _ "; "|_|"; " _|"] (Symbol.IntValue 9) "nine_alt")
    ltac:(vm_compute; exact I).

Definition plus_a : Symbol.t :=
  Eval vm_compute in
  returned (Operator_with_pattern ["_"; " "; " "; "|"] "plus_high" "+")
    ltac:(vm_compute; exact I).

Definition plus_b : Symbol.t :=
  Eval vm_compute in
  returned (Operator_with_pattern [" "; "_"; " "; "|"] "plus" "+")
    ltac:(vm_compute; exact I).

Definition plus_c : Symbol.t :=
  Eval vm_compute in
  returned (Operator_with_pattern [" "; " "; "_"; "|"] "plus_low" "+")
    ltac:(vm_compute; exact I).

Definition minus : Symbol.t :=
  Eval vm_compute in
  returned (Operator_with_pattern ["_"; " "; " "; " "] "minus" "-")
    ltac:(vm_compute; exact I).

Definition eq_a : Symbol.t :=
  Eval vm_compute in
  returned (EqualityOperator_with_pattern ["_"; "_"; " "; " "] "eq" "==" "=")
    ltac:(vm_compute; exact I).

Definition eq_b : Symbol.t :=
  Eval vm_compute in
  returned (EqualityOperator_with_pattern ["_"; " "; "_"; " "] "eq_alt" "==" "=")
    ltac:(vm_compute; exact I).

Definition neq_a : Symbol.t :=
  Eval vm_compute in
  returned (EqualityOperator_with_pattern ["_"; "_"; " "; "|"] "neq_high" "!=" "≠")
    ltac:(vm_compute; exact I).

Definition neq_b : Symbol.t :=
  Eval vm_compute in
  returned (EqualityOperator_with_pattern ["_"; " "; "_"; "|"] "neq" "!=" "≠")
    ltac:(vm_compute; exact I).

Definition neq_c : Symbol.t :=
  Eval vm_compute in
  returned (EqualityOperator_with_pattern [" "; "_"; "_"; "|"] "neq_low" "!=" "≠")
    ltac:(vm_compute; exact I).

Definition DIGITS : list Symbol.t :=
  [blank; zero; one_a; one_b; two; three; four; five; six_a; six_b;
   seven_a; seven_b; eight; nine_a; nine_b].

Definition OPERATORS : list Symbol.t :=
  [plus_a; plus_b; plus_c; minus; eq_a; eq_b; neq_a; neq_b; neq_c].

Local Close Scope string_scope.

(** ** class SymbolCollection *)

Module SymbolCollection.
(** A dict from symbols to sets of symbols, both compared with
    [Symbol.__eq__]. *)
Abbreviation SymbolMap := (list (Symbol.t * list Symbol.t)).

Record t : Type := mk {
  symbols : list Symbol.t;
  reachable_with_addition_by_symbol : SymbolMap;
  reachable_with_removal_by_symbol : SymbolMap;
  reachable_with_move_by_symbol : SymbolMap
}.

(** [d[symbol_in].add(symbol_out)] *)
Definition add_to (d : SymbolMap) (symbol_in symbol_out : Symbol.t) : SymbolMap :=
  pydict_update Symbol.__eq__ d symbol_in
    (λ s, pyset_add Symbol.__eq__ s symbol_out).

(** The body of the first [for symbol_out in symbols] loop. *)
Definition pair_step (symbol_in : Symbol.t) (self : t) (symbol_out : Symbol.t) : t :=
  let self :=
    if Symbol.is_reachable_from symbol_out symbol_in then
      mk (symbols self)
         (add_to (reachable_with_addition_by_symbol self) symbol_in symbol_out)
         (reachable_with_removal_by_symbol self)
         (reachable_with_move_by_symbol self)
    else self in
  if Symbol.is_reachable_from symbol_in symbol_out then
    mk (symbols self)
       (reachable_with_addition_by_symbol self)
       (add_to (reachable_with_removal_by_symbol self) symbol_in symbol_out)
       (reachable_with_move_by_symbol self)
  else self.

(** The body of the [for symbol_out in symbols] loop under
    [for intermediate in symbol_in.removal_set]. *)
Definition move_step (symbol_in intermediate : Symbol.t) (self : t)
    (symbol_out : Symbol.t) : t :=
  if Symbol.is_reachable_from symbol_out intermediate then
    mk (symbols self)
       (reachable_with_addition_by_symbol self)
       (reachable_with_removal_by_symbol self)
       (add_to (reachable_with_move_by_symbol self) symbol_in symbol_out)
  else self.

(** The body of the [for symbol_in in symbols] loop. *)
Definition symbol_step (self : t) (symbol_in : Symbol.t) : t :=
  let self :=
    mk (symbols self)
       (pydict_setdefault Symbol.__eq__ (reachable_with_addition_by_symbol self) symbol_in [])
       (pydict_setdefault Symbol.__eq__ (reachable_with_removal_by_symbol self) symbol_in [])
       (pydict_setdefault Symbol.__eq__ (reachable_with_move_by_symbol self) symbol_in []) in
  let self := foldl (pair_step symbol_in) self (symbols self) in
  foldl (λ self intermediate,
           foldl (move_step symbol_in intermediate) self (symbols self))
        self (Symbol.removal_set symbol_in).

Definition __init__ (symbols : list Symbol.t) : t :=
  foldl symbol_step (mk symbols [] [] []) symbols.

Definition __iter__ (self : t) : list Symbol.t := symbols self.
End SymbolCollection.

(** ** The builtin [eval] of Python 2, on the strings the program gives it *)

Module Python2.
(** The tokens that strings over the characters [0-9 + - = !] are made
    of. *)
Inductive token : Type :=
  | NUMBER (n : Z)
  | PLUS | MINUS
  | EQEQUAL | NOTEQUAL
  | EQUAL | PLUSEQUAL | MINEQUAL.

#[global] Instance token_eq_dec : EqDecision token.
Proof. solve_decision. Defined.

Definition digit (c : ascii) : option Z :=
  let n := Z.of_nat (nat_of_ascii c) in
  if (48 <=? n) && (n <=? 57) then Some (n - 48) else None.

(** The characters of the modelled fragment. *)
Definition in_fragment (c : ascii) : bool :=
  match digit c with
  | Some _ => true
  | None => bool_decide (c ∈ ["+"; "-"; "="; "!"]%char)
  end.

(** The value of an integer literal given by its digits, first digit
    first.  A literal of several digits that starts with [0] is octal,
    and an invalid token if it has a digit [8] or [9]. *)
Definition number (digits : list Z) : option Z :=
  match digits with
  | 0 :: _ :: _ =>
      if forallb (λ d, d <? 8) digits
      then Some (foldl (λ a d, 8 * a + d) 0 digits)
      else None
  | _ => Some (foldl (λ a d, 10 * a + d) 0 digits)
  end.

(** The tokens before which a pending run of digits [cur] (last digit
    first) is closed. *)
Definition flush (cur : list Z) (rest : option (list token)) : option (list token) :=
  match cur with
  | [] => rest
  | _ => n ← number (rev cur); toks ← rest; Some (NUMBER n :: toks)
  end.

(** The tokenizer: longest match, the two-character operators first.
    [None] is an invalid token (a [SyntaxError]). *)
Fixpoint tokenize (cur : list Z) (s : list ascii) {struct s} : option (list token) :=
  match s with
  | [] => flush cur (Some [])
  | c :: s' =>
      match digit c with
      | Some d => tokenize (d :: cur) s'
      | None =>
          flush cur
            (if decide (c = "+"%char) then
               match s' with
               | c' :: s'' =>
                   if decide (c' = "="%char)
                   then cons PLUSEQUAL <$> tokenize [] s''
                   else cons PLUS <$> tokenize [] s'
               | [] => cons PLUS <$> tokenize [] s'
               end
             else if decide (c = "-"%char) then
               match s' with
               | c' :: s'' =>
                   if decide (c' = "="%char)
                   then cons MINEQUAL <$> tokenize [] s''
                   else cons MINUS <$> tokenize [] s'
               | [] => cons MINUS <$> tokenize [] s'
               end
             else if decide (c = "="%char) then
               match s' with
               | c' :: s'' =>
                   if decide (c' = "="%char)
                   then cons EQEQUAL <$> tokenize [] s''
                   else cons EQUAL <$> tokenize [] s'
               | [] => cons EQUAL <$> tokenize [] s'
               end
             else if decide (c = "!"%char) then
               match s' with
               | c' :: s'' =>
                   if decide (c' = "="%char)
                   then cons NOTEQUAL <$> tokenize [] s''
                   else None
               | [] => None
               end
             else None)
      end
  end.

(** The syntax tree of an expression of the fragment, after Python's
    grammar: [factor: ('+'|'-') factor | NUMBER],
    [arith_expr: factor (('+'|'-') factor)*],
    [comparison: arith_expr (('=='|'!=') arith_expr)*]. *)
Inductive unaryop : Type := UAdd | USub.
Inductive binop : Type := Add | Sub.
Inductive cmpop : Type := Eq | NotEq.

Record factor : Type := mk_factor {
  signs : list unaryop;          (* outermost first *)
  literal : Z
}.

Record arith_expr : Type := mk_arith {
  first : factor;
  rest : list (binop * factor)
}.

Record comparison : Type := mk_comparison {
  left : arith_expr;
  comparators : list (cmpop * arith_expr)
}.

(** A binary operator token between two factors. *)
Definition operator (t : token) : option (binop + cmpop) :=
  match t with
  | PLUS => Some (inl Add)
  | MINUS => Some (inl Sub)
  | EQEQUAL => Some (inr Eq)
  | NOTEQUAL => Some (inr NotEq)
  | _ => None
  end.

(** [f op c]: the factor [f] put before the comparison [c]. *)
Definition prepend (f : factor) (op : binop + cmpop) (c : comparison) : comparison :=
  match op with
  | inl b => mk_comparison (mk_arith f ((b, first (left c)) :: rest (left c)))
                           (comparators c)
  | inr o => mk_comparison (mk_arith f []) ((o, left c) :: comparators c)
  end.

(** The parser; [pending] are the unary signs read for the factor being
    parsed, innermost first.  [None] is a syntax error. *)
Fixpoint parse (pending : list unaryop) (toks : list token) {struct toks}
    : option comparison :=
  match toks with
  | PLUS :: toks' => parse (UAdd :: pending) toks'
  | MINUS :: toks' => parse (USub :: pending) toks'
  | NUMBER n :: toks' =>
      let f := mk_factor (rev pending) n in
      match toks' with
      | [] => Some (mk_comparison (mk_arith f []) [])
      | t :: toks'' =>
          op ← operator t;
          c ← parse [] toks'';
          Some (prepend f op c)
      end
  | _ => None
  end.

(** Evaluation. *)
Definition eval_factor (f : factor) : Z :=
  foldr (λ u v, match u with UAdd => v | USub => - v end) (literal f) (signs f).

Definition eval_arith (a : arith_expr) : Z :=
  foldl (λ acc '(op, f),
           match op with
           | Add => acc + eval_factor f
           | Sub => acc - eval_factor f
           end)
        (eval_factor (first a)) (rest a).

(** [a == b != c ...] is [(a == b) and (b != c) and ...]. *)
Fixpoint eval_chain (prev : Z) (l : list (cmpop * arith_expr)) : bool :=
  match l with
  | [] => true
  | (op, a) :: l' =>
      let v := eval_arith a in
      match op with
      | Eq => bool_decide (prev = v)
      | NotEq => bool_decide (prev ≠ v)
      end && eval_chain v l'
  end.

Definition eval_comparison (c : comparison) : PyVal :=
  match comparators c with
  | [] => VInt (eval_arith (left c))
  | l => VBool (eval_chain (eval_arith (left c)) l)
  end.

(** [eval(source)].  Integers are unbounded; the interpreter's limits on
    nesting depth are not modelled. *)
Definition eval (source : string) : result PyVal :=
  let s := list_ascii_of_string source in
  if forallb in_fragment s then
    match tokenize [] s ≫= parse [] with
    | Some c => Ok (eval_comparison c)
    | None => Raise SyntaxError
    end
  else Undefined.
End Python2.

(** ** class Expression *)

(** [enumerate(l)], with integer indices. *)
Definition enumerate {A : Type} (l : list A) : list (Z * A) :=
  imap (λ i x, (Z.of_nat i, x)) l.

(** [l[a:b]] for indices that are not negative. *)
Definition slice {A : Type} (a b : Z) (l : list A) : list A :=
  take (Z.to_nat (b - a)) (drop (Z.to_nat a) l).

Module Expression.
Record t : Type := mk {
  symbols : list Symbol.t
}.

(** [substitute_symbol]; the index is one of [enumerate], so not
    negative, and assigning past the end raises [IndexError]. *)
Definition substitute_symbol (self : t) (new_symbol : Symbol.t) (index : nat)
    : result t :=
  if decide (index < length (symbols self))%nat
  then Ok (mk (<[index := new_symbol]> (symbols self)))
  else Raise IndexError.

(** [[dq][dq].join(...)] raises [TypeError] on an item that is not a string. *)
Fixpoint join (items : list (option string)) : result string :=
  match items with
  | [] => Ok EmptyString
  | None :: _ => Raise TypeError
  | Some s :: items' => r ← join items'; Ok (s +:+ r)
  end.

Definition code (self : t) : result string :=
  join (Symbol.code <$> symbols self).

Definition display_code (self : t) : string :=
  foldr (λ s r, Symbol.display_code s +:+ r) EmptyString (symbols self).

Definition __iter__ (self : t) : list Symbol.t := symbols self.

Definition __getitem__ (self : t) (index : nat) : result Symbol.t :=
  match symbols self !! index with
  | Some s => Ok s
  | None => Raise IndexError
  end.

(** [i for i, s in enumerate(self.symbols) if isinstance(s, EqualityOperator)] *)
Definition equality_operators (self : t) : list Z :=
  fst <$> filter (λ p, Symbol.is_EqualityOperator p.2 = true) (enumerate (symbols self)).

(** [zip([-1] + equality_operators[:-1],
         equality_operators[1:] + [len(self.symbols)])] *)
Definition boundaries (self : t) : list (Z * Z) :=
  let equality_operators := equality_operators self in
  zip ([-1] ++ removelast equality_operators)
             (tail equality_operators ++ [Z.of_nat (length (symbols self))]).

Definition equality_subexpressions (self : t) : list t :=
  (λ '(low, high), mk (slice (low + 1) high (symbols self))) <$> boundaries self.

(** The loop [for exp in ...: result = result and exp.evaluate()]. *)
Fixpoint and_all (evaluate : t → result PyVal) (res : PyVal) (exps : list t)
    : result PyVal :=
  match exps with
  | [] => Ok res
  | exp :: exps' =>
      res' ← (if truthy res then evaluate exp else Ok res);
      and_all evaluate res' exps'
  end.

(** The [else] branch of [evaluate]. *)
Definition evaluate_code (self : t) : result PyVal :=
  c ← code self;
  match Python2.eval c with
  | Raise SyntaxError => Raise (ValueError (ArgStr c))
  | r => r
  end.

(** [evaluate], with the depth of the recursion bounded by [fuel]. *)
Fixpoint evaluate_fuel (fuel : nat) (self : t) : result PyVal :=
  match fuel with
  | O => Undefined
  | S fuel' =>
      if decide (1 < length (equality_operators self))%nat then
        and_all (evaluate_fuel fuel') (VBool true) (equality_subexpressions self)
      else evaluate_code self
  end.

(** [evaluate]: every recursive call is on a shorter expression, so this
    fuel is enough ([evaluate_unfold]). *)
Definition evaluate (self : t) : result PyVal :=
  evaluate_fuel (S (length (symbols self))) self.
End Expression.

(** ** The program: catalog, puzzle and search *)

Definition symbols : SymbolCollection.t :=
  SymbolCollection.__init__ (DIGITS ++ OPERATORS).

Definition expression : Expression.t :=
  Expression.mk [blank; six_a; blank; plus_b; blank; four; blank; eq_b; blank; four; blank].

(** [valid_substitutions]: source index, destination index, code of the
    new source symbol, code of the new destination symbol, expression. *)
Abbreviation Substitutions :=
  (gmap nat (gmap nat (gmap (option string) (gmap (option string) Expression.t)))).

(** [d.setdefault(i, {}).setdefault(j, {}).setdefault(a, {})[b] = e] *)
Definition record_substitution (d : Substitutions) (i j : nat) (a b : option string)
    (e : Expression.t) : Substitutions :=
  let d_i := default ∅ (d !! i) in
  let d_ij := default ∅ (d_i !! j) in
  let d_ija := default ∅ (d_ij !! a) in
  <[i := <[j := <[a := <[b := e]> d_ija]> d_ij]> d_i]> d.

(** [d[i][j][a][b]], when all four keys are there. *)
Definition recorded (d : Substitutions) (i j : nat) (a b : option string)
    : option Expression.t :=
  d_i ← d !! i; d_ij ← d_i !! j; d_ija ← d_ij !! a; d_ija !! b.

(** [_test_substitution]; the globals [expression] and
    [valid_substitutions] are passed in, and the updated
    [valid_substitutions] is the result. *)
Definition _test_substitution (expression : Expression.t)
    (valid_substitutions : Substitutions)
    (source_index dest_index : nat) (new_source_symbol new_dest_symbol : Symbol.t)
    : result Substitutions :=
  e1 ← Expression.substitute_symbol expression new_source_symbol source_index;
  new_expression ← Expression.substitute_symbol e1 new_dest_symbol dest_index;
  match Expression.evaluate new_expression with
  | Raise (ValueError _) => Ok valid_substitutions
  | Raise e => Raise e
  | Undefined => Undefined
  | Ok result =>
      match result with
      | VBool true =>
          Ok (record_substitution valid_substitutions source_index dest_index
                (Symbol.code new_source_symbol) (Symbol.code new_dest_symbol)
                new_expression)
      | _ => Ok valid_substitutions
      end
  end.

(** A [for] loop whose body updates a state and may raise. *)
Fixpoint for_each {A S : Type} (l : list A) (body : S → A → result S) (s : S)
    : result S :=
  match l with
  | [] => Ok s
  | x :: l' => s' ← body s x; for_each l' body s'
  end.

(** [enumerate(l)], with indices used as list positions. *)
Definition enumerate_nat {A : Type} (l : list A) : list (nat * A) :=
  imap (λ i x, (i, x)) l.

(** The search loops at the end of the module. *)
Definition search (symbols : SymbolCollection.t) (expression : Expression.t)
    : result Substitutions :=
  for_each (enumerate_nat (Expression.__iter__ expression))
    (λ valid_substitutions '(source_index, source_symbol),
       for_each (enumerate_nat (Expression.__iter__ expression))
         (λ valid_substitutions '(dest_index, dest_symbol),
            if decide (source_index = dest_index) then
              moves ← pydict_getitem Symbol.__eq__
                        (SymbolCollection.reachable_with_move_by_symbol symbols)
                        source_symbol;
              for_each moves
                (λ valid_substitutions new_symbol,
                   _test_substitution expression valid_substitutions
                     source_index dest_index new_symbol new_symbol)
                valid_substitutions
            else
              removals ← pydict_getitem Symbol.__eq__
                           (SymbolCollection.reachable_with_removal_by_symbol symbols)
                           source_symbol;
              for_each removals
                (λ valid_substitutions new_source_symbol,
                   additions ← pydict_getitem Symbol.__eq__
                                 (SymbolCollection.reachable_with_addition_by_symbol symbols)
                                 dest_symbol;
                   for_each additions
                     (λ valid_substitutions new_dest_symbol,
                        _test_substitution expression valid_substitutions
                          source_index dest_index new_source_symbol new_dest_symbol)
                     valid_substitutions)
                valid_substitutions)
         valid_substitutions)
    ∅.

Definition valid_substitutions : result Substitutions := search symbols expression.

(** * Notions used to state the properties *)

(** ** Shapes up to translation *)

(** The set moved by one common (row, column) offset. *)
Definition translate (dr dc : Z) (s : gset Stick.t) : gset Stick.t :=
  set_map (Stick.shift dr dc) s.

(** [X] has exactly one stick more than [Y]: the sizes differ by one, and
    some stick of [X], taken away, leaves a translate of [Y]. *)
Definition one_stick_more (X Y : gset Stick.t) : Prop :=
  size X = S (size Y)
  ∧ ∃ t, t ∈ X ∧ ∃ dr dc, Y = translate dr dc (X ∖ {[ t ]}).

(** ** Dicts of sets *)

Section DictOfSets.
Context {A : Type} (eqb : A → A → bool).

(** [y in d[x]], false when [x] is not a key. *)
Definition entry (d : list (A * list A)) (x y : A) : bool :=
  match pydict_get eqb d x with
  | Some s => pyset_contains eqb s y
  | None => false
  end.

(** [x in d] *)
Definition has_key (d : list (A * list A)) (x : A) : bool :=
  match pydict_get eqb d x with
  | Some _ => true
  | None => false
  end.

(** [d.setdefault(k, set())], then [d[k].add(o)] for each [o] of [outs]. *)
Definition fill (d : list (A * list A)) (k : A) (outs : list A) : list (A * list A) :=
  foldl (λ d o, pydict_update eqb d k (λ s, pyset_add eqb s o))
        (pydict_setdefault eqb d k []) outs.

(** [fill] for each key of [l] in turn. *)
Definition build (outs : A → list A) (l : list A) (d : list (A * list A))
    : list (A * list A) :=
  foldl (λ d k, fill d k (outs k)) d l.
End DictOfSets.

(** [y in d[x]] and [x in d] for a map of the catalog. *)
Definition in_map (d : list (Symbol.t * list Symbol.t)) (x y : Symbol.t) : bool :=
  entry Symbol.__eq__ d x y.

Definition is_key (d : list (Symbol.t * list Symbol.t)) (x : Symbol.t) : bool :=
  has_key Symbol.__eq__ d x.

(** What the loops of [SymbolCollection.__init__] add under the key
    [symbol_in], in order. *)
Definition addition_outs (syms : list Symbol.t) (symbol_in : Symbol.t) : list Symbol.t :=
  List.filter (λ symbol_out, Symbol.is_reachable_from symbol_out symbol_in) syms.

Definition removal_outs (syms : list Symbol.t) (symbol_in : Symbol.t) : list Symbol.t :=
  List.filter (λ symbol_out, Symbol.is_reachable_from symbol_in symbol_out) syms.

Definition move_outs (syms : list Symbol.t) (symbol_in : Symbol.t) : list Symbol.t :=
  intermediate ← Symbol.removal_set symbol_in;
  List.filter (λ symbol_out, Symbol.is_reachable_from symbol_out intermediate) syms.

(** ** Patterns *)

(** The character [ch] of the pattern is read for the grid cell
    ([row_id], [col_id]): rows and columns are paired in order, and what
    lies beyond the rows or the columns of the grid is not read. *)
Definition cell_read (all_sticks : gset Stick.t) (pattern : list string)
    (row_id col_id : Z) (ch : ascii) : Prop :=
  ∃ (i j : nat) (row_pattern : string),
    Symbol.all_rows all_sticks !! i = Some row_id
    ∧ pattern !! i = Some row_pattern
    ∧ Symbol.all_cols all_sticks !! j = Some col_id
    ∧ list_ascii_of_string row_pattern !! j = Some ch.

(** A cell that makes [with_pattern] raise: its character is none of the
    four, or it stands for a stick that the grid does not have. *)
Definition bad_cell (all_sticks : gset Stick.t) (row_id col_id : Z) (ch : ascii) : Prop :=
  match Symbol.pattern_value_sticks row_id col_id ch with
  | None => True
  | Some l => ∃ stick, stick ∈ l ∧ stick ∉ all_sticks
  end.

(** ** The grammar of expressions *)

Module Grammar.
Import Python2.

(** [factor: ('+'|'-') factor | NUMBER] *)
Inductive is_factor : list token → Prop :=
  | factor_number n : is_factor [NUMBER n]
  | factor_plus f : is_factor f → is_factor (PLUS :: f)
  | factor_minus f : is_factor f → is_factor (MINUS :: f).

(** [arith_expr: factor (('+'|'-') factor)*] *)
Inductive is_arith : list token → Prop :=
  | arith_factor f : is_factor f → is_arith f
  | arith_plus a f : is_arith a → is_factor f → is_arith (a ++ PLUS :: f)
  | arith_minus a f : is_arith a → is_factor f → is_arith (a ++ MINUS :: f).

(** [comparison: arith_expr (('=='|'!=') arith_expr)*] *)
Inductive is_comparison : list token → Prop :=
  | comparison_arith a : is_arith a → is_comparison a
  | comparison_eq c a : is_comparison c → is_arith a → is_comparison (c ++ EQEQUAL :: a)
  | comparison_ne c a : is_comparison c → is_arith a → is_comparison (c ++ NOTEQUAL :: a).



(** How many [=] and [!] characters a token is made of. *)
Definition equals_in (t : token) : nat :=
  match t with
  | EQEQUAL => 2
  | NOTEQUAL | EQUAL | PLUSEQUAL | MINEQUAL => 1
  | _ => 0
  end.

Definition bangs_in (t : token) : nat :=
  match t with
  | NOTEQUAL => 1
  | _ => 0
  end.

Definition count_equals (toks : list token) : nat :=
  foldr (λ t n, equals_in t + n)%nat 0%nat toks.

Definition count_bangs (toks : list token) : nat :=
  foldr (λ t n, bangs_in t + n)%nat 0%nat toks.

Definition count_char (c : ascii) (s : list ascii) : nat :=
  length (List.filter (λ x, bool_decide (x = c)) s).

Definition is_comparison_token (t : token) : bool :=
  match t with
  | EQEQUAL | NOTEQUAL => true
  | _ => false
  end.

Definition count_comparisons (toks : list token) : nat :=
  length (List.filter is_comparison_token toks).
End Grammar.

(** The tokens of the catalog: [==] or [!=] for an equality operator,
    digits and signs for the other symbols. *)
Definition sign_or_digit (ch : ascii) : bool :=
  match Python2.digit ch with
  | Some _ => true
  | None => bool_decide (ch = "+"%char) || bool_decide (ch = "-"%char)
  end.

Definition catalog_token (s : Symbol.t) : Prop :=
  match Symbol.code s with
  | Some c =>
      if Symbol.is_EqualityOperator s
      then c = "=="%string ∨ c = "!="%string
      else forallb sign_or_digit (list_ascii_of_string c) = true
  | None => False
  end.

(** ** Chains of equalities *)

(** The decomposition in the words of the specification: the operand
    groups between the equality signs, and one sub-expression for each sign,
    made of the sign and the two groups next to it. *)
Fixpoint operand_groups (l : list Symbol.t)
    : list Symbol.t * list (Symbol.t * list Symbol.t) :=
  match l with
  | [] => ([], [])
  | s :: l' =>
      let '(g, rest) := operand_groups l' in
      if Symbol.is_EqualityOperator s then ([], (s, g) :: rest) else (s :: g, rest)
  end.

Fixpoint adjacent_pairs (g : list Symbol.t) (rest : list (Symbol.t * list Symbol.t))
    : list Expression.t :=
  match rest with
  | [] => []
  | (e, g') :: rest' => Expression.mk (g ++ e :: g') :: adjacent_pairs g' rest'
  end.

Definition pairwise_subexpressions (self : Expression.t) : list Expression.t :=
  let '(g, rest) := operand_groups (Expression.symbols self) in
  adjacent_pairs g rest.

(** Evaluating every sub-expression on its own, then the conjunction. *)
Fixpoint evaluate_each (exps : list Expression.t) : result (list PyVal) :=
  match exps with
  | [] => Ok []
  | exp :: exps' =>
      v ← Expression.evaluate exp; vs ← evaluate_each exps'; Ok (v :: vs)
  end.

Definition pairwise_evaluate (self : Expression.t) : result PyVal :=
  vs ← evaluate_each (pairwise_subexpressions self);
  Ok (VBool (forallb truthy vs)).

(** The positions of the equality signs of [l], counted from [off]. *)
Fixpoint positions (off : Z) (l : list Symbol.t) : list Z :=
  match l with
  | [] => []
  | s :: l' =>
      (if Symbol.is_EqualityOperator s then [off] else []) ++ positions (off + 1) l'
  end.

Definition eq_free (l : list Symbol.t) : Prop :=
  Forall (λ s, Symbol.is_EqualityOperator s = false) l.

Definition flatten (g : list Symbol.t) (rest : list (Symbol.t * list Symbol.t))
    : list Symbol.t :=
  g ++ concat ((λ p, p.1 :: p.2) <$> rest).

Definition well_grouped (rest : list (Symbol.t * list Symbol.t)) : Prop :=
  Forall (λ p, Symbol.is_EqualityOperator p.1 = true ∧ eq_free p.2) rest.

(** The pairs of bounds that [zip] makes from the positions [p :: ps] of
    the signs and the bound [low] before them. *)
Definition bounds (low p : Z) (ps : list Z) (len : Z) : list (Z * Z) :=
  zip (low :: removelast (p :: ps)) (ps ++ [len]).

(** ** The search *)

(** Every recorded expression evaluates to [True]. *)
Definition all_true (d : Substitutions) : Prop :=
  ∀ i j a b e, recorded d i j a b = Some e → Expression.evaluate e = Ok (VBool true).

(** ** Sets and dicts of the catalog *)

(** No two members of a Python set are equal. *)
Definition distinct_for {A : Type} (eqb : A → A → bool) (s : list A) : Prop :=
  ∀ i j x y, s !! i = Some x → s !! j = Some y → i ≠ j → eqb x y = false.

(** Every key of a dict of sets satisfies [K] and every stored set [Q]. *)
Definition dict_invariant {A : Type} (K : A → Prop) (Q : list A → Prop)
    (d : list (A * list A)) : Prop :=
  ∀ k s, (k, s) ∈ d → K k ∧ Q s.

(** ** The candidates of the search *)

(** [y] is one of the symbols that [for y in d[x]] runs over. *)
Definition iterated (d : list (Symbol.t * list Symbol.t)) (x y : Symbol.t) : Prop :=
  ∃ s, pydict_get Symbol.__eq__ d x = Some s ∧ y ∈ s.

(** The pairs of new symbols that the search loops try at the positions
    [i] and [j]: a move of the symbol at [i] when [i = j], and otherwise a
    removal from the symbol at [i] with an addition to the symbol at [j]. *)
Definition candidate (symbols : SymbolCollection.t) (expression : Expression.t)
    (i j : nat) (s1 s2 : Symbol.t) : Prop :=
  ∃ src dst,
    Expression.symbols expression !! i = Some src
    ∧ Expression.symbols expression !! j = Some dst
    ∧ if decide (i = j)
      then iterated (SymbolCollection.reachable_with_move_by_symbol symbols) src s1
           ∧ s2 = s1
      else iterated (SymbolCollection.reachable_with_removal_by_symbol symbols) src s1
           ∧ iterated (SymbolCollection.reachable_with_addition_by_symbol symbols) dst s2.

(** The expression with [s1] put at [i], then [s2] at [j]. *)
Definition candidate_expression (expression : Expression.t) (i j : nat)
    (s1 s2 : Symbol.t) : Expression.t :=
  Expression.mk (<[j := s2]> (<[i := s1]> (Expression.symbols expression))).

(** Every entry of the mapping was recorded for a candidate. *)
Definition from_candidates (symbols : SymbolCollection.t) (expression : Expression.t)
    (d : Substitutions) : Prop :=
  ∀ i j a b e, recorded d i j a b = Some e →
    ∃ s1 s2, candidate symbols expression i j s1 s2
             ∧ a = Symbol.code s1 ∧ b = Symbol.code s2
             ∧ e = candidate_expression expression i j s1 s2.

(** The mapping [d'] has every key of [d]. *)
Definition grows (d d' : Substitutions) : Prop :=
  ∀ i j a b, is_Some (recorded d i j a b) → is_Some (recorded d' i j a b).

(** ** The search loops, one loop at a time *)

(** The body of the loop over the destination index, and the loop itself
    for one source index. *)
Definition dest_body (symbols : SymbolCollection.t) (expression : Expression.t)
    (source_index : nat) (source_symbol : Symbol.t)
    (valid_substitutions : Substitutions) (p : nat * Symbol.t) : result Substitutions :=
  let '(dest_index, dest_symbol) := p in
  if decide (source_index = dest_index) then
    moves ← pydict_getitem Symbol.__eq__
              (SymbolCollection.reachable_with_move_by_symbol symbols) source_symbol;
    for_each moves
      (λ valid_substitutions new_symbol,
         _test_substitution expression valid_substitutions
           source_index dest_index new_symbol new_symbol)
      valid_substitutions
  else
    removals ← pydict_getitem Symbol.__eq__
                 (SymbolCollection.reachable_with_removal_by_symbol symbols)
                 source_symbol;
    for_each removals
      (λ valid_substitutions new_source_symbol,
         additions ← pydict_getitem Symbol.__eq__
                       (SymbolCollection.reachable_with_addition_by_symbol symbols)
                       dest_symbol;
         for_each additions
           (λ valid_substitutions new_dest_symbol,
              _test_substitution expression valid_substitutions
                source_index dest_index new_source_symbol new_dest_symbol)
           valid_substitutions)
      valid_substitutions.

Definition source_body (symbols : SymbolCollection.t) (expression : Expression.t)
    (valid_substitutions : Substitutions) (p : nat * Symbol.t) : result Substitutions :=
  let '(source_index, source_symbol) := p in
  for_each (enumerate_nat (Expression.__iter__ expression))
    (dest_body symbols expression source_index source_symbol) valid_substitutions.

(** The number of sticks laid out for an expression. *)
Definition stick_count (e : Expression.t) : nat :=
  sum_list_with (λ s, StickCollection.__len__ (Symbol.sticks s)) (Expression.symbols e).

(** Two symbols that [evaluate] cannot tell apart: the same code, and both
    equality operators or neither. *)
Definition same_tokens (s s' : Symbol.t) : Prop :=
  Symbol.code s = Symbol.code s'
  ∧ Symbol.is_EqualityOperator s = Symbol.is_EqualityOperator s'.

(** * Properties *)

(** ** Shapes up to translation *)

Section Minimum.
Lemma foldr_min_le (x : Z) (l : list Z) :
  foldr Z.min x l ≤ x ∧ ∀ y, y ∈ l → foldr Z.min x l ≤ y.
Proof.
  induction l as [|a l [IH1 IH2]]; simpl.
  - split; [lia|]. intros y Hy. inversion Hy.
  - split; [lia|]. intros y Hy. apply elem_of_cons in Hy as [->|Hy].
    + lia.
    + specialize (IH2 y Hy). lia.
Qed.

Lemma foldr_min_in (x : Z) (l : list Z) :
  foldr Z.min x l = x ∨ foldr Z.min x l ∈ l.
Proof.
  induction l as [|a l IH]; simpl; [by left|].
  destruct (Z.min_spec a (foldr Z.min x l)) as [[_ ->]|[_ ->]].
  - right. left.
  - destruct IH as [->|IH]; [by left|]. right. by right.
Qed.

Lemma min_or_zero_le (l : list Z) (y : Z) : y ∈ l → min_or_zero l ≤ y.
Proof.
  destruct l as [|x l]; [inversion 1|]. simpl.
  destruct (foldr_min_le x l) as [H1 H2].
  intros [->|Hy]%elem_of_cons; [done|by apply H2].
Qed.

Lemma min_or_zero_in (l : list Z) : l ≠ [] → min_or_zero l ∈ l.
Proof.
  destruct l as [|x l]; [done|]. intros _. simpl.
  destruct (foldr_min_in x l) as [->|H]; [left|by right].
Qed.

(** The minimum is determined by the set of values. *)
Lemma min_or_zero_unique (l : list Z) (m : Z) :
  m ∈ l → (∀ y, y ∈ l → m ≤ y) → min_or_zero l = m.
Proof.
  intros Hin Hle.
  assert (l ≠ []) as Hne by (intros ->; inversion Hin).
  pose proof (min_or_zero_in l Hne) as H1.
  pose proof (min_or_zero_le l m Hin) as H2.
  specialize (Hle _ H1). lia.
Qed.
End Minimum.

Section Normalize.
Implicit Types (A B : gset Stick.t) (t : Stick.t).

Lemma min_row_le A t : t ∈ A → StickCollection.min_row (StickCollection.mk A) ≤ Stick.row t.
Proof.
  intros Ht. apply min_or_zero_le. apply list_elem_of_fmap.
  exists t. split; [done|]. by apply elem_of_elements.
Qed.

Lemma min_col_le A t : t ∈ A → StickCollection.min_col (StickCollection.mk A) ≤ Stick.column t.
Proof.
  intros Ht. apply min_or_zero_le. apply list_elem_of_fmap.
  exists t. split; [done|]. by apply elem_of_elements.
Qed.

Lemma min_row_unique A t :
  t ∈ A → (∀ u, u ∈ A → Stick.row t ≤ Stick.row u) →
  StickCollection.min_row (StickCollection.mk A) = Stick.row t.
Proof.
  intros Ht Hle. apply min_or_zero_unique.
  - apply list_elem_of_fmap. exists t. split; [done|]. by apply elem_of_elements.
  - intros y (u & -> & Hu%elem_of_elements)%list_elem_of_fmap. by apply Hle.
Qed.

Lemma min_col_unique A t :
  t ∈ A → (∀ u, u ∈ A → Stick.column t ≤ Stick.column u) →
  StickCollection.min_col (StickCollection.mk A) = Stick.column t.
Proof.
  intros Ht Hle. apply min_or_zero_unique.
  - apply list_elem_of_fmap. exists t. split; [done|]. by apply elem_of_elements.
  - intros y (u & -> & Hu%elem_of_elements)%list_elem_of_fmap. by apply Hle.
Qed.

Lemma min_row_attained A :
  A ≠ ∅ → ∃ t, t ∈ A ∧ Stick.row t = StickCollection.min_row (StickCollection.mk A).
Proof.
  intros Hne.
  assert (Stick.row <$> elements A ≠ []) as Hl.
  { intros H%fmap_nil_inv. by apply elements_empty_inv, leibniz_equiv in H. }
  apply min_or_zero_in, list_elem_of_fmap in Hl as (t & Ht & Hin%elem_of_elements).
  by exists t.
Qed.

Lemma min_col_attained A :
  A ≠ ∅ → ∃ t, t ∈ A ∧ Stick.column t = StickCollection.min_col (StickCollection.mk A).
Proof.
  intros Hne.
  assert (Stick.column <$> elements A ≠ []) as Hl.
  { intros H%fmap_nil_inv. by apply elements_empty_inv, leibniz_equiv in H. }
  apply min_or_zero_in, list_elem_of_fmap in Hl as (t & Ht & Hin%elem_of_elements).
  by exists t.
Qed.

Lemma elem_of_translate dr dc A t :
  t ∈ translate dr dc A ↔ ∃ u, u ∈ A ∧ t = Stick.shift dr dc u.
Proof.
  unfold translate. rewrite elem_of_map.
  split; intros (u & H1 & H2); eauto.
Qed.

Lemma translate_empty dr dc : translate dr dc ∅ = ∅.
Proof. unfold translate. by rewrite set_map_empty. Qed.

Lemma min_row_translate dr dc A :
  A ≠ ∅ →
  StickCollection.min_row (StickCollection.mk (translate dr dc A))
  = StickCollection.min_row (StickCollection.mk A) + dr.
Proof.
  intros Hne. destruct (min_row_attained A Hne) as (t & Ht & Heq).
  rewrite (min_row_unique _ (Stick.shift dr dc t)); simpl; [lia| |].
  - apply elem_of_translate. eauto.
  - intros u (v & Hv & ->)%elem_of_translate. simpl.
    pose proof (min_row_le A v Hv). lia.
Qed.

Lemma min_col_translate dr dc A :
  A ≠ ∅ →
  StickCollection.min_col (StickCollection.mk (translate dr dc A))
  = StickCollection.min_col (StickCollection.mk A) + dc.
Proof.
  intros Hne. destruct (min_col_attained A Hne) as (t & Ht & Heq).
  rewrite (min_col_unique _ (Stick.shift dr dc t)); simpl; [lia| |].
  - apply elem_of_translate. eauto.
  - intros u (v & Hv & ->)%elem_of_translate. simpl.
    pose proof (min_col_le A v Hv). lia.
Qed.

(** The normalized form is the set moved by minus its minima. *)
Lemma normalized_translate A :
  StickCollection.normalized_sticks (StickCollection.mk A)
  = translate (- StickCollection.min_row (StickCollection.mk A))
              (- StickCollection.min_col (StickCollection.mk A)) A.
Proof. reflexivity. Qed.

Lemma translate_translate dr dc dr' dc' A :
  translate dr dc (translate dr' dc' A) = translate (dr' + dr) (dc' + dc) A.
Proof.
  apply set_eq. intros t. rewrite !elem_of_translate. split.
  - intros (u & (v & Hv & ->)%elem_of_translate & ->). exists v. split; [done|].
    unfold Stick.shift; simpl. f_equal; lia.
  - intros (v & Hv & ->). exists (Stick.shift dr' dc' v). split.
    + apply elem_of_translate; eauto.
    + unfold Stick.shift; simpl. f_equal; lia.
Qed.

Lemma translate_0 A : translate 0 0 A = A.
Proof.
  apply set_eq. intros t. rewrite elem_of_translate. split.
  - intros (u & Hu & ->). destruct u. unfold Stick.shift; simpl.
    by rewrite !Z.add_0_r.
  - intros Ht. exists t. split; [done|]. destruct t. unfold Stick.shift; simpl.
    by rewrite !Z.add_0_r.
Qed.

Lemma translate_eq_empty dr dc A : translate dr dc A = ∅ → A = ∅.
Proof.
  intros H. apply set_eq. intros t. split; [|by intros ?%not_elem_of_empty].
  intros Ht. assert (Stick.shift dr dc t ∈ translate dr dc A) as Hs.
  { apply elem_of_translate; eauto. }
  rewrite H in Hs. by apply not_elem_of_empty in Hs.
Qed.

(** Translation invariance of the normalized form, and its converse. *)
Lemma normalized_sticks_translate dr dc A :
  StickCollection.normalized_sticks (StickCollection.mk (translate dr dc A))
  = StickCollection.normalized_sticks (StickCollection.mk A).
Proof.
  destruct (decide (A = ∅)) as [->|Hne].
  - by rewrite translate_empty.
  - rewrite !normalized_translate, translate_translate.
    rewrite min_row_translate, min_col_translate by done.
    f_equal; lia.
Qed.

Lemma normalized_sticks_eq_translate A B :
  StickCollection.normalized_sticks (StickCollection.mk A)
  = StickCollection.normalized_sticks (StickCollection.mk B) →
  B = translate (StickCollection.min_row (StickCollection.mk B)
                 - StickCollection.min_row (StickCollection.mk A))
                (StickCollection.min_col (StickCollection.mk B)
                 - StickCollection.min_col (StickCollection.mk A)) A.
Proof.
  rewrite !normalized_translate. intros H.
  rewrite <- (translate_0 B) at 1.
  replace (translate 0 0 B) with
    (translate (StickCollection.min_row (StickCollection.mk B))
               (StickCollection.min_col (StickCollection.mk B))
       (translate (- StickCollection.min_row (StickCollection.mk B))
                  (- StickCollection.min_col (StickCollection.mk B)) B)).
  - rewrite <- H, translate_translate. f_equal; lia.
  - rewrite translate_translate. f_equal; lia.
Qed.

(** [StickCollection.__eq__] is equality up to one common offset. *)
Lemma StickCollection_eq_translate A B :
  StickCollection.__eq__ (StickCollection.mk A) (StickCollection.mk B) = true
  ↔ ∃ dr dc, B = translate dr dc A.
Proof.
  unfold StickCollection.__eq__. rewrite bool_decide_eq_true. split.
  - intros H. eexists _, _. by apply normalized_sticks_eq_translate.
  - intros (dr & dc & ->). by rewrite normalized_sticks_translate.
Qed.

Lemma translate_difference dr dc A t :
  translate dr dc (A ∖ {[ t ]}) = translate dr dc A ∖ {[ Stick.shift dr dc t ]}.
Proof.
  unfold translate. rewrite set_map_difference_L by apply _.
  by rewrite set_map_singleton_L.
Qed.

Lemma translate_union dr dc A t :
  translate dr dc (A ∪ {[ t ]}) = translate dr dc A ∪ {[ Stick.shift dr dc t ]}.
Proof.
  unfold translate. by rewrite set_map_union_L, set_map_singleton_L.
Qed.

Lemma size_translate dr dc A : size (translate dr dc A) = size A.
Proof.
  induction A as [|x X Hx IH] using set_ind_L.
  - by rewrite translate_empty.
  - rewrite (union_comm_L {[x]} X), translate_union.
    rewrite !size_union, !size_singleton, IH; [done| |].
    + intros y Hy ->%elem_of_singleton. done.
    + intros y (u & Hu & ->)%elem_of_translate Hy.
      apply elem_of_singleton, (inj _) in Hy. by subst.
Qed.

Lemma normalized_min_row A :
  A ≠ ∅ →
  StickCollection.min_row
    (StickCollection.mk (StickCollection.normalized_sticks (StickCollection.mk A))) = 0.
Proof. intros H. rewrite normalized_translate, min_row_translate by done. lia. Qed.

Lemma normalized_min_col A :
  A ≠ ∅ →
  StickCollection.min_col
    (StickCollection.mk (StickCollection.normalized_sticks (StickCollection.mk A))) = 0.
Proof. intros H. rewrite normalized_translate, min_col_translate by done. lia. Qed.

(** [__sub__] always yields the set without the stick. *)
Lemma sub_sticks (c : StickCollection.t) t :
  StickCollection.sticks (StickCollection.__sub__ c t) = StickCollection.sticks c ∖ {[ t ]}.
Proof.
  unfold StickCollection.__sub__. destruct (decide _) as [|Hn]; [done|].
  apply set_eq. intros u. rewrite elem_of_difference, elem_of_singleton.
  split; [|by intros [? _]]. intros Hu. split; [done|]. by intros ->.
Qed.
End Normalize.

Section ShapeEquality.
Implicit Types (a b c : StickCollection.t).

Lemma StickCollection_eq_refl a : StickCollection.__eq__ a a = true.
Proof. by apply bool_decide_eq_true. Qed.

Lemma StickCollection_eq_sym a b :
  StickCollection.__eq__ a b = StickCollection.__eq__ b a.
Proof. unfold StickCollection.__eq__. apply bool_decide_ext. split; congruence. Qed.

Lemma StickCollection_eq_trans a b c :
  StickCollection.__eq__ a b = true → StickCollection.__eq__ b c = true →
  StickCollection.__eq__ a c = true.
Proof.
  unfold StickCollection.__eq__. rewrite !bool_decide_eq_true. congruence.
Qed.

Lemma StickCollection_eq_len a b :
  StickCollection.__eq__ a b = true →
  StickCollection.__len__ a = StickCollection.__len__ b.
Proof.
  destruct a as [A], b as [B]. intros (dr & dc & ->)%StickCollection_eq_translate.
  unfold StickCollection.__len__; simpl. by rewrite size_translate.
Qed.
End ShapeEquality.

Section Reachability.
Implicit Types (self other : Symbol.t).

Lemma is_reachable_from_spec self other :
  Symbol.is_reachable_from self other = true
  ↔ one_stick_more (StickCollection.sticks (Symbol.sticks self))
                   (StickCollection.sticks (Symbol.sticks other)).
Proof.
  unfold Symbol.is_reachable_from, one_stick_more, StickCollection.__len__,
    StickCollection.__iter__.
  destruct self as [? ? [S] ? ? ?], other as [? ? [O] ? ? ?]; simpl.
  case_bool_decide as Hsz; simpl.
  - rewrite existsb_exists. split.
    + intros (t & Ht & Heq). split; [done|]. exists t. split.
      { apply elem_of_elements. by apply list_elem_of_In. }
      rewrite StickCollection_eq_sym in Heq.
      destruct (StickCollection.__sub__ {| StickCollection.sticks := S |} t) as [D] eqn:HD.
      apply (f_equal StickCollection.sticks) in HD. rewrite sub_sticks in HD.
      simpl in HD. subst D.
      by apply StickCollection_eq_translate in Heq.
    + intros (_ & t & Ht & dr & dc & ->). exists t. split.
      { apply list_elem_of_In. by apply elem_of_elements. }
      rewrite StickCollection_eq_sym.
      destruct (StickCollection.__sub__ {| StickCollection.sticks := S |} t) as [D] eqn:HD.
      apply (f_equal StickCollection.sticks) in HD. rewrite sub_sticks in HD.
      simpl in HD. subst D.
      apply StickCollection_eq_translate. eauto.
  - split; [done|]. intros [? _]. done.
Qed.
End Reachability.

(** * Sets and dicts compared with an equivalence *)

Section PyContainersTheory.
Context {A : Type} (eqb : A → A → bool).
Hypothesis eqb_refl : ∀ x, eqb x x = true.
Hypothesis eqb_sym : ∀ x y, eqb x y = eqb y x.
Hypothesis eqb_trans : ∀ x y z, eqb x y = true → eqb y z = true → eqb x z = true.

Lemma eqb_left x y z : eqb x y = true → eqb x z = eqb y z.
Proof.
  intros Hxy. apply eq_true_iff_eq. split; intros H.
  - apply eqb_trans with x; [by rewrite eqb_sym|done].
  - by apply eqb_trans with y.
Qed.

Lemma eqb_right x y z : eqb x y = true → eqb z x = eqb z y.
Proof. intros H. rewrite (eqb_sym z x), (eqb_sym z y). by apply eqb_left. Qed.

Lemma pyset_contains_equiv s x y :
  eqb x y = true → pyset_contains eqb s x = pyset_contains eqb s y.
Proof.
  intros H. unfold pyset_contains. induction s as [|z s IH]; simpl; [done|].
  by rewrite IH, (eqb_right x y z).
Qed.

Lemma pyset_contains_add s x y :
  pyset_contains eqb (pyset_add eqb s x) y = pyset_contains eqb s y || eqb x y.
Proof.
  unfold pyset_add. destruct (pyset_contains eqb s x) eqn:Hx.
  - destruct (eqb x y) eqn:Hxy; [|by rewrite orb_false_r].
    by rewrite <- (pyset_contains_equiv s x y Hxy), Hx.
  - unfold pyset_contains. rewrite existsb_app. simpl. by rewrite orb_false_r.
Qed.

Lemma pyset_contains_foldl_add s l y :
  pyset_contains eqb (foldl (pyset_add eqb) s l) y
  = pyset_contains eqb s y || existsb (λ z, eqb z y) l.
Proof.
  revert s. induction l as [|x l IH]; intros s; simpl.
  - by rewrite orb_false_r.
  - by rewrite IH, pyset_contains_add, orb_assoc.
Qed.

Lemma pyset_contains_of_list l y :
  pyset_contains eqb (pyset_of_list eqb l) y = existsb (λ z, eqb z y) l.
Proof. unfold pyset_of_list. by rewrite pyset_contains_foldl_add. Qed.

Lemma elem_of_foldl_pyset_add s l x :
  x ∈ foldl (pyset_add eqb) s l → x ∈ s ∨ x ∈ l.
Proof.
  revert s. induction l as [|z l IH]; intros s; simpl; [by left|].
  intros [H|H]%IH.
  - unfold pyset_add in H. destruct (pyset_contains eqb s z); [by left|].
    apply elem_of_app in H as [H|H]; [by left|].
    apply list_elem_of_singleton in H as ->. right. left.
  - right. by right.
Qed.

Lemma elem_of_pyset_of_list l x : x ∈ pyset_of_list eqb l → x ∈ l.
Proof.
  intros [H|H]%elem_of_foldl_pyset_add; [inversion H|done].
Qed.

Context {V : Type}.
Implicit Types (d : list (A * V)).

Lemma pydict_get_equiv d x y :
  eqb x y = true → pydict_get eqb d x = pydict_get eqb d y.
Proof.
  intros H. induction d as [|[k v] d IH]; simpl; [done|].
  by rewrite IH, (eqb_right x y k).
Qed.

Lemma pydict_get_app d d' x :
  pydict_get eqb (d ++ d') x
  = match pydict_get eqb d x with
    | Some v => Some v
    | None => pydict_get eqb d' x
    end.
Proof.
  induction d as [|[k v] d IH]; simpl; [done|]. by destruct (eqb k x).
Qed.

Lemma pydict_get_setdefault d k v x :
  pydict_get eqb (pydict_setdefault eqb d k v) x
  = match pydict_get eqb d x with
    | Some w => Some w
    | None => if eqb k x then Some v else None
    end.
Proof.
  unfold pydict_setdefault. destruct (pydict_get eqb d k) as [w|] eqn:Hk.
  - destruct (pydict_get eqb d x) eqn:Hx; [done|].
    destruct (eqb k x) eqn:Hkx; [|done].
    rewrite (pydict_get_equiv d k x Hkx) in Hk. congruence.
  - rewrite pydict_get_app. simpl. by destruct (pydict_get eqb d x).
Qed.

Lemma pydict_get_update d k f x :
  pydict_get eqb (pydict_update eqb d k f) x
  = if eqb k x then f <$> pydict_get eqb d x else pydict_get eqb d x.
Proof.
  induction d as [|[k' v] d IH]; simpl; [by destruct (eqb k x)|].
  destruct (eqb k' k) eqn:Hk; simpl.
  - rewrite <- (eqb_left k' k x Hk). by destruct (eqb k' x).
  - rewrite IH. destruct (eqb k' x) eqn:Hx; [|done].
    by rewrite (eqb_sym k x), <- (eqb_left k' x k Hx), Hk.
Qed.
End PyContainersTheory.

(** A dict of sets, as [SymbolCollection] builds them. *)
Section DictOfSetsTheory.
Context {A : Type} (eqb : A → A → bool).
Hypothesis eqb_refl : ∀ x, eqb x x = true.
Hypothesis eqb_sym : ∀ x y, eqb x y = eqb y x.
Hypothesis eqb_trans : ∀ x y z, eqb x y = true → eqb y z = true → eqb x z = true.
Implicit Types (d : list (A * list A)).

Lemma has_key_update d k f x :
  has_key eqb (pydict_update eqb d k f) x = has_key eqb d x.
Proof.
  unfold has_key. rewrite pydict_get_update by done.
  destruct (eqb k x); [|done]. by destruct (pydict_get eqb d x).
Qed.

Lemma entry_update_add d k o x y :
  has_key eqb d k = true →
  entry eqb (pydict_update eqb d k (λ s, pyset_add eqb s o)) x y
  = entry eqb d x y || (eqb k x && eqb o y).
Proof.
  unfold entry, has_key. intros Hk. rewrite pydict_get_update by done.
  destruct (eqb k x) eqn:Hkx; simpl; [|by rewrite orb_false_r].
  rewrite <- (pydict_get_equiv eqb eqb_sym eqb_trans d k x Hkx).
  destruct (pydict_get eqb d k); [|done]. simpl.
  by apply pyset_contains_add.
Qed.

Lemma fill_spec d k outs x y :
  has_key eqb (fill eqb d k outs) x = has_key eqb d x || eqb k x
  ∧ entry eqb (fill eqb d k outs) x y
    = entry eqb d x y || (eqb k x && existsb (λ o, eqb o y) outs).
Proof.
  unfold fill.
  assert (has_key eqb (pydict_setdefault eqb d k []) k = true) as Hk.
  { unfold has_key. rewrite pydict_get_setdefault by done.
    destruct (pydict_get eqb d k); [done|]. by rewrite eqb_refl. }
  assert (has_key eqb (pydict_setdefault eqb d k []) x = has_key eqb d x || eqb k x) as Hx.
  { unfold has_key. rewrite pydict_get_setdefault by done.
    destruct (pydict_get eqb d x); [done|]. by destruct (eqb k x). }
  assert (entry eqb (pydict_setdefault eqb d k []) x y = entry eqb d x y) as He.
  { unfold entry. rewrite pydict_get_setdefault by done.
    destruct (pydict_get eqb d x); [done|]. by destruct (eqb k x). }
  rewrite <- Hx, <- He. clear Hx He.
  generalize dependent (pydict_setdefault eqb d k []). clear d.
  induction outs as [|o outs IH]; intros d Hk; simpl.
  - by rewrite andb_false_r, orb_false_r.
  - destruct (IH (pydict_update eqb d k (λ s, pyset_add eqb s o))) as [IH1 IH2].
    { by rewrite has_key_update. }
    rewrite IH1, IH2, has_key_update, entry_update_add by done.
    split; [done|]. destruct (eqb k x); simpl; [|by rewrite !orb_false_r].
    by rewrite orb_assoc.
Qed.

Lemma build_spec outs l d x y :
  has_key eqb (build eqb outs l d) x = has_key eqb d x || existsb (λ k, eqb k x) l
  ∧ entry eqb (build eqb outs l d) x y
    = entry eqb d x y
      || existsb (λ k, eqb k x && existsb (λ o, eqb o y) (outs k)) l.
Proof.
  unfold build. revert d. induction l as [|k l IH]; intros d; simpl.
  - by rewrite !orb_false_r.
  - destruct (IH (fill eqb d k (outs k))) as [-> ->].
    destruct (fill_spec d k (outs k) x y) as [-> ->].
    by rewrite !orb_assoc.
Qed.
End DictOfSetsTheory.

Section SymbolEquality.
Implicit Types (a b c : Symbol.t).

Lemma Symbol_eq_refl a : Symbol.__eq__ a a = true.
Proof. apply StickCollection_eq_refl. Qed.

Lemma Symbol_eq_sym a b : Symbol.__eq__ a b = Symbol.__eq__ b a.
Proof. apply StickCollection_eq_sym. Qed.

Lemma Symbol_eq_trans a b c :
  Symbol.__eq__ a b = true → Symbol.__eq__ b c = true → Symbol.__eq__ a c = true.
Proof. apply StickCollection_eq_trans. Qed.

Lemma Symbol_eq_translate a b :
  Symbol.__eq__ a b = true
  ↔ ∃ dr dc, StickCollection.sticks (Symbol.sticks b)
             = translate dr dc (StickCollection.sticks (Symbol.sticks a)).
Proof.
  unfold Symbol.__eq__. destruct (Symbol.sticks a), (Symbol.sticks b).
  apply StickCollection_eq_translate.
Qed.
End SymbolEquality.

Section ReachabilityInvariance.
Lemma one_stick_more_translate X Y dr dc dr' dc' :
  one_stick_more X Y → one_stick_more (translate dr dc X) (translate dr' dc' Y).
Proof.
  intros (Hsz & t & Ht & er & ec & ->). split.
  - by rewrite !size_translate in *.
  - exists (Stick.shift dr dc t). split; [apply elem_of_translate; eauto|].
    exists (er + dr' - dr), (ec + dc' - dc).
    rewrite <- translate_difference, !translate_translate. f_equal; lia.
Qed.

Lemma is_reachable_from_proper s s' o o' :
  Symbol.__eq__ s s' = true → Symbol.__eq__ o o' = true →
  Symbol.is_reachable_from s o = Symbol.is_reachable_from s' o'.
Proof.
  intros Hs Ho. apply eq_true_iff_eq. rewrite !is_reachable_from_spec.
  split; intros H.
  - apply Symbol_eq_translate in Hs as (dr & dc & ->).
    apply Symbol_eq_translate in Ho as (dr' & dc' & ->).
    by apply one_stick_more_translate.
  - rewrite Symbol_eq_sym in Hs. rewrite Symbol_eq_sym in Ho.
    apply Symbol_eq_translate in Hs as (dr & dc & ->).
    apply Symbol_eq_translate in Ho as (dr' & dc' & ->).
    by apply one_stick_more_translate.
Qed.

(** One stick more, read as adding a stick. *)
Lemma one_stick_more_add X Y :
  one_stick_more X Y
  ↔ ∃ t', (t' ∉ Y) ∧ ∃ dr dc, X = translate dr dc (Y ∪ {[ t' ]}).
Proof.
  split.
  - intros (Hsz & u & Hu & dr & dc & ->).
    exists (Stick.shift dr dc u). split.
    + rewrite translate_difference. intros [_ H]%elem_of_difference.
      apply H. by apply elem_of_singleton.
    + exists (- dr), (- dc).
      rewrite translate_union, !translate_translate.
      replace (dr + (- dr)) with 0 by lia. replace (dc + (- dc)) with 0 by lia.
      rewrite translate_0.
      replace (Stick.shift (- dr) (- dc) (Stick.shift dr dc u)) with u.
      * apply set_eq. intros x. rewrite elem_of_union, elem_of_difference, elem_of_singleton.
        destruct (decide (x = u)) as [->|Hne]; [by split; auto|].
        split; [by left|]. by intros [[? _]|?].
      * destruct u. unfold Stick.shift; simpl. f_equal; lia.
  - intros (t' & Ht' & dr & dc & ->). split.
    + rewrite size_translate, size_union, size_singleton; [lia|].
      intros x Hx ->%elem_of_singleton. done.
    + exists (Stick.shift dr dc t'). split.
      * apply elem_of_translate. exists t'. split; [|done].
        apply elem_of_union. right. by apply elem_of_singleton.
      * exists (- dr), (- dc).
        rewrite <- translate_difference, translate_translate.
        replace (dr + (- dr)) with 0 by lia. replace (dc + (- dc)) with 0 by lia.
        rewrite translate_0. apply set_eq. intros x.
        rewrite elem_of_difference, elem_of_union, elem_of_singleton.
        split; [|by intros [[?|?] ?]].
        intros Hx. split; [by left|]. by intros ->.
Qed.
End ReachabilityInvariance.

(** * The three maps of a [SymbolCollection] *)

Section CatalogMaps.
Implicit Types (self : SymbolCollection.t) (l syms : list Symbol.t).

Lemma foldl_if_filter {A B : Type} (p : A → bool) (g : B → A → B) (l : list A) (b : B) :
  foldl (λ b a, if p a then g b a else b) b l = foldl g b (List.filter p l).
Proof.
  revert b. induction l as [|a l IH]; intros b; simpl; [done|].
  destruct (p a); simpl; apply IH.
Qed.

Lemma pair_loop symbol_in self l :
  let r := foldl (SymbolCollection.pair_step symbol_in) self l in
  SymbolCollection.symbols r = SymbolCollection.symbols self
  ∧ SymbolCollection.reachable_with_addition_by_symbol r
    = foldl (λ d o, SymbolCollection.add_to d symbol_in o)
        (SymbolCollection.reachable_with_addition_by_symbol self)
        (addition_outs l symbol_in)
  ∧ SymbolCollection.reachable_with_removal_by_symbol r
    = foldl (λ d o, SymbolCollection.add_to d symbol_in o)
        (SymbolCollection.reachable_with_removal_by_symbol self)
        (removal_outs l symbol_in)
  ∧ SymbolCollection.reachable_with_move_by_symbol r
    = SymbolCollection.reachable_with_move_by_symbol self.
Proof.
  revert self. induction l as [|o l IH]; intros self; simpl; [done|].
  destruct (IH (SymbolCollection.pair_step symbol_in self o)) as (-> & -> & -> & ->).
  unfold SymbolCollection.pair_step.
  destruct (Symbol.is_reachable_from o symbol_in),
           (Symbol.is_reachable_from symbol_in o); simpl; done.
Qed.

Lemma move_loop symbol_in intermediate self l :
  let r := foldl (SymbolCollection.move_step symbol_in intermediate) self l in
  SymbolCollection.symbols r = SymbolCollection.symbols self
  ∧ SymbolCollection.reachable_with_addition_by_symbol r
    = SymbolCollection.reachable_with_addition_by_symbol self
  ∧ SymbolCollection.reachable_with_removal_by_symbol r
    = SymbolCollection.reachable_with_removal_by_symbol self
  ∧ SymbolCollection.reachable_with_move_by_symbol r
    = foldl (λ d o, SymbolCollection.add_to d symbol_in o)
        (SymbolCollection.reachable_with_move_by_symbol self)
        (List.filter (λ o, Symbol.is_reachable_from o intermediate) l).
Proof.
  revert self. induction l as [|o l IH]; intros self; simpl; [done|].
  destruct (IH (SymbolCollection.move_step symbol_in intermediate self o))
    as (-> & -> & -> & ->).
  unfold SymbolCollection.move_step.
  destruct (Symbol.is_reachable_from o intermediate); simpl; done.
Qed.

Lemma intermediate_loop symbol_in self inters :
  let r := foldl (λ self intermediate,
                    foldl (SymbolCollection.move_step symbol_in intermediate) self
                          (SymbolCollection.symbols self))
                 self inters in
  SymbolCollection.symbols r = SymbolCollection.symbols self
  ∧ SymbolCollection.reachable_with_addition_by_symbol r
    = SymbolCollection.reachable_with_addition_by_symbol self
  ∧ SymbolCollection.reachable_with_removal_by_symbol r
    = SymbolCollection.reachable_with_removal_by_symbol self
  ∧ SymbolCollection.reachable_with_move_by_symbol r
    = foldl (λ d o, SymbolCollection.add_to d symbol_in o)
        (SymbolCollection.reachable_with_move_by_symbol self)
        (intermediate ← inters;
         List.filter (λ o, Symbol.is_reachable_from o intermediate)
                     (SymbolCollection.symbols self)).
Proof.
  revert self. induction inters as [|i inters IH]; intros self; simpl; [done|].
  destruct (move_loop symbol_in i self (SymbolCollection.symbols self))
    as (Hs & Ha & Hr & Hm).
  destruct (IH (foldl (SymbolCollection.move_step symbol_in i) self
                      (SymbolCollection.symbols self))) as (-> & -> & -> & ->).
  rewrite Hs, Ha, Hr, Hm, foldl_app. done.
Qed.

Lemma symbol_step_spec self symbol_in :
  let r := SymbolCollection.symbol_step self symbol_in in
  let syms := SymbolCollection.symbols self in
  SymbolCollection.symbols r = syms
  ∧ SymbolCollection.reachable_with_addition_by_symbol r
    = fill Symbol.__eq__ (SymbolCollection.reachable_with_addition_by_symbol self)
        symbol_in (addition_outs syms symbol_in)
  ∧ SymbolCollection.reachable_with_removal_by_symbol r
    = fill Symbol.__eq__ (SymbolCollection.reachable_with_removal_by_symbol self)
        symbol_in (removal_outs syms symbol_in)
  ∧ SymbolCollection.reachable_with_move_by_symbol r
    = fill Symbol.__eq__ (SymbolCollection.reachable_with_move_by_symbol self)
        symbol_in (move_outs syms symbol_in).
Proof.
  unfold SymbolCollection.symbol_step. cbv zeta.
  match goal with |- context [foldl (SymbolCollection.pair_step _) ?s ?l] =>
    destruct (pair_loop symbol_in s l) as (Hs & Ha & Hr & Hm) end.
  match goal with |- context [foldl ?f ?s (Symbol.removal_set _)] =>
    destruct (intermediate_loop symbol_in s (Symbol.removal_set symbol_in))
      as (Hs' & Ha' & Hr' & Hm') end.
  rewrite Hs', Ha', Hr', Hm', Hs, Ha, Hr, Hm. simpl. done.
Qed.

Lemma init_spec syms :
  let r := SymbolCollection.__init__ syms in
  SymbolCollection.symbols r = syms
  ∧ SymbolCollection.reachable_with_addition_by_symbol r
    = build Symbol.__eq__ (addition_outs syms) syms []
  ∧ SymbolCollection.reachable_with_removal_by_symbol r
    = build Symbol.__eq__ (removal_outs syms) syms []
  ∧ SymbolCollection.reachable_with_move_by_symbol r
    = build Symbol.__eq__ (move_outs syms) syms [].
Proof.
  unfold SymbolCollection.__init__, build.
  assert (∀ l self, SymbolCollection.symbols self = syms →
    let r := foldl SymbolCollection.symbol_step self l in
    SymbolCollection.symbols r = syms
    ∧ SymbolCollection.reachable_with_addition_by_symbol r
      = foldl (λ d k, fill Symbol.__eq__ d k (addition_outs syms k))
          (SymbolCollection.reachable_with_addition_by_symbol self) l
    ∧ SymbolCollection.reachable_with_removal_by_symbol r
      = foldl (λ d k, fill Symbol.__eq__ d k (removal_outs syms k))
          (SymbolCollection.reachable_with_removal_by_symbol self) l
    ∧ SymbolCollection.reachable_with_move_by_symbol r
      = foldl (λ d k, fill Symbol.__eq__ d k (move_outs syms k))
          (SymbolCollection.reachable_with_move_by_symbol self) l) as H.
  { induction l as [|k l IH]; intros self Hself; simpl; [done|].
    destruct (symbol_step_spec self k) as (Hs & Ha & Hr & Hm).
    rewrite Hself in *.
    destruct (IH (SymbolCollection.symbol_step self k) Hs) as (-> & -> & -> & ->).
    by rewrite Ha, Hr, Hm. }
  apply (H syms (SymbolCollection.mk syms [] [] [])). done.
Qed.
End CatalogMaps.

(** C7: two shapes are equal exactly when one is the other moved by one
    common (row, column) offset; equality and hash are functions of the
    normalized form alone, whose minimum row and minimum column are 0; the
    one-stick shapes at (1,1) and (3,3) are equal. *)
Theorem shape_equality_is_translation (A B : gset Stick.t) :
  (StickCollection.__eq__ (StickCollection.mk A) (StickCollection.mk B) = true
   ↔ ∃ dr dc, B = translate dr dc A)
  ∧ StickCollection.__eq__ (StickCollection.mk A) (StickCollection.mk B)
    = bool_decide (StickCollection.normalized_sticks (StickCollection.mk A)
                   = StickCollection.normalized_sticks (StickCollection.mk B))
  ∧ StickCollection.__hash__ (StickCollection.mk A)
    = StickCollection.normalized_sticks (StickCollection.mk A)
  ∧ StickCollection.normalized_sticks (StickCollection.mk A)
    = translate (- StickCollection.min_row (StickCollection.mk A))
                (- StickCollection.min_col (StickCollection.mk A)) A
  ∧ StickCollection.min_row
      (StickCollection.mk (StickCollection.normalized_sticks (StickCollection.mk A))) = 0
  ∧ StickCollection.min_col
      (StickCollection.mk (StickCollection.normalized_sticks (StickCollection.mk A))) = 0
  ∧ StickCollection.__eq__
      (StickCollection.mk {[ Stick.mk 1 1 Stick.VERTICAL ]})
      (StickCollection.mk {[ Stick.mk 3 3 Stick.VERTICAL ]}) = true.
Proof.
  split; [apply StickCollection_eq_translate|].
  split; [done|]. split; [done|]. split; [apply normalized_translate|].
  split; [|split].
  - destruct (decide (A = ∅)) as [->|Hne]; [done|]. by apply normalized_min_row.
  - destruct (decide (A = ∅)) as [->|Hne]; [done|]. by apply normalized_min_col.
  - vm_compute. reflexivity.
Qed.

(** C6: [self.is_reachable_from(other)] holds exactly when the shape of
    [self] has one stick more than that of [other] and some stick of [self],
    taken away, leaves a shape equal to that of [other] up to translation. *)
Theorem reachable_by_adding_one_stick (self other : Symbol.t) :
  let X := StickCollection.sticks (Symbol.sticks self) in
  let Y := StickCollection.sticks (Symbol.sticks other) in
  (Symbol.is_reachable_from self other = true
   ↔ size X = S (size Y) ∧ ∃ t, t ∈ X ∧ ∃ dr dc, Y = translate dr dc (X ∖ {[ t ]}))
  ∧ (Symbol.is_reachable_from self other = true
     ↔ StickCollection.__len__ (Symbol.sticks self)
       = S (StickCollection.__len__ (Symbol.sticks other))
       ∧ ∃ t, t ∈ X
              ∧ StickCollection.__eq__
                  (StickCollection.__sub__ (Symbol.sticks self) t)
                  (Symbol.sticks other) = true).
Proof.
  intros X Y. split; [apply is_reachable_from_spec|].
  rewrite is_reachable_from_spec. unfold one_stick_more, StickCollection.__len__.
  fold X Y. split.
  - intros (Hsz & t & Ht & dr & dc & HY). split; [done|]. exists t. split; [done|].
    destruct (StickCollection.__sub__ (Symbol.sticks self) t) as [D] eqn:HD.
    apply (f_equal StickCollection.sticks) in HD. rewrite sub_sticks in HD. simpl in HD.
    fold X in HD. subst D. destruct (Symbol.sticks other) as [Y'] eqn:HY'.
    simpl in Y. subst Y. apply StickCollection_eq_translate. eauto.
  - intros (Hsz & t & Ht & Heq). split; [done|]. exists t. split; [done|].
    destruct (StickCollection.__sub__ (Symbol.sticks self) t) as [D] eqn:HD.
    apply (f_equal StickCollection.sticks) in HD. rewrite sub_sticks in HD. simpl in HD.
    fold X in HD. subst D. destruct (Symbol.sticks other) as [Y'] eqn:HY'.
    simpl in Y. subst Y. by apply StickCollection_eq_translate in Heq.
Qed.

Section CatalogLaws.
Variable alphabet : list Symbol.t.

Lemma in_addition_map x y :
  in_map (SymbolCollection.reachable_with_addition_by_symbol (SymbolCollection.__init__ alphabet)) x y = true
  ↔ ∃ k o, k ∈ alphabet ∧ o ∈ alphabet ∧ Symbol.__eq__ k x = true
           ∧ Symbol.__eq__ o y = true ∧ Symbol.is_reachable_from o k = true.
Proof.
  unfold in_map. destruct (init_spec alphabet) as (_ & -> & _ & _).
  destruct (build_spec Symbol.__eq__ Symbol_eq_refl Symbol_eq_sym Symbol_eq_trans
              (addition_outs alphabet) alphabet [] x y) as [_ ->].
  simpl. rewrite existsb_exists. split.
  - intros (k & Hk & (Hkx & (o & Ho & Hoy)%existsb_exists)%andb_true_iff).
    apply filter_In in Ho as [Ho Hr].
    exists k, o. rewrite <- !list_elem_of_In in *. done.
  - intros (k & o & Hk & Ho & Hkx & Hoy & Hr). exists k.
    rewrite <- list_elem_of_In. split; [done|]. apply andb_true_iff. split; [done|].
    apply existsb_exists. exists o. split; [|done].
    apply filter_In. by rewrite <- list_elem_of_In.
Qed.

Lemma in_removal_map x y :
  in_map (SymbolCollection.reachable_with_removal_by_symbol (SymbolCollection.__init__ alphabet)) x y = true
  ↔ ∃ k o, k ∈ alphabet ∧ o ∈ alphabet ∧ Symbol.__eq__ k x = true
           ∧ Symbol.__eq__ o y = true ∧ Symbol.is_reachable_from k o = true.
Proof.
  unfold in_map. destruct (init_spec alphabet) as (_ & _ & -> & _).
  destruct (build_spec Symbol.__eq__ Symbol_eq_refl Symbol_eq_sym Symbol_eq_trans
              (removal_outs alphabet) alphabet [] x y) as [_ ->].
  simpl. rewrite existsb_exists. split.
  - intros (k & Hk & (Hkx & (o & Ho & Hoy)%existsb_exists)%andb_true_iff).
    apply filter_In in Ho as [Ho Hr].
    exists k, o. rewrite <- !list_elem_of_In in *. done.
  - intros (k & o & Hk & Ho & Hkx & Hoy & Hr). exists k.
    rewrite <- list_elem_of_In. split; [done|]. apply andb_true_iff. split; [done|].
    apply existsb_exists. exists o. split; [|done].
    apply filter_In. by rewrite <- list_elem_of_In.
Qed.

Lemma in_move_map x y :
  in_map (SymbolCollection.reachable_with_move_by_symbol (SymbolCollection.__init__ alphabet)) x y = true
  ↔ ∃ k o i, k ∈ alphabet ∧ o ∈ alphabet ∧ Symbol.__eq__ k x = true
             ∧ Symbol.__eq__ o y = true ∧ i ∈ Symbol.removal_set k
             ∧ Symbol.is_reachable_from o i = true.
Proof.
  unfold in_map. destruct (init_spec alphabet) as (_ & _ & _ & ->).
  destruct (build_spec Symbol.__eq__ Symbol_eq_refl Symbol_eq_sym Symbol_eq_trans
              (move_outs alphabet) alphabet [] x y) as [_ ->].
  simpl. rewrite existsb_exists. unfold move_outs. split.
  - intros (k & Hk & (Hkx & (o & Ho & Hoy)%existsb_exists)%andb_true_iff).
    apply list_elem_of_In, list_elem_of_bind in Ho as (i & Ho & Hi).
    apply list_elem_of_In, filter_In in Ho as [Ho Hr].
    exists k, o, i. rewrite <- !list_elem_of_In in *. done.
  - intros (k & o & i & Hk & Ho & Hkx & Hoy & Hi & Hr). exists k.
    rewrite <- list_elem_of_In. split; [done|]. apply andb_true_iff. split; [done|].
    apply existsb_exists. exists o. split; [|done].
    apply list_elem_of_In, list_elem_of_bind. exists i. split; [|done].
    apply list_elem_of_In, filter_In. by rewrite <- list_elem_of_In.
Qed.

Lemma catalog_keys x :
  x ∈ alphabet →
  is_key (SymbolCollection.reachable_with_addition_by_symbol (SymbolCollection.__init__ alphabet)) x = true
  ∧ is_key (SymbolCollection.reachable_with_removal_by_symbol (SymbolCollection.__init__ alphabet)) x = true
  ∧ is_key (SymbolCollection.reachable_with_move_by_symbol (SymbolCollection.__init__ alphabet)) x = true.
Proof.
  intros Hx. unfold is_key.
  destruct (init_spec alphabet) as (_ & -> & -> & ->).
  assert (existsb (λ k, Symbol.__eq__ k x) alphabet = true) as He.
  { apply existsb_exists. exists x. split; [by apply list_elem_of_In|].
    apply Symbol_eq_refl. }
  repeat split.
  - destruct (build_spec Symbol.__eq__ Symbol_eq_refl Symbol_eq_sym Symbol_eq_trans
                (addition_outs alphabet) alphabet [] x x) as [-> _]. by rewrite He.
  - destruct (build_spec Symbol.__eq__ Symbol_eq_refl Symbol_eq_sym Symbol_eq_trans
                (removal_outs alphabet) alphabet [] x x) as [-> _]. by rewrite He.
  - destruct (build_spec Symbol.__eq__ Symbol_eq_refl Symbol_eq_sym Symbol_eq_trans
                (move_outs alphabet) alphabet [] x x) as [-> _]. by rewrite He.
Qed.
End CatalogLaws.

(** C5: in a constructed catalog, for symbols [x] and [y] of the alphabet,
    [y] is in the addition map of [x] exactly when [x] is in the removal
    map of [y]; and every symbol of the alphabet is a key of the three
    maps. *)
Theorem catalog_inverse_law (alphabet : list Symbol.t) (x y : Symbol.t) :
  x ∈ alphabet → y ∈ alphabet →
  let catalog := SymbolCollection.__init__ alphabet in
  (in_map (SymbolCollection.reachable_with_addition_by_symbol catalog) x y = true
   ↔ in_map (SymbolCollection.reachable_with_removal_by_symbol catalog) y x = true)
  ∧ is_key (SymbolCollection.reachable_with_addition_by_symbol catalog) x = true
  ∧ is_key (SymbolCollection.reachable_with_removal_by_symbol catalog) x = true
  ∧ is_key (SymbolCollection.reachable_with_move_by_symbol catalog) x = true.
Proof.
  intros Hx Hy catalog. split; [|by apply catalog_keys].
  unfold catalog. rewrite in_addition_map, in_removal_map. split.
  - intros (k & o & Hk & Ho & Hkx & Hoy & Hr). exists o, k. done.
  - intros (k & o & Hk & Ho & Hkx & Hoy & Hr). exists o, k. done.
Qed.

Lemma catalog_inverse_law_witness :
  let catalog := SymbolCollection.__init__ (DIGITS ++ OPERATORS) in
  (in_map (SymbolCollection.reachable_with_addition_by_symbol catalog) minus plus_b = true
   ↔ in_map (SymbolCollection.reachable_with_removal_by_symbol catalog) plus_b minus = true)
  ∧ is_key (SymbolCollection.reachable_with_addition_by_symbol catalog) minus = true
  ∧ is_key (SymbolCollection.reachable_with_removal_by_symbol catalog) minus = true
  ∧ is_key (SymbolCollection.reachable_with_move_by_symbol catalog) minus = true.
Proof.
  apply (catalog_inverse_law (DIGITS ++ OPERATORS) minus plus_b);
    unfold DIGITS, OPERATORS; simpl; repeat constructor.
Defined.

Section RemovalSet.
Implicit Types (k i : Symbol.t) (t : Stick.t).

Lemma pyset_contains_elem {A : Type} (eqb : A → A → bool) (s : list A) (y : A) :
  pyset_contains eqb s y = true ↔ ∃ z, z ∈ s ∧ eqb z y = true.
Proof.
  unfold pyset_contains. rewrite existsb_exists.
  split; intros (z & Hz & He); exists z; by rewrite ?list_elem_of_In in *.
Qed.

Lemma StickCollection_removal_set_elem (c c' : StickCollection.t) :
  c' ∈ StickCollection.removal_set c →
  ∃ t, t ∈ StickCollection.sticks c
       ∧ StickCollection.sticks c' = StickCollection.sticks c ∖ {[ t ]}.
Proof.
  intros H%elem_of_pyset_of_list.
  apply list_elem_of_fmap in H as (t & -> & Ht%elem_of_elements).
  exists t. by rewrite sub_sticks.
Qed.

Lemma StickCollection_removal_set_complete (c : StickCollection.t) t :
  t ∈ StickCollection.sticks c →
  ∃ c', c' ∈ StickCollection.removal_set c
        ∧ StickCollection.__eq__ c' (StickCollection.__sub__ c t) = true.
Proof.
  intros Ht. apply pyset_contains_elem. unfold StickCollection.removal_set.
  rewrite (pyset_contains_of_list _ StickCollection_eq_sym StickCollection_eq_trans).
  apply existsb_exists. exists (StickCollection.__sub__ c t). split.
  - apply list_elem_of_In, list_elem_of_fmap. exists t. by rewrite elem_of_elements.
  - apply StickCollection_eq_refl.
Qed.

Lemma Symbol_removal_set_elem k i :
  i ∈ Symbol.removal_set k →
  ∃ t, t ∈ StickCollection.sticks (Symbol.sticks k)
       ∧ StickCollection.sticks (Symbol.sticks i)
         = StickCollection.sticks (Symbol.sticks k) ∖ {[ t ]}.
Proof.
  intros H%elem_of_pyset_of_list.
  apply list_elem_of_fmap in H as (c' & -> & Hc). simpl.
  by apply StickCollection_removal_set_elem.
Qed.

Lemma Symbol_removal_set_complete k t :
  t ∈ StickCollection.sticks (Symbol.sticks k) →
  ∃ i, i ∈ Symbol.removal_set k
       ∧ ∃ dr dc, StickCollection.sticks (Symbol.sticks i)
             = translate dr dc (StickCollection.sticks (Symbol.sticks k) ∖ {[ t ]}).
Proof.
  intros Ht.
  destruct (StickCollection_removal_set_complete _ t Ht) as (c' & Hc' & Heq).
  assert (pyset_contains Symbol.__eq__ (Symbol.removal_set k)
            (Symbol.__init__ Symbol.Symbol c' None None None) = true) as Hin.
  { unfold Symbol.removal_set.
    rewrite (pyset_contains_of_list _ Symbol_eq_sym Symbol_eq_trans).
    apply existsb_exists. eexists. split.
    - apply list_elem_of_In, list_elem_of_fmap. eauto.
    - apply Symbol_eq_refl. }
  apply pyset_contains_elem in Hin as (i & Hi & Hic).
  exists i. split; [done|].
  assert (StickCollection.__eq__ (StickCollection.__sub__ (Symbol.sticks k) t)
            (Symbol.sticks i) = true) as H.
  { rewrite StickCollection_eq_sym.
    eapply StickCollection_eq_trans; [exact Hic|exact Heq]. }
  destruct (StickCollection.__sub__ (Symbol.sticks k) t) as [D] eqn:HD.
  apply (f_equal StickCollection.sticks) in HD. rewrite sub_sticks in HD. simpl in HD.
  destruct (Symbol.sticks i) as [I]. simpl.
  apply StickCollection_eq_translate in H. by subst D.
Qed.
End RemovalSet.

(** For symbols [s] and [y] of the alphabet, [y] is in the move map of
    [s] exactly when the shape of [y] is, up to translation, the shape of
    [s] with one stick taken away and one stick put at a cell that the
    remaining sticks leave free; the cell the stick was taken from is such a
    cell, so a symbol with at least one stick is in its own move map. *)
Lemma move_map_shape (alphabet : list Symbol.t) (s y : Symbol.t) :
  s ∈ alphabet → y ∈ alphabet →
  let catalog := SymbolCollection.__init__ alphabet in
  let X := StickCollection.sticks (Symbol.sticks s) in
  let Y := StickCollection.sticks (Symbol.sticks y) in
  (in_map (SymbolCollection.reachable_with_move_by_symbol catalog) s y = true
   ↔ ∃ t t', t ∈ X ∧ (t' ∉ X ∖ {[ t ]})
             ∧ ∃ dr dc, Y = translate dr dc (X ∖ {[ t ]} ∪ {[ t' ]}))
  ∧ (X ≠ ∅ → in_map (SymbolCollection.reachable_with_move_by_symbol catalog) s s = true).
Proof.
  intros Hs Hy catalog X Y. unfold catalog. rewrite !in_move_map. split; [split|].
  - intros (k & o & i & Hk & Ho & Hks & Hoy & Hi & Hr).
    apply Symbol_removal_set_elem in Hi as (t & Ht & Hi).
    apply is_reachable_from_spec in Hr. rewrite Hi in Hr.
    apply Symbol_eq_translate in Hks as (dr & dc & Hks).
    apply Symbol_eq_translate in Hoy as (dr' & dc' & Hoy).
    apply (one_stick_more_translate _ _ dr' dc' dr dc) in Hr.
    rewrite <- Hoy, translate_difference, <- Hks in Hr. fold X Y in Hr.
    apply one_stick_more_add in Hr as (t' & Ht' & Hr).
    exists (Stick.shift dr dc t), t'. split; [|done].
    unfold X. rewrite Hks. apply elem_of_translate. eauto.
  - intros (t & t' & Ht & Ht' & Hr).
    destruct (Symbol_removal_set_complete s t Ht) as (i & Hi & dr & dc & Hieq).
    exists s, y, i. repeat split; try done; try apply Symbol_eq_refl.
    apply is_reachable_from_spec. rewrite Hieq. fold X Y.
    rewrite <- (translate_0 Y). apply one_stick_more_translate.
    apply one_stick_more_add. eauto.
  - intros [t Ht]%set_choose_L.
    destruct (Symbol_removal_set_complete s t Ht) as (i & Hi & dr & dc & Hieq).
    exists s, s, i. repeat split; try done; try apply Symbol_eq_refl.
    apply is_reachable_from_spec. rewrite Hieq. fold X.
    rewrite <- (translate_0 X) at 1. apply one_stick_more_translate.
    apply one_stick_more_add. exists t. split.
    + intros [_ H]%elem_of_difference. apply H. by apply elem_of_singleton.
    + exists 0, 0. rewrite translate_0. apply set_eq. intros x.
      rewrite elem_of_union, elem_of_difference, elem_of_singleton.
      destruct (decide (x = t)) as [->|Hne]; [by split; auto|].
      split; [by left|]. by intros [[? _]|?].
Qed.

(** The shape of [plus_b]. *)
Lemma plus_b_sticks :
  StickCollection.sticks (Symbol.sticks plus_b)
  = {[ Stick.mk 2 1 Stick.HORIZONTAL; Stick.mk 4 1 Stick.VERTICAL ]}.
Proof. vm_compute. reflexivity. Qed.

(** C8 as stated fails: [plus_b] is in its own move map in the catalog of
    the program, though no stick of it can be put at another cell with the
    same shape as result; and the search, at the position of [plus_b] in the
    puzzle, builds the candidate that is the puzzle itself. *)
Lemma move_map_keeps_same_cell :
  in_map (SymbolCollection.reachable_with_move_by_symbol symbols) plus_b plus_b = true
  ∧ (¬ ∃ t t', t ∈ StickCollection.sticks (Symbol.sticks plus_b)
              ∧ t' ≠ t
              ∧ ∃ dr dc, StickCollection.sticks (Symbol.sticks plus_b)
                   = translate dr dc
                       (StickCollection.sticks (Symbol.sticks plus_b) ∖ {[ t ]} ∪ {[ t' ]}))
  ∧ Expression.__getitem__ expression 3 = Ok plus_b
  ∧ (e1 ← Expression.substitute_symbol expression plus_b 3;
     Expression.substitute_symbol e1 plus_b 3) = Ok expression.
Proof.
  split; [vm_compute; reflexivity|].
  split; [|split; vm_compute; reflexivity].
  rewrite plus_b_sticks.
  set (h := Stick.mk 2 1 Stick.HORIZONTAL). set (v := Stick.mk 4 1 Stick.VERTICAL).
  intros (t & t' & Ht & Hne & dr & dc & Heq).
  assert (h ∈ ({[h; v]} : gset Stick.t)) as Hh by set_solver.
  assert (v ∈ ({[h; v]} : gset Stick.t)) as Hv by set_solver.
  rewrite Heq in Hh, Hv.
  apply elem_of_translate in Hh as (a & Ha & Hha).
  apply elem_of_translate in Hv as (b & Hb & Hvb).
  assert (∀ u : Stick.t, u ∈ ({[h; v]} : gset Stick.t) ∖ {[t]} ∪ {[t']} →
            u = t' ∨ (u ≠ t ∧ (u = h ∨ u = v))) as Hcases by set_solver.
  apply Hcases in Ha, Hb.
  assert (t = h ∨ t = v) as Htc by set_solver.
  destruct a as [ar ac ao], b as [br bc bo], t' as [r' c' o'].
  unfold Stick.shift, h, v in *; simpl in *.
  destruct Htc as [->| ->];
    destruct Ha as [Ha|[Ha1 [Ha|Ha]]]; destruct Hb as [Hb|[Hb1 [Hb|Hb]]];
    simplify_eq; try done;
    match goal with
    | H : context [_ ≠ _] |- _ => apply H; f_equal; lia
    end.
Qed.

(** ** The parser and the grammar *)

Section GrammarTheory.
Import Python2 Grammar.

Create HintDb grammar.
#[local] Hint Constructors is_factor is_arith is_comparison : grammar.

(** Growing a phrase at its left end. *)
Lemma is_arith_sign t a :
  t = PLUS ∨ t = MINUS → is_arith a → is_arith (t :: a).
Proof.
  intros Ht Ha. induction Ha as [f Hf|a f Ha IH Hf|a f Ha IH Hf].
  - destruct Ht as [->| ->]; auto with grammar.
  - rewrite app_comm_cons. auto with grammar.
  - rewrite app_comm_cons. auto with grammar.
Qed.

Lemma is_comparison_sign t c :
  t = PLUS ∨ t = MINUS → is_comparison c → is_comparison (t :: c).
Proof.
  intros Ht Hc. induction Hc as [a Ha|c a Hc IH Ha|c a Hc IH Ha].
  - auto using is_arith_sign with grammar.
  - rewrite app_comm_cons. auto with grammar.
  - rewrite app_comm_cons. auto with grammar.
Qed.

Lemma is_arith_number_binop n t a :
  t = PLUS ∨ t = MINUS → is_arith a → is_arith (NUMBER n :: t :: a).
Proof.
  intros Ht Ha. induction Ha as [f Hf|a f Ha IH Hf|a f Ha IH Hf].
  - change (is_arith ([NUMBER n] ++ t :: f)).
    destruct Ht as [->| ->]; auto with grammar.
  - rewrite 2 app_comm_cons. auto with grammar.
  - rewrite 2 app_comm_cons. auto with grammar.
Qed.

Lemma is_comparison_number_operator n t c :
  is_Some (operator t) → is_comparison c → is_comparison (NUMBER n :: t :: c).
Proof.
  intros Ht Hc. induction Hc as [a Ha|c a Hc IH Ha|c a Hc IH Ha].
  - destruct t; try (by destruct Ht as [? [=]]).
    + auto using is_arith_number_binop with grammar.
    + auto using is_arith_number_binop with grammar.
    + change (is_comparison ([NUMBER n] ++ EQEQUAL :: a)). auto with grammar.
    + change (is_comparison ([NUMBER n] ++ NOTEQUAL :: a)). auto with grammar.
  - rewrite 2 app_comm_cons. auto with grammar.
  - rewrite 2 app_comm_cons. auto with grammar.
Qed.

(** Induction on the length of a token list. *)
Lemma token_list_ind (P : list token → Prop) :
  (∀ toks, (∀ toks', (length toks' < length toks)%nat → P toks') → P toks) →
  ∀ toks, P toks.
Proof.
  intros Hstep toks. remember (length toks) as n eqn:Hn.
  revert toks Hn. induction n as [n IH] using lt_wf_ind.
  intros toks ->. apply Hstep. intros toks' Hlt. by eapply IH.
Qed.

Lemma parse_sound toks :
  ∀ pending c, parse pending toks = Some c → is_comparison toks.
Proof.
  induction toks as [toks IH] using token_list_ind.
  intros pending c Hp. destruct toks as [|t toks']; [done|].
  destruct t; simpl in Hp; try done.
  - destruct toks' as [|t toks'']; [auto with grammar|].
    destruct (operator t) as [op|] eqn:Hop; [|done]. simpl in Hp.
    destruct (parse [] toks'') as [c'|] eqn:Hc'; [|done].
    apply is_comparison_number_operator; [by rewrite Hop|].
    eapply IH; [|exact Hc']. simpl; lia.
  - apply is_comparison_sign; [by left|]. eapply IH; [|exact Hp]. simpl; lia.
  - apply is_comparison_sign; [by right|]. eapply IH; [|exact Hp]. simpl; lia.
Qed.

(** Whether the parser accepts does not depend on the pending signs. *)
Lemma parse_pending toks :
  ∀ pending pending', is_Some (parse pending toks) → is_Some (parse pending' toks).
Proof.
  induction toks as [|t toks IH]; intros pending pending' H; [done|].
  destruct t; simpl in *; try done; try by eapply IH.
  destruct toks as [|t toks'']; [done|].
  destruct (operator t); [|done]. simpl in *.
  destruct (parse [] toks''); [|done]. done.
Qed.

(** Growing an accepted phrase at its right end. *)
Lemma parse_append a :
  ∀ pending t b,
    is_Some (parse pending a) → is_Some (operator t) → is_Some (parse [] b) →
    is_Some (parse pending (a ++ t :: b)).
Proof.
  induction a as [a IH] using token_list_ind.
  intros pending t b Ha Ht Hb.
  destruct a as [|t0 a']; [by destruct Ha as [? [=]]|].
  destruct t0; simpl in Ha; try (by destruct Ha as [? [=]]); simpl.
  - destruct a' as [|t1 a'']; simpl.
    + destruct Ht as [op ->]. simpl. destruct Hb as [c ->]. simpl. eauto.
    + destruct (operator t1) as [op|]; [|by destruct Ha as [? [=]]]. simpl in *.
      destruct (parse [] a'') as [c|] eqn:Hc; [|by destruct Ha as [? [=]]].
      destruct (IH a'' ltac:(simpl; lia) [] t b) as [c' ->]; rewrite ?Hc; simpl; eauto.
  - apply IH; [simpl; lia|done..].
  - apply IH; [simpl; lia|done..].
Qed.

Lemma parse_complete_factor f pending : is_factor f → is_Some (parse pending f).
Proof.
  intros Hf. revert pending. induction Hf; intros pending; simpl; eauto.
Qed.

Lemma parse_complete_arith a pending : is_arith a → is_Some (parse pending a).
Proof.
  intros Ha. revert pending.
  induction Ha as [f Hf|a f Ha IH Hf|a f Ha IH Hf]; intros pending.
  - by apply parse_complete_factor.
  - apply parse_append; [apply IH|by eexists|by apply parse_complete_factor].
  - apply parse_append; [apply IH|by eexists|by apply parse_complete_factor].
Qed.

Lemma parse_complete c pending : is_comparison c → is_Some (parse pending c).
Proof.
  intros Hc. revert pending.
  induction Hc as [a Ha|c a Hc IH Ha|c a Hc IH Ha]; intros pending.
  - by apply parse_complete_arith.
  - apply parse_append; [apply IH|by eexists|by apply parse_complete_arith].
  - apply parse_append; [apply IH|by eexists|by apply parse_complete_arith].
Qed.

(** The parser accepts exactly the comparisons of the grammar. *)
Lemma parse_accepts toks : is_Some (parse [] toks) ↔ is_comparison toks.
Proof.
  split.
  - intros [c Hc]. by eapply parse_sound.
  - by apply parse_complete.
Qed.
End GrammarTheory.

(** ** Chains of equalities *)

Section Positions.
Implicit Types (l g pre : list Symbol.t) (rest : list (Symbol.t * list Symbol.t)).

Lemma positions_enumerate off l :
  (filter (λ p, Symbol.is_EqualityOperator p.2 = true)
          (imap (λ i x, (off + Z.of_nat i, x)) l)).*1
  = positions off l.
Proof.
  revert off. induction l as [|s l IH]; intros off; [done|].
  rewrite imap_cons, filter_cons. simpl.
  rewrite <- (IH (off + 1)).
  rewrite (imap_ext _ (λ i x, (off + 1 + Z.of_nat i, x)) l)
    by (intros; simpl; f_equal; lia).
  rewrite Z.add_0_r. by destruct (decide _) as [->|H%not_true_is_false]; [|rewrite H].
Qed.

Lemma equality_operators_positions (self : Expression.t) :
  Expression.equality_operators self = positions 0 (Expression.symbols self).
Proof.
  unfold Expression.equality_operators, enumerate.
  rewrite <- positions_enumerate. done.
Qed.

Lemma positions_app off l1 l2 :
  positions off (l1 ++ l2)
  = positions off l1 ++ positions (off + Z.of_nat (length l1)) l2.
Proof.
  revert off. induction l1 as [|s l1 IH]; intros off; simpl.
  - by rewrite Z.add_0_r.
  - rewrite IH, <- app_assoc. do 3 f_equal. lia.
Qed.

Lemma positions_eq_free off g : eq_free g → positions off g = [].
Proof.
  intros H. revert off. induction H as [|s g Hs _ IH]; intros off; simpl; [done|].
  by rewrite Hs, IH.
Qed.

Lemma operand_groups_spec l g rest :
  operand_groups l = (g, rest) →
  l = flatten g rest ∧ eq_free g ∧ well_grouped rest.
Proof.
  revert g rest. induction l as [|s l IH]; intros g rest; simpl.
  - intros [= <- <-]. repeat split; constructor.
  - destruct (operand_groups l) as [g' rest'].
    destruct (IH g' rest' eq_refl) as (-> & Hg & Hr).
    destruct (Symbol.is_EqualityOperator s) eqn:Hs; intros [= <- <-].
    + repeat split; [constructor|]. constructor; [done|exact Hr].
    + repeat split; [|done]. by constructor.
Qed.

Lemma positions_flatten off g e g' rest :
  eq_free g → Symbol.is_EqualityOperator e = true →
  positions off (flatten g ((e, g') :: rest))
  = (off + Z.of_nat (length g))
      :: positions (off + Z.of_nat (length g) + 1) (flatten g' rest).
Proof.
  intros Hg He. unfold flatten. simpl.
  rewrite positions_app, (positions_eq_free _ g Hg). simpl. by rewrite He.
Qed.

Lemma length_positions off l :
  length (positions off l)
  = length (List.filter Symbol.is_EqualityOperator l).
Proof.
  revert off. induction l as [|s l IH]; intros off; simpl; [done|].
  rewrite length_app, IH. by destruct (Symbol.is_EqualityOperator s).
Qed.
End Positions.

Section Slices.
Implicit Types (l g pre : list Symbol.t) (rest : list (Symbol.t * list Symbol.t)).

Lemma slice_middle {A : Type} (l pre mid post : list A) (a b : Z) :
  l = pre ++ mid ++ post →
  a = Z.of_nat (length pre) → b = Z.of_nat (length pre + length mid) →
  slice a b l = mid.
Proof.
  intros -> -> ->. unfold slice.
  rewrite Nat2Z.id, drop_app_length.
  replace (Z.to_nat _) with (length mid) by lia.
  by rewrite take_app_length.
Qed.

Lemma bounds_nil low p len : bounds low p [] len = [(low, len)].
Proof. reflexivity. Qed.

Lemma bounds_cons low p p' ps len :
  bounds low p (p' :: ps) len = (low, p') :: bounds p p' ps len.
Proof. reflexivity. Qed.

Lemma slices_adjacent_pairs rest :
  ∀ pre g e g',
    eq_free g → Symbol.is_EqualityOperator e = true → eq_free g' →
    well_grouped rest →
    let all := pre ++ flatten g ((e, g') :: rest) in
    let p := Z.of_nat (length pre + length g) in
    (λ '(low, high), Expression.mk (slice (low + 1) high all))
      <$> bounds (Z.of_nat (length pre) - 1) p
            (positions (p + 1) (flatten g' rest)) (Z.of_nat (length all))
    = adjacent_pairs g ((e, g') :: rest).
Proof.
  induction rest as [|[e1 g1] rest IH]; intros pre g e g' Hg He Hg' Hrest all p.
  - unfold flatten in *. simpl in *. rewrite app_nil_r in *.
    rewrite (positions_eq_free _ g' Hg'), bounds_nil. simpl. do 2 f_equal.
    apply (slice_middle _ pre (g ++ e :: g') []).
    + subst all. by rewrite <- app_assoc.
    + lia.
    + subst all. rewrite !length_app. simpl. rewrite length_app. simpl. lia.
  - apply Forall_cons in Hrest as [[He1 Hg1] Hrest]. simpl in He1, Hg1.
    rewrite positions_flatten by done. rewrite bounds_cons. simpl.
    f_equal.
    + f_equal.
      apply (slice_middle _ pre (g ++ e :: g')
               (e1 :: g1 ++ concat ((λ p, p.1 :: p.2) <$> rest))).
      * subst all. unfold flatten. simpl. by rewrite <- !app_assoc.
      * lia.
      * subst p. rewrite !length_app. simpl. lia.
    + specialize (IH (pre ++ g ++ [e]) g' e1 g1 Hg' He1 Hg1 Hrest). simpl in IH.
      replace ((pre ++ g ++ [e]) ++ flatten g' ((e1, g1) :: rest)) with all in IH.
      2:{ subst all. unfold flatten. simpl. by rewrite <- !app_assoc. }
      rewrite <- IH. f_equal. rewrite !length_app. simpl. subst p.
      f_equal; [lia|lia|f_equal; lia].
Qed.

(** The slices of the code are the sub-expressions of the specification. *)
Lemma equality_subexpressions_pairwise (self : Expression.t) :
  (0 < length (Expression.equality_operators self))%nat →
  Expression.equality_subexpressions self = pairwise_subexpressions self.
Proof.
  intros Hn. unfold Expression.equality_subexpressions, Expression.boundaries,
    pairwise_subexpressions.
  rewrite equality_operators_positions in *.
  destruct (operand_groups (Expression.symbols self)) as [g rest] eqn:Hgr.
  apply operand_groups_spec in Hgr as (Hl & Hg & Hrest).
  rewrite Hl in *. clear Hl.
  destruct rest as [|[e g'] rest].
  { unfold flatten in Hn. simpl in Hn. rewrite app_nil_r in Hn.
    rewrite (positions_eq_free _ g Hg) in Hn. simpl in Hn. lia. }
  apply Forall_cons in Hrest as [[He Hg'] Hrest]. simpl in He, Hg'.
  rewrite positions_flatten by done.
  exact (slices_adjacent_pairs rest [] g e g' Hg He Hg' Hrest).
Qed.

Lemma adjacent_pairs_one_sign g rest :
  eq_free g → well_grouped rest →
  Forall (λ exp, length (Expression.equality_operators exp) = 1%nat)
         (adjacent_pairs g rest).
Proof.
  revert g. induction rest as [|[e g'] rest IH]; intros g Hg Hrest; simpl.
  - constructor.
  - apply Forall_cons in Hrest as [[He Hg'] Hrest]. simpl in He, Hg'.
    constructor; [|by apply IH].
    rewrite equality_operators_positions. simpl.
    rewrite positions_app, (positions_eq_free _ g Hg). simpl.
    by rewrite He, (positions_eq_free _ g' Hg').
Qed.

Lemma length_adjacent_pairs g rest : length (adjacent_pairs g rest) = length rest.
Proof.
  revert g. induction rest as [|[e g'] rest IH]; intros g; simpl; [done|].
  by rewrite IH.
Qed.

Lemma length_positions_flatten off g rest :
  eq_free g → well_grouped rest →
  length (positions off (flatten g rest)) = length rest.
Proof.
  revert off g. induction rest as [|[e g'] rest IH]; intros off g Hg Hrest.
  - unfold flatten. simpl. by rewrite app_nil_r, (positions_eq_free _ g Hg).
  - apply Forall_cons in Hrest as [[He Hg'] Hrest]. simpl in He, Hg'.
    rewrite positions_flatten by done. simpl. by rewrite IH.
Qed.

Lemma length_pairwise_subexpressions (self : Expression.t) :
  length (pairwise_subexpressions self) = length (Expression.equality_operators self).
Proof.
  unfold pairwise_subexpressions. rewrite equality_operators_positions.
  destruct (operand_groups (Expression.symbols self)) as [g rest] eqn:Hgr.
  apply operand_groups_spec in Hgr as (-> & Hg & Hrest).
  by rewrite length_adjacent_pairs, length_positions_flatten.
Qed.

Lemma pairwise_subexpressions_one_sign (self : Expression.t) :
  Forall (λ exp, length (Expression.equality_operators exp) = 1%nat)
         (pairwise_subexpressions self).
Proof.
  unfold pairwise_subexpressions.
  destruct (operand_groups (Expression.symbols self)) as [g rest] eqn:Hgr.
  apply operand_groups_spec in Hgr as (_ & Hg & Hrest).
  by apply adjacent_pairs_one_sign.
Qed.

Lemma length_equality_operators_le (self : Expression.t) :
  (length (Expression.equality_operators self) ≤ length (Expression.symbols self))%nat.
Proof.
  rewrite equality_operators_positions, length_positions. apply List.filter_length_le.
Qed.
End Slices.

Section Evaluate.
Implicit Types (self exp : Expression.t).

Lemma evaluate_fuel_leaf fuel self :
  (length (Expression.equality_operators self) ≤ 1)%nat →
  Expression.evaluate_fuel (S fuel) self = Expression.evaluate_code self.
Proof. intros H. simpl. destruct (decide _); [lia|done]. Qed.

Lemma evaluate_leaf self :
  (length (Expression.equality_operators self) ≤ 1)%nat →
  Expression.evaluate self = Expression.evaluate_code self.
Proof. apply evaluate_fuel_leaf. Qed.

Lemma and_all_ext (ev ev' : Expression.t → result PyVal) v exps :
  Forall (λ exp, ev exp = ev' exp) exps →
  Expression.and_all ev v exps = Expression.and_all ev' v exps.
Proof.
  intros H. revert v. induction H as [|exp exps He _ IH]; intros v; simpl; [done|].
  rewrite He. destruct (if truthy v then ev' exp else Ok v); simpl; auto.
Qed.

(** The recursion never runs out of fuel: a chain is the loop over its
    sub-expressions, each evaluated as the [else] branch does. *)
Lemma evaluate_chain self :
  (1 < length (Expression.equality_operators self))%nat →
  Expression.evaluate self
  = Expression.and_all Expression.evaluate (VBool true) (pairwise_subexpressions self).
Proof.
  intros Hn. unfold Expression.evaluate.
  pose proof (length_equality_operators_le self) as Hle.
  destruct (length (Expression.symbols self)) as [|k] eqn:Hk; [lia|].
  change (Expression.evaluate_fuel (S (S k)) self)
    with (if decide (1 < length (Expression.equality_operators self))%nat
          then Expression.and_all (Expression.evaluate_fuel (S k)) (VBool true)
                 (Expression.equality_subexpressions self)
          else Expression.evaluate_code self).
  destruct (decide _); [|lia].
  rewrite equality_subexpressions_pairwise by lia.
  apply and_all_ext.
  eapply Forall_impl; [apply pairwise_subexpressions_one_sign|].
  intros exp Hexp. simpl in Hexp.
  rewrite evaluate_fuel_leaf by lia.
  fold (Expression.evaluate exp). by rewrite evaluate_leaf by lia.
Qed.

(** The equation of the source: the fuel given by [evaluate] is enough. *)
Lemma evaluate_unfold self :
  Expression.evaluate self
  = if decide (1 < length (Expression.equality_operators self))%nat
    then Expression.and_all Expression.evaluate (VBool true)
           (Expression.equality_subexpressions self)
    else Expression.evaluate_code self.
Proof.
  destruct (decide _) as [Hn|Hn].
  - rewrite evaluate_chain by done.
    by rewrite equality_subexpressions_pairwise by lia.
  - apply evaluate_leaf. lia.
Qed.

Lemma and_all_falsy ev v exps :
  truthy v = false → Expression.and_all ev v exps = Ok v.
Proof.
  intros Hv. induction exps as [|exp exps IH]; simpl; [done|].
  rewrite Hv. simpl. exact IH.
Qed.

Lemma and_all_bools ev exps bs b0 :
  Forall2 (λ exp b, ev exp = Ok (VBool b)) exps bs →
  Expression.and_all ev (VBool b0) exps = Ok (VBool (b0 && forallb id bs)).
Proof.
  intros H. revert b0. induction H as [|exp b exps bs He _ IH]; intros b0; simpl.
  - by rewrite andb_true_r.
  - destruct b0; simpl.
    + rewrite He. simpl. rewrite IH. done.
    + rewrite IH. done.
Qed.

Lemma evaluate_each_bools exps bs :
  Forall2 (λ exp b, Expression.evaluate exp = Ok (VBool b)) exps bs →
  evaluate_each exps = Ok (VBool <$> bs).
Proof.
  induction 1 as [|exp b exps bs He _ IH]; simpl; [done|].
  rewrite He, IH. done.
Qed.

Lemma forallb_truthy_bools bs : forallb truthy (VBool <$> bs) = forallb id bs.
Proof.
  induction bs as [|b bs IH]; [done|].
  change (b && forallb truthy (VBool <$> bs) = b && forallb id bs).
  by rewrite IH.
Qed.
End Evaluate.

Import Python2 Grammar.

Section TokenCounts.

Lemma flush_counts cur rest toks :
  flush cur rest = Some toks →
  ∃ toks', rest = Some toks'
           ∧ count_equals toks = count_equals toks'
           ∧ count_bangs toks = count_bangs toks'.
Proof.
  unfold flush. destruct cur as [|d cur]; [by eauto|].
  destruct (number _); [|done]. simpl. destruct rest as [toks'|]; [|done].
  simpl. intros [= <-]. eauto.
Qed.

Lemma string_list_ind (P : list ascii → Prop) :
  (∀ s, (∀ s', (length s' < length s)%nat → P s') → P s) → ∀ s, P s.
Proof.
  intros Hstep s. remember (length s) as n eqn:Hn.
  revert s Hn. induction n as [n IH] using lt_wf_ind.
  intros s ->. apply Hstep. intros s' Hlt. by eapply IH.
Qed.

Lemma count_char_cons c x s :
  count_char c (x :: s) = ((if bool_decide (x = c) then 1 else 0) + count_char c s)%nat.
Proof. unfold count_char. simpl. by destruct (bool_decide _). Qed.

Lemma digit_not_operator c d :
  digit c = Some d → c ≠ "="%char ∧ c ≠ "!"%char ∧ c ≠ "+"%char ∧ c ≠ "-"%char.
Proof. intros H. repeat split; intros ->; vm_compute in H; done. Qed.

Lemma tokenize_counts s :
  ∀ cur toks, tokenize cur s = Some toks →
    count_equals toks = count_char "=" s
    ∧ count_bangs toks = count_char "!" s.
Proof.
  induction s as [s IH] using string_list_ind.
  intros cur toks H. destruct s as [|c s'].
  { simpl in H. apply flush_counts in H as (toks' & [= <-] & -> & ->). done. }
  simpl in H. destruct (digit c) as [d|] eqn:Hd.
  { apply IH in H as [-> ->]; [|simpl; lia].
    apply digit_not_operator in Hd as (? & ? & _).
    rewrite !count_char_cons, !bool_decide_eq_false_2 by done. done. }
  apply flush_counts in H as (toks' & H & -> & ->).
  rewrite !count_char_cons.
  repeat (case_decide; subst);
    try done;
    destruct s' as [|c' s'']; try done;
    repeat (case_decide; subst); try done;
    rewrite ?count_char_cons;
    match type of H with
    | _ <$> tokenize [] ?r = Some _ =>
        destruct (tokenize [] r) as [toks1|] eqn:Htok; [|done];
        injection H as <-;
        apply IH in Htok as [Hc1 Hc2]; [|simpl; lia];
        rewrite ?count_char_cons in Hc1, Hc2;
        simpl; rewrite ?Hc1, ?Hc2;
        repeat (rewrite ?bool_decide_eq_true_2 by done;
                rewrite ?bool_decide_eq_false_2 by done);
        split; lia
    end.
Qed.
End TokenCounts.

Section GrammarCounts.
Lemma count_equals_app a b : count_equals (a ++ b) = (count_equals a + count_equals b)%nat.
Proof. induction a as [|t a IH]; simpl; [done|]. rewrite IH. lia. Qed.

Lemma count_bangs_app a b : count_bangs (a ++ b) = (count_bangs a + count_bangs b)%nat.
Proof. induction a as [|t a IH]; simpl; [done|]. rewrite IH. lia. Qed.

Lemma count_comparisons_app a b :
  count_comparisons (a ++ b) = (count_comparisons a + count_comparisons b)%nat.
Proof. unfold count_comparisons. by rewrite List.filter_app, length_app. Qed.

Lemma is_factor_counts f :
  is_factor f → count_equals f = 0%nat ∧ count_bangs f = 0%nat ∧ count_comparisons f = 0%nat.
Proof. induction 1 as [n|f _ IH|f _ IH]; simpl; [done|exact IH|exact IH]. Qed.

Lemma is_arith_counts a :
  is_arith a → count_equals a = 0%nat ∧ count_bangs a = 0%nat ∧ count_comparisons a = 0%nat.
Proof.
  induction 1 as [f Hf|a f _ (IH1 & IH2 & IH3) Hf|a f _ (IH1 & IH2 & IH3) Hf].
  - by apply is_factor_counts.
  - apply is_factor_counts in Hf as (H1 & H2 & H3).
    rewrite count_equals_app, count_bangs_app, count_comparisons_app.
    unfold count_comparisons in *. simpl. lia.
  - apply is_factor_counts in Hf as (H1 & H2 & H3).
    rewrite count_equals_app, count_bangs_app, count_comparisons_app.
    unfold count_comparisons in *. simpl. lia.
Qed.

Lemma is_comparison_counts c :
  is_comparison c →
  (count_equals c + count_bangs c = 2 * count_comparisons c)%nat.
Proof.
  induction 1 as [a Ha|c a _ IH Ha|c a _ IH Ha].
  - apply is_arith_counts in Ha as (-> & -> & ->). done.
  - apply is_arith_counts in Ha as (H1 & H2 & H3).
    rewrite count_equals_app, count_bangs_app, count_comparisons_app.
    unfold count_comparisons in *. simpl. lia.
  - apply is_arith_counts in Ha as (H1 & H2 & H3).
    rewrite count_equals_app, count_bangs_app, count_comparisons_app.
    unfold count_comparisons in *. simpl. lia.
Qed.


End GrammarCounts.

Section CodeCounts.
Implicit Types (self : Expression.t).

Lemma list_ascii_of_string_app (s r : string) :
  list_ascii_of_string (s +:+ r) = list_ascii_of_string s ++ list_ascii_of_string r.
Proof. induction s as [|c s IH]; simpl; [done|]. by rewrite IH. Qed.

Lemma count_char_app c s r :
  count_char c (s ++ r) = (count_char c s + count_char c r)%nat.
Proof. unfold count_char. by rewrite List.filter_app, length_app. Qed.

Lemma sign_or_digit_counts s :
  forallb sign_or_digit s = true →
  count_char "=" s = 0%nat ∧ count_char "!" s = 0%nat
  ∧ forallb in_fragment s = true.
Proof.
  induction s as [|c s IH]; [done|]. simpl.
  intros [Hc Hs]%andb_true_iff. destruct (IH Hs) as (IH1 & IH2 & IH3).
  rewrite !count_char_cons, IH1, IH2, IH3.
  unfold sign_or_digit, in_fragment in *. destruct (digit c) as [d|] eqn:Hd.
  - apply digit_not_operator in Hd as (? & ? & _).
    by rewrite !bool_decide_eq_false_2 by done.
  - apply orb_true_iff in Hc as [->%bool_decide_eq_true| ->%bool_decide_eq_true];
      done.
Qed.

Lemma code_counts l c :
  Forall catalog_token l → Expression.join (Symbol.code <$> l) = Ok c →
  (count_char "=" (list_ascii_of_string c) + count_char "!" (list_ascii_of_string c)
   = 2 * length (List.filter Symbol.is_EqualityOperator l))%nat
  ∧ forallb in_fragment (list_ascii_of_string c) = true.
Proof.
  intros Hl. revert c. induction Hl as [|s l Hs _ IH]; intros c.
  - by intros [= <-].
  - rewrite fmap_cons. unfold catalog_token in Hs.
    destruct (Symbol.code s) as [cs|]; [|done]. cbn [Expression.join List.filter].
    destruct (Expression.join (Symbol.code <$> l)) as [r| |]; simpl; try done.
    intros [= <-]. destruct (IH r eq_refl) as [IH1 IH2].
    rewrite list_ascii_of_string_app, !count_char_app, forallb_app, IH2.
    destruct (Symbol.is_EqualityOperator s).
    + destruct Hs as [-> | ->]; simpl in *; split; [lia|done|lia|done].
    + apply sign_or_digit_counts in Hs as (-> & -> & ->). simpl. split; [lia|done].
Qed.

Lemma catalog_tokens_code l :
  Forall catalog_token l → ∃ c, Expression.join (Symbol.code <$> l) = Ok c.
Proof.
  induction 1 as [|s l Hs _ [r IH]]; [by eexists|].
  rewrite fmap_cons. unfold catalog_token in Hs.
  destruct (Symbol.code s) as [cs|]; [|done].
  cbn [Expression.join]. rewrite IH. by eexists.
Qed.
End CodeCounts.

Section Defined.
Implicit Types (self exp : Expression.t).

Lemma evaluate_code_defined self :
  Forall catalog_token (Expression.symbols self) →
  Expression.evaluate_code self ≠ Undefined.
Proof.
  intros Htok. unfold Expression.evaluate_code, Expression.code.
  destruct (catalog_tokens_code _ Htok) as [c Hc]. rewrite Hc. simpl.
  unfold eval. destruct (code_counts _ c Htok Hc) as [_ ->].
  by destruct (tokenize [] (list_ascii_of_string c) ≫= parse []).
Qed.

Lemma and_all_defined (ev : Expression.t → result PyVal) v exps :
  Forall (λ exp, ev exp ≠ Undefined) exps →
  Expression.and_all ev v exps ≠ Undefined.
Proof.
  intros H. revert v. induction H as [|exp exps He _ IH]; intros v; simpl; [done|].
  destruct (truthy v); simpl; [|apply IH].
  destruct (ev exp) as [v'|e|]; simpl; [apply IH|done|done].
Qed.

Lemma adjacent_pairs_Forall (P : Symbol.t → Prop) g rest :
  Forall P (flatten g rest) →
  Forall (λ exp, Forall P (Expression.symbols exp)) (adjacent_pairs g rest).
Proof.
  revert g. induction rest as [|[e g'] rest IH]; intros g H; simpl; [constructor|].
  unfold flatten in H. simpl in H.
  apply Forall_app in H as [Hg H]. apply Forall_cons in H as [He H].
  constructor.
  - simpl. apply Forall_app. split; [done|]. apply Forall_cons. split; [done|].
    by apply Forall_app in H as [H _].
  - apply IH. exact H.
Qed.

(** On catalog tokens the model always has an answer. *)
Lemma evaluate_defined self :
  Forall catalog_token (Expression.symbols self) →
  Expression.evaluate self ≠ Undefined.
Proof.
  intros Htok.
  destruct (decide (1 < length (Expression.equality_operators self))%nat) as [Hn|Hn].
  - rewrite evaluate_chain by done. apply and_all_defined.
    pose proof (pairwise_subexpressions_one_sign self) as H1.
    assert (Forall (λ exp, Forall catalog_token (Expression.symbols exp))
              (pairwise_subexpressions self)) as H2.
    { unfold pairwise_subexpressions.
      destruct (operand_groups (Expression.symbols self)) as [g rest] eqn:Hgr.
      apply operand_groups_spec in Hgr as (Hl & _ & _).
      apply adjacent_pairs_Forall. by rewrite <- Hl. }
    rewrite Forall_forall in *. intros exp Hexp.
    rewrite evaluate_leaf by (specialize (H1 exp Hexp); simpl in H1; lia).
    apply evaluate_code_defined. by apply H2.
  - rewrite evaluate_leaf by lia. by apply evaluate_code_defined.
Qed.
End Defined.




Section Booleans.
Import Python2 Grammar.
Implicit Types (self exp : Expression.t).

Lemma parse_comparators toks :
  ∀ pending c, parse pending toks = Some c →
    length (comparators c) = count_comparisons toks.
Proof.
  induction toks as [toks IH] using token_list_ind.
  intros pending c Hp. destruct toks as [|t toks']; [done|].
  destruct t; simpl in Hp; try done.
  - destruct toks' as [|t toks'']; [by injection Hp as <-|].
    destruct (operator t) as [op|] eqn:Hop; [|done]. simpl in Hp.
    destruct (parse [] toks'') as [c'|] eqn:Hc'; [|done].
    injection Hp as <-. apply IH in Hc'; [|simpl; lia].
    unfold count_comparisons in *.
    destruct t; try done; injection Hop as <-; simpl; by rewrite Hc'.
  - apply IH in Hp; [|simpl; lia]. by rewrite Hp.
  - apply IH in Hp; [|simpl; lia]. by rewrite Hp.
Qed.

(** The value of an expression of catalog tokens has as many comparisons
    as the expression has equality signs. *)
Lemma evaluate_code_comparators self v :
  Forall catalog_token (Expression.symbols self) →
  Expression.evaluate_code self = Ok v →
  ∃ c, v = eval_comparison c
       ∧ length (comparators c) = length (Expression.equality_operators self).
Proof.
  intros Htok. unfold Expression.evaluate_code, Expression.code.
  destruct (catalog_tokens_code _ Htok) as [src Hsrc]. rewrite Hsrc. simpl.
  unfold eval. destruct (code_counts _ src Htok Hsrc) as [Hcount ->].
  destruct (tokenize [] (list_ascii_of_string src)) as [toks|] eqn:Htoks; [|done].
  simpl. destruct (parse [] toks) as [c|] eqn:Hc; [|done].
  intros [= <-]. exists c. split; [done|].
  rewrite (parse_comparators _ _ _ Hc).
  assert (is_comparison toks) as Hcmp by (apply parse_accepts; eauto).
  pose proof (is_comparison_counts toks Hcmp) as H1.
  destruct (tokenize_counts _ _ _ Htoks) as [H2 H3].
  rewrite equality_operators_positions, length_positions. lia.
Qed.

Lemma evaluate_one_sign_bool self v :
  Forall catalog_token (Expression.symbols self) →
  length (Expression.equality_operators self) = 1%nat →
  Expression.evaluate self = Ok v → ∃ b, v = VBool b.
Proof.
  intros Htok Hn. rewrite evaluate_leaf by lia.
  intros (c & -> & Hc)%evaluate_code_comparators; [|done].
  unfold eval_comparison. destruct (comparators c) as [|p l]; [simpl in Hc; lia|].
  by eexists.
Qed.

Lemma evaluate_no_sign_int self v :
  Forall catalog_token (Expression.symbols self) →
  length (Expression.equality_operators self) = 0%nat →
  Expression.evaluate self = Ok v → ∃ z, v = VInt z.
Proof.
  intros Htok Hn. rewrite evaluate_leaf by lia.
  intros (c & -> & Hc)%evaluate_code_comparators; [|done].
  unfold eval_comparison. destruct (comparators c) as [|p l]; [|simpl in Hc; lia].
  by eexists.
Qed.

Lemma evaluate_each_bools_inv exps vs :
  Forall (λ exp, ∀ v, Expression.evaluate exp = Ok v → ∃ b, v = VBool b) exps →
  evaluate_each exps = Ok vs →
  ∃ bs, vs = VBool <$> bs
        ∧ Forall2 (λ exp b, Expression.evaluate exp = Ok (VBool b)) exps bs.
Proof.
  intros H. revert vs. induction H as [|exp exps He _ IH]; intros vs; simpl.
  - intros [= <-]. exists []. split; [done|constructor].
  - destruct (Expression.evaluate exp) as [v| |] eqn:Hv; simpl; try done.
    destruct (evaluate_each exps) as [vs'| |]; simpl; try done.
    intros [= <-]. destruct (He v eq_refl) as [b ->].
    destruct (IH vs' eq_refl) as (bs & -> & Hbs).
    exists (b :: bs). split; [done|]. by constructor.
Qed.
End Booleans.

(** An expression with more than one equality sign is cut by the code
    into the sub-expressions of the specification, one for each sign, each
    with exactly one sign and the operand groups next to it; when each of
    them evaluates to a boolean, [evaluate] returns the conjunction of these
    booleans, as evaluating each on its own does, and on catalog tokens a
    sub-expression that evaluates does evaluate to a boolean; [2==2==2] and
    [2==2==2==2] give [True], [2==2==3] and [2==2==1==2] give [False].  What
    happens when a sub-expression raises is in
    [chain_against_conjunction]. *)
Lemma chain_is_pairwise_conjunction (self : Expression.t) :
  (1 < length (Expression.equality_operators self))%nat →
  Expression.equality_subexpressions self = pairwise_subexpressions self
  ∧ length (pairwise_subexpressions self) = length (Expression.equality_operators self)
  ∧ Forall (λ exp, length (Expression.equality_operators exp) = 1%nat)
           (pairwise_subexpressions self)
  ∧ (∀ bs, Forall2 (λ exp b, Expression.evaluate exp = Ok (VBool b))
                   (pairwise_subexpressions self) bs →
           Expression.evaluate self = pairwise_evaluate self
           ∧ Expression.evaluate self = Ok (VBool (forallb id bs)))
  ∧ (Forall catalog_token (Expression.symbols self) →
     ∀ vs, evaluate_each (pairwise_subexpressions self) = Ok vs →
           Expression.evaluate self = pairwise_evaluate self
           ∧ Expression.evaluate self = Ok (VBool (forallb truthy vs)))
  ∧ Expression.evaluate (Expression.mk [two; eq_a; two; eq_a; two]) = Ok (VBool true)
  ∧ Expression.evaluate (Expression.mk [two; eq_a; two; eq_a; two; eq_a; two])
    = Ok (VBool true)
  ∧ Expression.evaluate (Expression.mk [two; eq_a; two; eq_a; three]) = Ok (VBool false)
  ∧ Expression.evaluate (Expression.mk [two; eq_a; two; eq_a; one_a; eq_a; two])
    = Ok (VBool false).
Proof.
  intros Hn.
  split; [apply equality_subexpressions_pairwise; lia|].
  split; [apply length_pairwise_subexpressions|].
  split; [apply pairwise_subexpressions_one_sign|].
  assert (∀ bs, Forall2 (λ exp b, Expression.evaluate exp = Ok (VBool b))
                        (pairwise_subexpressions self) bs →
                Expression.evaluate self = pairwise_evaluate self
                ∧ Expression.evaluate self = Ok (VBool (forallb id bs))) as Hbools.
  { intros bs Hbs.
    assert (Expression.evaluate self = Ok (VBool (forallb id bs))) as Hev.
    { rewrite evaluate_chain by done. by rewrite (and_all_bools _ _ bs). }
    split; [|done]. rewrite Hev. unfold pairwise_evaluate.
    rewrite (evaluate_each_bools _ bs Hbs).
    change (Ok (VBool (forallb id bs)) = Ok (VBool (forallb truthy (VBool <$> bs)))).
    by rewrite forallb_truthy_bools. }
  split; [exact Hbools|]. split.
  - intros Htok vs Hvs.
    destruct (evaluate_each_bools_inv (pairwise_subexpressions self) vs) as (bs & -> & Hbs);
      [|done|].
    + pose proof (pairwise_subexpressions_one_sign self) as H1.
      assert (Forall (λ exp, Forall catalog_token (Expression.symbols exp))
                (pairwise_subexpressions self)) as H2.
      { unfold pairwise_subexpressions.
        destruct (operand_groups (Expression.symbols self)) as [g rest] eqn:Hgr.
        apply operand_groups_spec in Hgr as (Hl & _ & _).
        apply adjacent_pairs_Forall. by rewrite <- Hl. }
      rewrite Forall_forall in *. intros exp Hexp v.
      apply evaluate_one_sign_bool; [by apply H2|by apply H1].
    + rewrite forallb_truthy_bools. by apply Hbools.
  - repeat split; vm_compute; reflexivity.
Qed.

Section Search.
Implicit Types (d : Substitutions) (e : Expression.t) (a b : option string).

Lemma recorded_empty i j a b : recorded ∅ i j a b = None.
Proof. unfold recorded. by rewrite lookup_empty. Qed.

Lemma recorded_record_eq d i j a b e :
  recorded (record_substitution d i j a b e) i j a b = Some e.
Proof.
  unfold recorded, record_substitution.
  rewrite lookup_insert_eq. simpl. rewrite lookup_insert_eq. simpl.
  rewrite lookup_insert_eq. simpl. by rewrite lookup_insert_eq.
Qed.

Lemma recorded_record_ne d i j a b e i' j' a' b' :
  (i, j, a, b) ≠ (i', j', a', b') →
  recorded (record_substitution d i j a b e) i' j' a' b' = recorded d i' j' a' b'.
Proof.
  intros Hne. unfold recorded, record_substitution.
  destruct (decide (i = i')) as [<-|Hi]; [|by rewrite lookup_insert_ne].
  rewrite lookup_insert_eq. simpl.
  destruct (d !! i) as [d_i|] eqn:Hdi; simpl.
  2:{ rewrite !lookup_empty. simpl.
      destruct (decide (j = j')) as [<-|Hj]; [|by rewrite lookup_insert_ne, lookup_empty].
      rewrite lookup_insert_eq. simpl.
      destruct (decide (a = a')) as [<-|Ha]; [|by rewrite lookup_insert_ne, lookup_empty].
      rewrite lookup_insert_eq. simpl.
      destruct (decide (b = b')) as [<-|Hb]; [done|by rewrite lookup_insert_ne, lookup_empty]. }
  destruct (decide (j = j')) as [<-|Hj]; [|by rewrite lookup_insert_ne].
  rewrite lookup_insert_eq. simpl.
  destruct (d_i !! j) as [d_ij|] eqn:Hdij; simpl.
  2:{ rewrite !lookup_empty. simpl.
      destruct (decide (a = a')) as [<-|Ha]; [|by rewrite lookup_insert_ne, lookup_empty].
      rewrite lookup_insert_eq. simpl.
      destruct (decide (b = b')) as [<-|Hb]; [done|by rewrite lookup_insert_ne, lookup_empty]. }
  destruct (decide (a = a')) as [<-|Ha]; [|by rewrite lookup_insert_ne].
  rewrite lookup_insert_eq. simpl.
  destruct (d_ij !! a) as [d_ija|] eqn:Hdija; simpl.
  2:{ destruct (decide (b = b')) as [<-|Hb]; [done|by rewrite lookup_insert_ne, lookup_empty]. }
  destruct (decide (b = b')) as [<-|Hb]; [done|by rewrite lookup_insert_ne].
Qed.

Lemma all_true_empty : all_true ∅.
Proof. intros i j a b e. by rewrite recorded_empty. Qed.

Lemma all_true_record d i j a b e :
  all_true d → Expression.evaluate e = Ok (VBool true) →
  all_true (record_substitution d i j a b e).
Proof.
  intros Hd He i' j' a' b' e'.
  destruct (decide ((i, j, a, b) = (i', j', a', b'))) as [[= <- <- <- <-]|Hne].
  - rewrite recorded_record_eq. by intros [= <-].
  - rewrite recorded_record_ne by done. apply Hd.
Qed.

(** What one call of [_test_substitution] does. *)
Lemma test_substitution_cases expression d i j s1 s2 e1 new_expression :
  Expression.substitute_symbol expression s1 i = Ok e1 →
  Expression.substitute_symbol e1 s2 j = Ok new_expression →
  _test_substitution expression d i j s1 s2
  = match Expression.evaluate new_expression with
    | Ok (VBool true) =>
        Ok (record_substitution d i j (Symbol.code s1) (Symbol.code s2) new_expression)
    | Ok _ => Ok d
    | Raise (ValueError _) => Ok d
    | Raise e => Raise e
    | Undefined => Undefined
    end.
Proof.
  intros H1 H2. unfold _test_substitution. rewrite H1. simpl. rewrite H2. simpl.
  destruct (Expression.evaluate new_expression) as [[z|[]]|[]|]; done.
Qed.

Lemma test_substitution_all_true expression d i j s1 s2 d' :
  all_true d → _test_substitution expression d i j s1 s2 = Ok d' → all_true d'.
Proof.
  intros Hd. unfold _test_substitution.
  destruct (Expression.substitute_symbol expression s1 i) as [e1| |]; simpl; try done.
  destruct (Expression.substitute_symbol e1 s2 j) as [e2| |]; simpl; try done.
  destruct (Expression.evaluate e2) as [[z|[]]|[]|] eqn:He; try done;
    intros [= <-]; try done.
  by apply all_true_record.
Qed.

Lemma test_substitution_no_ValueError expression d i j s1 s2 arg :
  _test_substitution expression d i j s1 s2 ≠ Raise (ValueError arg).
Proof.
  unfold _test_substitution, Expression.substitute_symbol.
  destruct (decide (i < _)%nat); simpl; [|done].
  destruct (decide (j < _)%nat); simpl; [|done].
  match goal with |- context [Expression.evaluate ?e] =>
    destruct (Expression.evaluate e) as [[z|[]]|[]|] end; done.
Qed.

Lemma for_each_invariant {A S : Type} (P : S → Prop) (l : list A)
    (body : S → A → result S) (s s' : S) :
  (∀ s x s', P s → body s x = Ok s' → P s') →
  P s → for_each l body s = Ok s' → P s'.
Proof.
  intros Hbody. revert s. induction l as [|x l IH]; intros s Hs; simpl.
  - by intros [= <-].
  - destruct (body s x) as [s1| |] eqn:Hb; simpl; try done.
    apply IH. by eapply Hbody.
Qed.

Lemma for_each_no_ValueError {A S : Type} (l : list A)
    (body : S → A → result S) (s : S) arg :
  (∀ s x, body s x ≠ Raise (ValueError arg)) →
  for_each l body s ≠ Raise (ValueError arg).
Proof.
  intros Hbody. revert s. induction l as [|x l IH]; intros s; simpl; [done|].
  destruct (body s x) as [s1|e|] eqn:Hb; simpl; [apply IH| |done].
  rewrite <- Hb. apply Hbody.
Qed.

Lemma getitem_no_ValueError {V B : Type} (d : list (Symbol.t * V)) k
    (f : V → result B) arg :
  (∀ v, f v ≠ Raise (ValueError arg)) →
  pydict_getitem Symbol.__eq__ d k ≫= f ≠ Raise (ValueError arg).
Proof.
  intros Hf. unfold pydict_getitem.
  destruct (pydict_get Symbol.__eq__ d k); simpl; [apply Hf|done].
Qed.

Lemma search_all_true symbols expression d :
  search symbols expression = Ok d → all_true d.
Proof.
  unfold search.
  apply (for_each_invariant all_true); [|apply all_true_empty].
  intros d1 [i s] d1' Hd1.
  apply (for_each_invariant all_true); [|done].
  intros d2 [j s'] d2' Hd2. destruct (decide (i = j)).
  - destruct (pydict_getitem _ _ _) as [moves| |]; simpl; try done.
    apply (for_each_invariant all_true); [|done].
    intros d3 x d3' Hd3. by apply test_substitution_all_true.
  - destruct (pydict_getitem _ (SymbolCollection.reachable_with_removal_by_symbol _) _)
      as [removals| |]; simpl; try done.
    apply (for_each_invariant all_true); [|done].
    intros d3 x d3' Hd3.
    destruct (pydict_getitem _ _ _) as [additions| |]; simpl; try done.
    apply (for_each_invariant all_true); [|done].
    intros d4 y d4' Hd4. by apply test_substitution_all_true.
Qed.

Lemma search_no_ValueError symbols expression arg :
  search symbols expression ≠ Raise (ValueError arg).
Proof.
  unfold search.
  apply for_each_no_ValueError. intros d1 [i s].
  apply for_each_no_ValueError. intros d2 [j s']. destruct (decide (i = j)).
  - apply getitem_no_ValueError. intros moves.
    apply for_each_no_ValueError. intros d3 x.
    apply test_substitution_no_ValueError.
  - apply getitem_no_ValueError. intros removals.
    apply for_each_no_ValueError. intros d3 x.
    apply getitem_no_ValueError. intros additions.
    apply for_each_no_ValueError. intros d4 y.
    apply test_substitution_no_ValueError.
Qed.
End Search.

Lemma returned_eq {A : Type} (r : result A) (H : returns r) : r = Ok (returned r H).
Proof. destruct r; [done|destruct H..]. Qed.

(** C1: every expression that the search has recorded evaluates to the
    boolean [True]; a call of [_test_substitution] records the candidate
    when it evaluates to [True], and returns the mapping unchanged when the
    result is [False], or an integer, or when [evaluate] raises
    [ValueError]; the search itself never raises [ValueError]. *)
Theorem search_records_only_true
    (symbols : SymbolCollection.t) (expression : Expression.t)
    (d : Substitutions) (i j : nat) (a b : option string) (e : Expression.t) :
  search symbols expression = Ok d →
  recorded d i j a b = Some e →
  Expression.evaluate e = Ok (VBool true)
  ∧ (∀ d0 i j s1 s2 e1 new_expression,
       Expression.substitute_symbol expression s1 i = Ok e1 →
       Expression.substitute_symbol e1 s2 j = Ok new_expression →
       (Expression.evaluate new_expression = Ok (VBool true) →
        _test_substitution expression d0 i j s1 s2
        = Ok (record_substitution d0 i j (Symbol.code s1) (Symbol.code s2) new_expression))
       ∧ (Expression.evaluate new_expression = Ok (VBool false) →
          _test_substitution expression d0 i j s1 s2 = Ok d0)
       ∧ (∀ z, Expression.evaluate new_expression = Ok (VInt z) →
               _test_substitution expression d0 i j s1 s2 = Ok d0)
       ∧ (∀ arg, Expression.evaluate new_expression = Raise (ValueError arg) →
                 _test_substitution expression d0 i j s1 s2 = Ok d0))
  ∧ (∀ arg, search symbols expression ≠ Raise (ValueError arg)).
Proof.
  intros Hs Hr. split; [by eapply search_all_true|]. split.
  - intros d0 i' j' s1 s2 e1 ne H1 H2.
    rewrite (test_substitution_cases _ _ _ _ _ _ _ _ H1 H2).
    repeat split.
    + by intros ->.
    + by intros ->.
    + by intros z ->.
    + by intros arg ->.
  - intros arg. apply search_no_ValueError.
Qed.

Lemma search_records_only_true_witness :
  Expression.evaluate (Expression.mk [zero; eq_a; zero]) = Ok (VBool true).
Proof.
  assert (search (SymbolCollection.__init__ [zero; six_a; eq_a])
                 (Expression.mk [zero; eq_a; six_a])
          = Ok (record_substitution
                  (record_substitution ∅ 0 0 (Some "6"%string) (Some "6"%string)
                     (Expression.mk [six_a; eq_a; six_a]))
                  2 2 (Some "0"%string) (Some "0"%string)
                  (Expression.mk [zero; eq_a; zero]))) as H1
    by (vm_compute; reflexivity).
  exact (proj1 (search_records_only_true _ _ _ _ _ _ _ _ H1
                  (recorded_record_eq _ 2%nat 2%nat _ _ _))).
Defined.

(** ** Patterns *)

Section WithPattern.
Variable pattern : list string.

Lemma with_pattern_row_spec row_id cells sticks :
  match Symbol.with_pattern_row pattern row_id cells sticks with
  | Ok sticks' =>
      (∀ col_id ch, (col_id, ch) ∈ cells →
         is_Some (Symbol.pattern_value_sticks row_id col_id ch))
      ∧ ∀ stick, stick ∈ sticks' ↔
          stick ∈ sticks
          ∨ ∃ col_id ch l, (col_id, ch) ∈ cells
              ∧ Symbol.pattern_value_sticks row_id col_id ch = Some l ∧ stick ∈ l
  | Raise e =>
      e = ValueError (ArgList pattern)
      ∧ ∃ col_id ch, (col_id, ch) ∈ cells
          ∧ Symbol.pattern_value_sticks row_id col_id ch = None
  | Undefined => False
  end.
Proof.
  revert sticks. induction cells as [|[col_id ch] cells IH]; intros sticks; simpl.
  - split; [intros ? ? H; inversion H|]. intros stick. split; [by left|].
    intros [H|(? & ? & ? & H & _)]; [done|inversion H].
  - destruct (Symbol.pattern_value_sticks row_id col_id ch) as [l|] eqn:Hl.
    + specialize (IH (sticks ∪ list_to_set l)).
      destruct (Symbol.with_pattern_row pattern row_id cells (sticks ∪ list_to_set l))
        as [sticks'|e|]; [| |done].
      * destruct IH as [IH1 IH2]. split.
        { intros c' ch' [[= -> ->]|H]%elem_of_cons; [by rewrite Hl|by apply IH1]. }
        intros stick. rewrite IH2, elem_of_union, elem_of_list_to_set. split.
        { intros [[H|H]|(c' & ch' & l' & H1 & H2 & H3)]; [by left|right..].
          - exists col_id, ch, l. split; [left|done].
          - exists c', ch', l'. split; [by right|done]. }
        { intros [H|(c' & ch' & l' & [[= -> ->]|H1]%elem_of_cons & H2 & H3)].
          - by left; left.
          - left; right. congruence.
          - right. eauto 10. }
      * destruct IH as [-> (c' & ch' & H1 & H2)]. split; [done|].
        exists c', ch'. split; [by right|done].
    + split; [done|]. exists col_id, ch. split; [left|done].
Qed.

Lemma with_pattern_rows_spec all_cols rows sticks :
  let cells row_pattern := zip all_cols (list_ascii_of_string row_pattern) in
  match Symbol.with_pattern_rows pattern all_cols rows sticks with
  | Ok sticks' =>
      (∀ row_id row_pattern col_id ch,
         (row_id, row_pattern) ∈ rows → (col_id, ch) ∈ cells row_pattern →
         is_Some (Symbol.pattern_value_sticks row_id col_id ch))
      ∧ ∀ stick, stick ∈ sticks' ↔
          stick ∈ sticks
          ∨ ∃ row_id row_pattern col_id ch l,
              (row_id, row_pattern) ∈ rows ∧ (col_id, ch) ∈ cells row_pattern
              ∧ Symbol.pattern_value_sticks row_id col_id ch = Some l ∧ stick ∈ l
  | Raise e =>
      e = ValueError (ArgList pattern)
      ∧ ∃ row_id row_pattern col_id ch,
          (row_id, row_pattern) ∈ rows ∧ (col_id, ch) ∈ cells row_pattern
          ∧ Symbol.pattern_value_sticks row_id col_id ch = None
  | Undefined => False
  end.
Proof.
  intros cells. revert sticks.
  induction rows as [|[row_id row_pattern] rows IH]; intros sticks; simpl.
  - split; [intros ? ? ? ? H; inversion H|]. intros stick. split; [by left|].
    intros [H|(? & ? & ? & ? & ? & H & _)]; [done|inversion H].
  - pose proof (with_pattern_row_spec row_id (cells row_pattern) sticks) as Hrow.
    fold (cells row_pattern).
    destruct (Symbol.with_pattern_row pattern row_id (cells row_pattern) sticks)
      as [sticks1|e|]; simpl; [| |done].
    + destruct Hrow as [Hr1 Hr2]. specialize (IH sticks1).
      destruct (Symbol.with_pattern_rows pattern all_cols rows sticks1)
        as [sticks'|e|]; [| |done].
      * destruct IH as [IH1 IH2]. split.
        { intros r rp c' ch' [[= -> ->]|H]%elem_of_cons Hc; [by apply Hr1|].
          by eapply IH1. }
        intros stick. rewrite IH2, Hr2. split.
        { intros [[H|(c' & ch' & l & H1 & H2 & H3)]
                 |(r & rp & c' & ch' & l & H0 & H1 & H2 & H3)]; [by left|right..].
          - exists row_id, row_pattern, c', ch', l. split; [left|done].
          - exists r, rp, c', ch', l. split; [by right|done]. }
        { intros [H|(r & rp & c' & ch' & l & [[= -> ->]|H0]%elem_of_cons & H1 & H2 & H3)].
          - by left; left.
          - left; right. eauto 10.
          - right. eauto 10. }
      * destruct IH as [-> (r & rp & c' & ch' & H0 & H1 & H2)]. split; [done|].
        exists r, rp, c', ch'. split; [by right|done].
    + destruct Hrow as [-> (c' & ch' & H1 & H2)]. split; [done|].
      exists row_id, row_pattern, c', ch'. split; [left|done].
Qed.

Lemma cell_read_zip all_sticks row_id col_id ch :
  cell_read all_sticks pattern row_id col_id ch
  ↔ ∃ row_pattern,
      (row_id, row_pattern) ∈ zip (Symbol.all_rows all_sticks) pattern
      ∧ (col_id, ch) ∈ zip (Symbol.all_cols all_sticks) (list_ascii_of_string row_pattern).
Proof.
  unfold cell_read. split.
  - intros (i & j & rp & H1 & H2 & H3 & H4). exists rp. split.
    + apply elem_of_lookup_zip_with. eauto 10.
    + apply elem_of_lookup_zip_with. eauto 10.
  - intros (rp & (i & x & y & [= <- <-] & H1 & H2)%elem_of_lookup_zip_with
               & (j & x' & y' & [= <- <-] & H3 & H4)%elem_of_lookup_zip_with).
    eauto 10.
Qed.
End WithPattern.

(** C9, as the code has it: [with_pattern] raises [ValueError] exactly
    when some character that it reads for a cell of the grid is none of the
    four pattern characters, or stands for a stick that the grid does not
    have; otherwise it returns the symbol.  Rows and columns of the pattern
    beyond those of the grid are not read. *)
Theorem with_pattern_fails_iff_bad_cell
    (c : Symbol.Class) (grid : StickCollection.t) (pattern : list string)
    (init : StickCollection.t → Symbol.t) :
  Symbol._get_all_sticks c = Ok grid →
  (Symbol.with_pattern c pattern init = Raise (ValueError (ArgList pattern))
   ↔ ∃ row_id col_id ch,
       cell_read (StickCollection.sticks grid) pattern row_id col_id ch
       ∧ bad_cell (StickCollection.sticks grid) row_id col_id ch)
  ∧ (Symbol.with_pattern c pattern init = Raise (ValueError (ArgList pattern))
     ∨ ∃ sticks, Symbol.with_pattern c pattern init = Ok (init (StickCollection.mk sticks))).
Proof.
  intros Hgrid. unfold Symbol.with_pattern. rewrite Hgrid. simpl.
  assert (list_to_set (StickCollection.__iter__ grid) = StickCollection.sticks grid) as ->.
  { unfold StickCollection.__iter__. apply set_eq. intros x.
    by rewrite elem_of_list_to_set, elem_of_elements. }
  set (all := StickCollection.sticks grid).
  pose proof (with_pattern_rows_spec pattern (Symbol.all_cols all)
                (zip (Symbol.all_rows all) pattern) ∅) as Hrows.
  simpl in Hrows.
  destruct (Symbol.with_pattern_rows pattern (Symbol.all_cols all)
              (zip (Symbol.all_rows all) pattern) ∅) as [sticks|e|]; simpl; [| |done].
  - destruct Hrows as [H1 H2]. destruct (decide (sticks ∖ all ≠ ∅)) as [Hne|He].
    + split; [|by left]. split; [|done]. intros _.
      apply set_choose_L in Hne as (stick & [Hin Hnot]%elem_of_difference).
      apply H2 in Hin as [Hin|(r & rp & c' & ch & l & Hr & Hc & Hl & Hin)];
        [set_solver|].
      exists r, c', ch. split.
      * apply cell_read_zip. eauto.
      * unfold bad_cell. rewrite Hl. eauto.
    + split; [|right; eauto]. split; [done|].
      intros (r & c' & ch & (rp & Hr & Hc)%cell_read_zip & Hbad). exfalso.
      unfold bad_cell in Hbad.
      destruct (H1 r rp c' ch Hr Hc) as [l Hl]. rewrite Hl in Hbad.
      destruct Hbad as (stick & Hin & Hnot). apply He.
      assert (stick ∈ sticks ∖ all) as Hd; [|set_solver].
      apply elem_of_difference. split; [|done]. apply H2. right. eauto 10.
  - destruct Hrows as [-> (r & rp & c' & ch & Hr & Hc & Hl)].
    split; [|by left]. split; [|done]. intros _.
    exists r, c', ch. split.
    + apply cell_read_zip. eauto.
    + unfold bad_cell. by rewrite Hl.
Qed.

Local Open Scope string_scope.

Lemma with_pattern_fails_iff_bad_cell_witness :
  Symbol.with_pattern Symbol.Digit ["|  "; "   "; "   "]
    (λ sticks, Symbol.Digit__init__ sticks (Symbol.IntValue 1) (Some "one") None)
  = Raise (ValueError (ArgList ["|  "; "   "; "   "]))
  ↔ ∃ row_id col_id ch,
      cell_read (StickCollection.sticks _DIGIT_STICKS) ["|  "; "   "; "   "] row_id col_id ch
      ∧ bad_cell (StickCollection.sticks _DIGIT_STICKS) row_id col_id ch.
Proof.
  apply (with_pattern_fails_iff_bad_cell Symbol.Digit _DIGIT_STICKS).
  reflexivity.
Defined.

(** C9 as stated fails: a pattern with one row more than the grid, and a
    pattern with one column more, are accepted, and give the symbol of the
    pattern without them. *)
Lemma overlong_pattern_is_accepted :
  (length (Symbol.all_rows (StickCollection.sticks _DIGIT_STICKS))
   < length [" _ "; "| |"; "|_|"; "|||"])%nat
  ∧ Digit_with_pattern [" _ "; "| |"; "|_|"; "|||"] (Symbol.IntValue 0) "zero" = Ok zero
  ∧ (length (Symbol.all_cols (StickCollection.sticks _DIGIT_STICKS))
     < length (list_ascii_of_string " _ |"))%nat
  ∧ Digit_with_pattern [" _ |"; "| ||"; "|_||"] (Symbol.IntValue 0) "zero" = Ok zero.
Proof. repeat split; vm_compute; try reflexivity; lia. Qed.

Local Close Scope string_scope.

Ltac not_in_list H :=
  exfalso; repeat (apply elem_of_cons in H as [H|H]; [discriminate H|]); inversion H.

Lemma getattr_sticks__ (other : Symbol.t) :
  Symbol.getattr other "sticks__" = Raise (AttributeError "sticks__").
Proof.
  unfold Symbol.getattr.
  destruct (decide (_ = _)) as [[=]|_].
  destruct (decide (_ ∈ _)) as [H|_]; [not_in_list H|].
  destruct (decide (_ ∧ _)) as [[[=] _]|_].
  destruct (decide (_ ∈ _)) as [H|_]; [|done].
  unfold Symbol.class_attributes in H.
  destruct (Symbol.cls other); simpl in H; not_in_list H.
Qed.

(** C10: [a != b] on symbols raises [AttributeError], reading the
    attribute [sticks__] that no symbol has; so it is not the negation of
    [a == b], which is a total function of the two normalized shapes. *)
Theorem symbol_ne_raises (a b : Symbol.t) :
  Symbol.__ne__ a b = Raise (AttributeError "sticks__")
  ∧ Symbol.__ne__ a b ≠ Ok (negb (Symbol.__eq__ a b))
  ∧ Symbol.__eq__ a b
    = bool_decide (StickCollection.normalized_sticks (Symbol.sticks a)
                   = StickCollection.normalized_sticks (Symbol.sticks b)).
Proof.
  assert (Symbol.__ne__ a b = Raise (AttributeError "sticks__")) as H.
  { unfold Symbol.__ne__. simpl. by rewrite getattr_sticks__. }
  rewrite H. done.
Qed.

Section ChainErrors.
Implicit Types (self exp : Expression.t).

(** After a false sub-expression nothing more is evaluated. *)
Lemma chain_returns_first_false self pre exp post :
  (1 < length (Expression.equality_operators self))%nat →
  pairwise_subexpressions self = pre ++ exp :: post →
  Forall (λ x, Expression.evaluate x = Ok (VBool true)) pre →
  Expression.evaluate exp = Ok (VBool false) →
  Expression.evaluate self = Ok (VBool false).
Proof.
  intros Hn Hsub Hpre Hexp. rewrite evaluate_chain, Hsub by done.
  clear Hsub. induction Hpre as [|x pre Hx _ IH]; simpl.
  - rewrite Hexp. simpl. by apply and_all_falsy.
  - rewrite Hx. simpl. exact IH.
Qed.

(** An error is raised when every sub-expression before it is true. *)
Lemma chain_raises_after_true self pre exp post e :
  (1 < length (Expression.equality_operators self))%nat →
  pairwise_subexpressions self = pre ++ exp :: post →
  Forall (λ x, Expression.evaluate x = Ok (VBool true)) pre →
  Expression.evaluate exp = Raise e →
  Expression.evaluate self = Raise e.
Proof.
  intros Hn Hsub Hpre Hexp. rewrite evaluate_chain, Hsub by done.
  clear Hsub. induction Hpre as [|x pre Hx _ IH]; simpl.
  - by rewrite Hexp.
  - rewrite Hx. simpl. exact IH.
Qed.
End ChainErrors.

(** C3, on the code: in the chain [1==2==+] the first sub-expression is
    [False] and the second one raises [ValueError], yet [evaluate] returns
    [False]: the loop does not evaluate what follows a false result.  With
    a true first sub-expression, as in [1==1==+], the error is raised. *)
Theorem chain_stops_at_first_false :
  let chain := Expression.mk [one_a; eq_a; two; eq_a; plus_b] in
  pairwise_subexpressions chain
  = [Expression.mk [one_a; eq_a; two]; Expression.mk [two; eq_a; plus_b]]
  ∧ Expression.equality_subexpressions chain = pairwise_subexpressions chain
  ∧ Expression.evaluate (Expression.mk [one_a; eq_a; two]) = Ok (VBool false)
  ∧ Expression.evaluate (Expression.mk [two; eq_a; plus_b])
    = Raise (ValueError (ArgStr "2==+"))
  ∧ Expression.evaluate chain = Ok (VBool false)
  ∧ Expression.evaluate (Expression.mk [one_a; eq_a; one_a; eq_a; plus_b])
    = Raise (ValueError (ArgStr "1==+")).
Proof. repeat split; vm_compute; reflexivity. Qed.

(** * Further properties of the code *)

(** ** Sticks and stick collections *)

(** X1: two sticks are equal for [Stick.__eq__] exactly when their three
    fields are the same, which is when their hashed tuples are the same;
    [Stick.__ne__] is the negation of [Stick.__eq__]; and a stick is vertical
    exactly when it is not horizontal. *)
Theorem Stick_eq_ne_hash (a b : Stick.t) :
  (Stick.__eq__ a b = true ↔ a = b)
  ∧ (Stick.__eq__ a b = true ↔ Stick.to_tuple a = Stick.to_tuple b)
  ∧ Stick.__ne__ a b = negb (Stick.__eq__ a b)
  ∧ Stick.is_vertical a = negb (Stick.is_horizontal a).
Proof.
  destruct a as [r c o], b as [r' c' o']. unfold Stick.__eq__, Stick.__ne__,
    Stick.to_tuple. simpl.
  split; [|split; [|split]]; [| | |by destruct o].
  - rewrite !andb_true_iff, !bool_decide_eq_true. split.
    + by intros [[-> ->] ->].
    + by intros [= -> -> ->].
  - rewrite !andb_true_iff, !bool_decide_eq_true. split.
    + by intros [[-> ->] ->].
    + intros [= -> -> Ho]. by destruct o, o'.
  - rewrite !negb_andb. f_equal; [f_equal|];
      (apply eq_true_iff_eq; rewrite negb_true_iff, bool_decide_eq_true,
         bool_decide_eq_false; done).
Qed.

(** X2: [StickCollection.__eq__] is an equivalence; collections that are
    equal have the same hash and the same length, and [__ne__] is the
    negation of [__eq__]. *)
Theorem StickCollection_eq_consistent (a b c : StickCollection.t) :
  StickCollection.__eq__ a a = true
  ∧ StickCollection.__eq__ a b = StickCollection.__eq__ b a
  ∧ (StickCollection.__eq__ a b = true → StickCollection.__eq__ b c = true →
     StickCollection.__eq__ a c = true)
  ∧ StickCollection.__ne__ a b = negb (StickCollection.__eq__ a b)
  ∧ (StickCollection.__eq__ a b = true →
     StickCollection.__hash__ a = StickCollection.__hash__ b)
  ∧ (StickCollection.__eq__ a b = true →
     StickCollection.__len__ a = StickCollection.__len__ b).
Proof.
  split; [apply StickCollection_eq_refl|].
  split; [apply StickCollection_eq_sym|].
  split; [apply StickCollection_eq_trans|].
  split; [|split; [apply bool_decide_eq_true|apply StickCollection_eq_len]].
  unfold StickCollection.__ne__, StickCollection.__eq__.
  apply eq_true_iff_eq.
  by rewrite negb_true_iff, bool_decide_eq_true, bool_decide_eq_false.
Qed.

Section AddSub.
Implicit Types (c : StickCollection.t) (t : Stick.t).

Lemma add_sticks c t :
  StickCollection.sticks (StickCollection.__add__ c t) = StickCollection.sticks c ∪ {[ t ]}.
Proof. reflexivity. Qed.

Lemma StickCollection_ext c c' :
  StickCollection.sticks c = StickCollection.sticks c' → c = c'.
Proof. destruct c, c'. simpl. by intros ->. Qed.
End AddSub.

(** X3: removing a stick that is there and adding it again gives the
    collection back, and so does adding a stick that is not there and
    removing it; removing an absent stick and adding a present one change
    nothing; the length goes down by one, or up by one, exactly when the
    stick was there, or was not. *)
Theorem add_sub_round_trip (c : StickCollection.t) (t : Stick.t) :
  StickCollection.__add__ (StickCollection.__sub__ c t) t
  = (if decide (t ∈ StickCollection.sticks c) then c else StickCollection.__add__ c t)
  ∧ StickCollection.__sub__ (StickCollection.__add__ c t) t
    = (if decide (t ∈ StickCollection.sticks c) then StickCollection.__sub__ c t else c)
  ∧ StickCollection.__sub__ c t
    = (if decide (t ∈ StickCollection.sticks c)
       then StickCollection.mk (StickCollection.sticks c ∖ {[ t ]}) else c)
  ∧ S (StickCollection.__len__ (StickCollection.__sub__ c t))
    = (if decide (t ∈ StickCollection.sticks c)
       then StickCollection.__len__ c else S (StickCollection.__len__ c))
  ∧ StickCollection.__len__ (StickCollection.__add__ c t)
    = (if decide (t ∈ StickCollection.sticks c)
       then StickCollection.__len__ c else S (StickCollection.__len__ c)).
Proof.
  assert (∀ X : gset Stick.t, t ∈ X → X ∖ {[t]} ∪ {[t]} = X) as Hin.
  { intros X HX. apply set_eq. intros x.
    rewrite elem_of_union, elem_of_difference, elem_of_singleton.
    destruct (decide (x = t)) as [->|]; [by split; auto|].
    split; [by intros [[? _]|?]|by left]. }
  assert (∀ X : gset Stick.t, t ∉ X → (X ∪ {[t]}) ∖ {[t]} = X) as Hout.
  { intros X HX. apply set_eq. intros x.
    rewrite elem_of_difference, elem_of_union, elem_of_singleton.
    split; [by intros [[?|?] ?]|]. intros Hx. split; [by left|]. by intros ->. }
  assert (∀ X : gset Stick.t, (X ∪ {[t]}) ∖ {[t]} = X ∖ {[t]}) as Hboth.
  { intros X. apply set_eq. intros x.
    rewrite !elem_of_difference, elem_of_union, elem_of_singleton.
    split; [by intros [[?|?] ?]|]. intros [Hx Hne]. split; [by left|done]. }
  unfold StickCollection.__len__.
  destruct (decide (t ∈ StickCollection.sticks c)) as [Ht|Ht].
  - repeat split.
    + apply StickCollection_ext. by rewrite add_sticks, sub_sticks, Hin.
    + apply StickCollection_ext. by rewrite !sub_sticks, add_sticks, Hboth.
    + apply StickCollection_ext. by rewrite sub_sticks.
    + rewrite sub_sticks, size_difference by (by apply singleton_subseteq_l).
      rewrite size_singleton.
      assert (size (StickCollection.sticks c) ≠ 0%nat); [|lia].
      intros H0%size_empty_inv. apply leibniz_equiv in H0. rewrite H0 in Ht.
      by apply not_elem_of_empty in Ht.
    + rewrite add_sticks. f_equal. apply set_eq. intros x.
      rewrite elem_of_union, elem_of_singleton. split; [by intros [?| ->]|by left].
  - repeat split.
    + apply StickCollection_ext.
      rewrite !add_sticks, sub_sticks. f_equal. apply set_eq. intros x.
      rewrite elem_of_difference, elem_of_singleton. split; [by intros [? _]|].
      intros Hx. split; [done|]. by intros ->.
    + apply StickCollection_ext. by rewrite sub_sticks, add_sticks, Hout.
    + apply StickCollection_ext. rewrite sub_sticks. apply set_eq. intros x.
      rewrite elem_of_difference, elem_of_singleton. split; [by intros [? _]|].
      intros Hx. split; [done|]. by intros ->.
    + f_equal. f_equal. rewrite sub_sticks. apply set_eq. intros x.
      rewrite elem_of_difference, elem_of_singleton. split; [by intros [? _]|].
      intros Hx. split; [done|]. by intros ->.
    + rewrite add_sticks, size_union, size_singleton; [lia|].
      intros x Hx ->%elem_of_singleton. done.
Qed.

(** X4: the normalized form of a collection is a shape equal to it, it is
    its own normalized form, no stick of it has a negative row or column,
    and unless it is empty one of its sticks is in row 0 and one in
    column 0. *)
Theorem normalized_sticks_canonical (c : StickCollection.t) :
  let n := StickCollection.mk (StickCollection.normalized_sticks c) in
  StickCollection.__eq__ n c = true
  ∧ StickCollection.normalized_sticks n = StickCollection.normalized_sticks c
  ∧ (∀ t, t ∈ StickCollection.sticks n → 0 ≤ Stick.row t ∧ 0 ≤ Stick.column t)
  ∧ (StickCollection.sticks c = ∅
     ∨ ∃ t u, t ∈ StickCollection.sticks n ∧ u ∈ StickCollection.sticks n
              ∧ Stick.row t = 0 ∧ Stick.column u = 0).
Proof.
  destruct c as [A]. intros n.
  assert (StickCollection.normalized_sticks n
          = StickCollection.normalized_sticks (StickCollection.mk A)) as Hidem.
  { unfold n. rewrite (normalized_translate A) at 1.
    apply normalized_sticks_translate. }
  split; [by apply bool_decide_eq_true|]. split; [done|].
  destruct (decide (A = ∅)) as [->|Hne].
  { split; [|by left]. intros t Ht. simpl in Ht.
    rewrite normalized_translate, translate_empty in Ht. set_solver. }
  assert (StickCollection.normalized_sticks (StickCollection.mk A) ≠ ∅) as Hne'.
  { rewrite normalized_translate. intros H. by apply translate_eq_empty in H. }
  split.
  - intros t Ht. simpl in Ht.
    pose proof (min_row_le _ t Ht) as Hr. pose proof (min_col_le _ t Ht) as Hc.
    rewrite normalized_min_row in Hr by done.
    rewrite normalized_min_col in Hc by done. done.
  - right. destruct (min_row_attained _ Hne') as (t & Ht & Hr).
    destruct (min_col_attained _ Hne') as (u & Hu & Hc).
    rewrite normalized_min_row in Hr by done.
    rewrite normalized_min_col in Hc by done. eauto 10.
Qed.
Section PySetShape.
Context {A : Type} (eqb : A → A → bool).
Hypothesis eqb_sym : ∀ x y, eqb x y = eqb y x.

Lemma distinct_for_add s x :
  distinct_for eqb s → distinct_for eqb (pyset_add eqb s x).
Proof.
  intros Hs. unfold pyset_add.
  destruct (pyset_contains eqb s x) eqn:Hc; [done|].
  assert (∀ z, z ∈ s → eqb z x = false) as Hx.
  { intros z Hz. destruct (eqb z x) eqn:Hzx; [|done].
    assert (pyset_contains eqb s x = true); [|congruence].
    apply existsb_exists. exists z. split; [by apply list_elem_of_In|done]. }
  intros i j a b Hi Hj Hne.
  apply lookup_app_Some in Hi as [Hi|[Hil Hi]];
    apply lookup_app_Some in Hj as [Hj|[Hjl Hj]].
  - by apply (Hs i j).
  - apply list_lookup_singleton_Some in Hj as [_ <-].
    apply Hx. by eapply list_elem_of_lookup_2.
  - apply list_lookup_singleton_Some in Hi as [_ <-].
    rewrite eqb_sym. apply Hx. by eapply list_elem_of_lookup_2.
  - apply list_lookup_singleton_Some in Hi as [Hi _].
    apply list_lookup_singleton_Some in Hj as [Hj _]. lia.
Qed.

Lemma distinct_for_foldl_add s l :
  distinct_for eqb s → distinct_for eqb (foldl (pyset_add eqb) s l).
Proof.
  revert s. induction l as [|x l IH]; intros s Hs; simpl; [done|].
  by apply IH, distinct_for_add.
Qed.

Lemma distinct_for_of_list l : distinct_for eqb (pyset_of_list eqb l).
Proof.
  apply distinct_for_foldl_add. intros i j x y Hi. by rewrite lookup_nil in Hi.
Qed.

Lemma length_foldl_pyset_add s l :
  (length (foldl (pyset_add eqb) s l) ≤ length s + length l)%nat.
Proof.
  revert s. induction l as [|x l IH]; intros s; simpl; [lia|].
  etrans; [apply IH|]. unfold pyset_add.
  destruct (pyset_contains eqb s x); rewrite ?length_app; simpl; lia.
Qed.

Lemma length_pyset_of_list l : (length (pyset_of_list eqb l) ≤ length l)%nat.
Proof. apply (length_foldl_pyset_add [] l). Qed.
End PySetShape.

(** X5: every member of [removal_set] of a collection is the collection
    less one of its sticks, one stick shorter; the collection less any one of
    its sticks is in the set; no two members are equal shapes; and there are
    at most as many members as sticks. *)
Theorem StickCollection_removal_set_spec (c : StickCollection.t) :
  (∀ c', c' ∈ StickCollection.removal_set c →
     ∃ t, t ∈ StickCollection.sticks c ∧ c' = StickCollection.__sub__ c t
          ∧ S (StickCollection.__len__ c') = StickCollection.__len__ c)
  ∧ (∀ t, t ∈ StickCollection.sticks c →
       pyset_contains StickCollection.__eq__ (StickCollection.removal_set c)
         (StickCollection.__sub__ c t) = true)
  ∧ distinct_for StickCollection.__eq__ (StickCollection.removal_set c)
  ∧ (length (StickCollection.removal_set c) ≤ StickCollection.__len__ c)%nat.
Proof.
  split; [|split; [|split]].
  - intros c' H%elem_of_pyset_of_list.
    apply list_elem_of_fmap in H as (t & -> & Ht%elem_of_elements).
    exists t. split; [done|]. split; [done|].
    unfold StickCollection.__len__. rewrite sub_sticks.
    rewrite size_difference by (by apply singleton_subseteq_l).
    rewrite size_singleton.
    assert (size (StickCollection.sticks c) ≠ 0%nat); [|lia].
    intros H0%size_empty_inv. apply leibniz_equiv in H0. rewrite H0 in Ht.
    by apply not_elem_of_empty in Ht.
  - intros t Ht. destruct (StickCollection_removal_set_complete c t Ht) as (c' & Hc' & He).
    apply pyset_contains_elem. eauto.
  - apply distinct_for_of_list, StickCollection_eq_sym.
  - unfold StickCollection.removal_set, StickCollection.__len__.
    etrans; [apply length_pyset_of_list|]. by rewrite length_fmap.
Qed.

Section FromDict.
Lemma elem_of_sorted_items {V : Type} (d : list (Z * V)) x :
  x ∈ sorted_items d ↔ x ∈ d.
Proof. unfold sorted_items. by rewrite merge_sort_Permutation. Qed.

Lemma elem_of_sticks_from_dict d t :
  t ∈ StickCollection._sticks_from_dict d
  ↔ ∃ r c, (Stick.row t, r) ∈ d ∧ (Stick.column t, c) ∈ r ∧ Stick.orientation t ∈ c.
Proof.
  unfold StickCollection._sticks_from_dict. rewrite list_elem_of_bind. split.
  - intros ([row r] & Ht & Hr). rewrite elem_of_sorted_items in Hr. simpl in Ht.
    apply list_elem_of_bind in Ht as ([col c] & Ht & Hc).
    rewrite elem_of_sorted_items in Hc.
    simpl in Ht. apply list_elem_of_bind in Ht as (o & Ht & Ho).
    apply list_elem_of_singleton in Ht as ->. simpl in *. by exists r, c.
  - intros (r & c & Hr & Hc & Ho). exists (Stick.row t, r). split.
    + apply list_elem_of_bind. exists (Stick.column t, c). split.
      * apply list_elem_of_bind. exists (Stick.orientation t). split; [|done].
        simpl. destruct t. simpl. apply list_elem_of_singleton. done.
      * by apply elem_of_sorted_items.
    + by apply elem_of_sorted_items.
Qed.
End FromDict.

(** X6: [from_dict] builds the collection of exactly the sticks the
    dictionary lists: a stick is in it when its orientation is listed under
    its column under its row. *)
Theorem from_dict_spec (d : list (Z * list (Z * list Stick.Orientation))) (t : Stick.t) :
  t ∈ StickCollection.sticks (StickCollection.from_dict d)
  ↔ ∃ r c, (Stick.row t, r) ∈ d ∧ (Stick.column t, c) ∈ r ∧ Stick.orientation t ∈ c.
Proof.
  unfold StickCollection.from_dict. simpl.
  rewrite elem_of_list_to_set. apply elem_of_sticks_from_dict.
Qed.

(** X7: [Symbol.__eq__] looks at the sticks only: it is an equivalence,
    symbols that are equal have the same hash, and symbols with the same
    sticks are equal whatever their class, name, code and value. *)
Theorem Symbol_eq_consistent (a b c : Symbol.t) :
  Symbol.__eq__ a a = true
  ∧ Symbol.__eq__ a b = Symbol.__eq__ b a
  ∧ (Symbol.__eq__ a b = true → Symbol.__eq__ b c = true → Symbol.__eq__ a c = true)
  ∧ (Symbol.__eq__ a b = true → Symbol.__hash__ a = Symbol.__hash__ b)
  ∧ (Symbol.sticks a = Symbol.sticks b → Symbol.__eq__ a b = true).
Proof.
  split; [apply Symbol_eq_refl|]. split; [apply Symbol_eq_sym|].
  split; [apply Symbol_eq_trans|]. split; [apply bool_decide_eq_true|].
  unfold Symbol.__eq__. intros ->. apply StickCollection_eq_refl.
Qed.

Section ReachabilityOrder.
Lemma is_reachable_from_len s o :
  Symbol.is_reachable_from s o = true →
  StickCollection.__len__ (Symbol.sticks s) = S (StickCollection.__len__ (Symbol.sticks o)).
Proof. intros [H _]%is_reachable_from_spec. exact H. Qed.
End ReachabilityOrder.

(** X8: [is_reachable_from] depends on the shapes only (equal symbols can
    be exchanged on either side), a symbol is never reachable from itself or
    from a symbol equal to it, and of two symbols at most one is reachable
    from the other. *)
Theorem is_reachable_from_order (s s' o o' : Symbol.t) :
  (Symbol.__eq__ s s' = true → Symbol.__eq__ o o' = true →
   Symbol.is_reachable_from s o = Symbol.is_reachable_from s' o')
  ∧ (Symbol.__eq__ s o = true → Symbol.is_reachable_from s o = false)
  ∧ (Symbol.is_reachable_from s o = true → Symbol.is_reachable_from o s = false).
Proof.
  split; [apply is_reachable_from_proper|]. split.
  - intros He. destruct (Symbol.is_reachable_from s o) eqn:Hr; [|done].
    apply is_reachable_from_len in Hr.
    apply StickCollection_eq_len in He. lia.
  - intros Hr. destruct (Symbol.is_reachable_from o s) eqn:Hr'; [|done].
    apply is_reachable_from_len in Hr. apply is_reachable_from_len in Hr'. lia.
Qed.

Section SymbolRemovalSet.
Lemma removal_set_reachable k i :
  i ∈ Symbol.removal_set k → Symbol.is_reachable_from k i = true.
Proof.
  intros (t & Ht & Hi)%Symbol_removal_set_elem.
  apply is_reachable_from_spec. split.
  - rewrite Hi. rewrite size_difference by (by apply singleton_subseteq_l).
    rewrite size_singleton.
    assert (size (StickCollection.sticks (Symbol.sticks k)) ≠ 0%nat); [|lia].
    intros H0%size_empty_inv. apply leibniz_equiv in H0. rewrite H0 in Ht.
    by apply not_elem_of_empty in Ht.
  - exists t. split; [done|]. exists 0, 0. by rewrite translate_0.
Qed.

Lemma reachable_removal_set k o :
  Symbol.is_reachable_from k o = true →
  pyset_contains Symbol.__eq__ (Symbol.removal_set k) o = true.
Proof.
  intros (_ & t & Ht & dr & dc & Ho)%is_reachable_from_spec.
  destruct (Symbol_removal_set_complete k t Ht) as (i & Hi & dr' & dc' & Hi').
  apply pyset_contains_elem. exists i. split; [done|].
  apply Symbol_eq_translate. exists (dr - dr'), (dc - dc').
  rewrite Hi', Ho, translate_translate. f_equal; lia.
Qed.
End SymbolRemovalSet.

(** X9: a symbol is equal to a member of [removal_set] of [k] exactly
    when [k] is reachable from it, that is when it is [k] less one stick; the
    members are plain [Symbol]s with no name and no code, and no two of them
    are equal. *)
Theorem Symbol_removal_set_spec (k o : Symbol.t) :
  (pyset_contains Symbol.__eq__ (Symbol.removal_set k) o = true
   ↔ Symbol.is_reachable_from k o = true)
  ∧ (∀ i, i ∈ Symbol.removal_set k →
       Symbol.cls i = Symbol.Symbol ∧ Symbol.name i = None ∧ Symbol.code i = None)
  ∧ distinct_for Symbol.__eq__ (Symbol.removal_set k).
Proof.
  split; [|split].
  - split; [|apply reachable_removal_set].
    intros (i & Hi & He)%pyset_contains_elem.
    rewrite <- (is_reachable_from_proper k k i o); [by apply removal_set_reachable| |done].
    apply Symbol_eq_refl.
  - intros i H%elem_of_pyset_of_list.
    by apply list_elem_of_fmap in H as (c' & -> & _).
  - apply distinct_for_of_list, Symbol_eq_sym.
Qed.

(** ** Patterns *)

(** X10: when [with_pattern] returns, the symbol is the constructor
    applied to a set of sticks of the grid of the class, and a stick is in
    the set exactly when the character read for some cell stands for it. *)
Theorem with_pattern_result
    (c : Symbol.Class) (pattern : list string)
    (init : StickCollection.t → Symbol.t) (s : Symbol.t) :
  Symbol.with_pattern c pattern init = Ok s →
  ∃ grid X,
    Symbol._get_all_sticks c = Ok grid
    ∧ s = init (StickCollection.mk X)
    ∧ X ⊆ StickCollection.sticks grid
    ∧ ∀ stick, stick ∈ X ↔
        ∃ row_id col_id ch l,
          cell_read (StickCollection.sticks grid) pattern row_id col_id ch
          ∧ Symbol.pattern_value_sticks row_id col_id ch = Some l ∧ stick ∈ l.
Proof.
  unfold Symbol.with_pattern.
  destruct (Symbol._get_all_sticks c) as [grid| |]; simpl; try done.
  assert (list_to_set (StickCollection.__iter__ grid) = StickCollection.sticks grid) as ->.
  { unfold StickCollection.__iter__. apply set_eq. intros x.
    by rewrite elem_of_list_to_set, elem_of_elements. }
  set (all := StickCollection.sticks grid).
  pose proof (with_pattern_rows_spec pattern (Symbol.all_cols all)
                (zip (Symbol.all_rows all) pattern) ∅) as Hrows.
  simpl in Hrows.
  destruct (Symbol.with_pattern_rows pattern (Symbol.all_cols all)
              (zip (Symbol.all_rows all) pattern) ∅) as [sticks|e|]; simpl; try done.
  destruct Hrows as [_ H2].
  destruct (decide (sticks ∖ all ≠ ∅)) as [Hne|He]; [done|].
  intros [= <-]. exists grid, sticks. split; [done|]. split; [done|]. split.
  - intros x Hx. destruct (decide (x ∈ all)) as [|Hn]; [done|].
    exfalso. apply He. intros Hempty.
    assert (x ∈ sticks ∖ all) as Hd by (by apply elem_of_difference).
    rewrite Hempty in Hd. by apply not_elem_of_empty in Hd.
  - intros stick. rewrite H2. split.
    + intros [H|(r & rp & c' & ch & l & Hr & Hc & Hl & Hin)].
      { by apply not_elem_of_empty in H. }
      exists r, c', ch, l. split; [|done]. apply cell_read_zip. eauto.
    + intros (r & c' & ch & l & (rp & Hr & Hc)%cell_read_zip & Hl & Hin).
      right. eauto 10.
Qed.

Local Open Scope string_scope.

Lemma with_pattern_result_witness :
  ∃ grid X,
    Symbol._get_all_sticks Symbol.Operator = Ok grid
    ∧ minus = Symbol.__init__ Symbol.Operator (StickCollection.mk X)
                (Some "-") (Some "minus") None
    ∧ X ⊆ StickCollection.sticks grid
    ∧ ∀ stick, stick ∈ X ↔
        ∃ row_id col_id ch l,
          cell_read (StickCollection.sticks grid) ["_"; " "; " "; " "] row_id col_id ch
          ∧ Symbol.pattern_value_sticks row_id col_id ch = Some l ∧ stick ∈ l.
Proof.
  apply (with_pattern_result Symbol.Operator ["_"; " "; " "; " "]
           (λ sticks, Symbol.__init__ Symbol.Operator sticks (Some "-") (Some "minus") None)
           minus).
  vm_compute. reflexivity.
Defined.

Local Close Scope string_scope.

(** ** The maps of the catalog *)

Section DictMembers.
Context {A : Type} (eqb : A → A → bool).
Implicit Types (d : list (A * list A)).

Lemma elem_of_pydict_setdefault {V : Type} (d : list (A * V)) k v k' s :
  (k', s) ∈ pydict_setdefault eqb d k v → (k', s) ∈ d ∨ (k' = k ∧ s = v).
Proof.
  unfold pydict_setdefault. destruct (pydict_get eqb d k); [by left|].
  intros [H|H]%elem_of_app; [by left|].
  apply list_elem_of_singleton in H as [= -> ->]. by right.
Qed.

Lemma elem_of_pydict_update {V : Type} (d : list (A * V)) k f k' s' :
  (k', s') ∈ pydict_update eqb d k f → (k', s') ∈ d ∨ ∃ s, (k', s) ∈ d ∧ s' = f s.
Proof.
  induction d as [|[k0 v0] d IH]; simpl; [by left|].
  destruct (eqb k0 k).
  - intros [[= -> ->]|H]%elem_of_cons.
    + right. exists v0. split; [left|done].
    + left. by right.
  - intros [[= -> ->]|H]%elem_of_cons; [left; left|].
    destruct (IH H) as [H'|(s & H' & ->)]; [left; by right|].
    right. exists s. split; [by right|done].
Qed.

Lemma pydict_get_elem {V : Type} (d : list (A * V)) x v :
  pydict_get eqb d x = Some v → ∃ k, (k, v) ∈ d ∧ eqb k x = true.
Proof.
  induction d as [|[k0 v0] d IH]; simpl; [done|].
  destruct (eqb k0 x) eqn:Hk.
  - intros [= ->]. exists k0. split; [left|done].
  - intros (k & Hk' & He)%IH. exists k. split; [by right|done].
Qed.

Lemma elem_of_pyset_add s x y :
  y ∈ pyset_add eqb s x → y ∈ s ∨ y = x.
Proof.
  unfold pyset_add. destruct (pyset_contains eqb s x); [by left|].
  intros [H|H]%elem_of_app; [by left|]. apply list_elem_of_singleton in H. by right.
Qed.

Lemma dict_invariant_fill (K : A → Prop) (Q : list A → Prop) d k outs :
  dict_invariant K Q d → K k → Q [] →
  (∀ o s, o ∈ outs → Q s → Q (pyset_add eqb s o)) →
  dict_invariant K Q (fill eqb d k outs).
Proof.
  intros Hd Hk Hnil Houts. unfold fill.
  assert (dict_invariant K Q (pydict_setdefault eqb d k [])) as Hd'.
  { intros k' s [H|[-> ->]]%elem_of_pydict_setdefault; [by apply Hd|done]. }
  generalize dependent (pydict_setdefault eqb d k []). clear d Hd.
  induction outs as [|o outs IH]; intros d Hd; simpl; [done|].
  apply IH.
  - intros o' s Ho'. apply Houts. by right.
  - intros k' s' [H|(s & H & ->)]%elem_of_pydict_update; [by apply Hd|].
    destruct (Hd k' s H) as [Hk' Hs]. split; [done|]. apply Houts; [left|done].
Qed.

Lemma dict_invariant_build (K : A → Prop) (Q : list A → Prop) outs l d :
  dict_invariant K Q d → Q [] →
  (∀ k, k ∈ l → K k ∧ ∀ o s, o ∈ outs k → Q s → Q (pyset_add eqb s o)) →
  dict_invariant K Q (build eqb outs l d).
Proof.
  unfold build. revert d. induction l as [|k l IH]; intros d Hd Hnil Hl; simpl; [done|].
  apply IH; [|done|].
  - destruct (Hl k) as [Hk Ho]; [left|]. by apply dict_invariant_fill.
  - intros k' Hk'. apply Hl. by right.
Qed.
End DictMembers.

Section CatalogMembers.
Variable alphabet : list Symbol.t.

Lemma addition_outs_alphabet k o : o ∈ addition_outs alphabet k → o ∈ alphabet.
Proof.
  unfold addition_outs. intros H%list_elem_of_In%filter_In.
  apply list_elem_of_In. tauto.
Qed.

Lemma removal_outs_alphabet k o : o ∈ removal_outs alphabet k → o ∈ alphabet.
Proof.
  unfold removal_outs. intros H%list_elem_of_In%filter_In.
  apply list_elem_of_In. tauto.
Qed.

Lemma move_outs_alphabet k o : o ∈ move_outs alphabet k → o ∈ alphabet.
Proof.
  unfold move_outs. intros (i & H%list_elem_of_In%filter_In & _)%list_elem_of_bind.
  apply list_elem_of_In. tauto.
Qed.

Lemma catalog_dict_invariant :
  let catalog := SymbolCollection.__init__ alphabet in
  let inv := dict_invariant (λ k, k ∈ alphabet)
               (λ s, (∀ o, o ∈ s → o ∈ alphabet) ∧ distinct_for Symbol.__eq__ s) in
  inv (SymbolCollection.reachable_with_addition_by_symbol catalog)
  ∧ inv (SymbolCollection.reachable_with_removal_by_symbol catalog)
  ∧ inv (SymbolCollection.reachable_with_move_by_symbol catalog).
Proof.
  cbv zeta. destruct (init_spec alphabet) as (_ & -> & -> & ->).
  set (inv := dict_invariant (λ k, k ∈ alphabet)
               (λ s, (∀ o, o ∈ s → o ∈ alphabet) ∧ distinct_for Symbol.__eq__ s)).
  assert (inv []) as Hd.
  { intros k s H. inversion H. }
  assert ((∀ o : Symbol.t, o ∈ [] → o ∈ alphabet) ∧ distinct_for Symbol.__eq__ [])
    as Hnil.
  { split; [intros o H; inversion H|]. intros i j x y Hi. by rewrite lookup_nil in Hi. }
  assert (∀ o s, o ∈ alphabet →
            (∀ o', o' ∈ s → o' ∈ alphabet) ∧ distinct_for Symbol.__eq__ s →
            (∀ o', o' ∈ pyset_add Symbol.__eq__ s o → o' ∈ alphabet)
            ∧ distinct_for Symbol.__eq__ (pyset_add Symbol.__eq__ s o)) as Hadd.
  { intros o s Ho [Hs Hdis]. split.
    - intros o' [Ho'| ->]%elem_of_pyset_add; [by apply Hs|done].
    - by apply distinct_for_add; [apply Symbol_eq_sym|]. }
  split; [|split].
  - apply dict_invariant_build; [done..|]. intros k Hk. split; [done|].
    intros o s Ho%addition_outs_alphabet. by apply Hadd.
  - apply dict_invariant_build; [done..|]. intros k Hk. split; [done|].
    intros o s Ho%removal_outs_alphabet. by apply Hadd.
  - apply dict_invariant_build; [done..|]. intros k Hk. split; [done|].
    intros o s Ho%move_outs_alphabet. by apply Hadd.
Qed.

Lemma catalog_is_key x :
  let catalog := SymbolCollection.__init__ alphabet in
  is_key (SymbolCollection.reachable_with_addition_by_symbol catalog) x
  = pyset_contains Symbol.__eq__ alphabet x
  ∧ is_key (SymbolCollection.reachable_with_removal_by_symbol catalog) x
    = pyset_contains Symbol.__eq__ alphabet x
  ∧ is_key (SymbolCollection.reachable_with_move_by_symbol catalog) x
    = pyset_contains Symbol.__eq__ alphabet x.
Proof.
  cbv zeta. unfold is_key. destruct (init_spec alphabet) as (_ & -> & -> & ->).
  repeat split.
  - by destruct (build_spec Symbol.__eq__ Symbol_eq_refl Symbol_eq_sym Symbol_eq_trans
                (addition_outs alphabet) alphabet [] x x) as [-> _].
  - by destruct (build_spec Symbol.__eq__ Symbol_eq_refl Symbol_eq_sym Symbol_eq_trans
                (removal_outs alphabet) alphabet [] x x) as [-> _].
  - by destruct (build_spec Symbol.__eq__ Symbol_eq_refl Symbol_eq_sym Symbol_eq_trans
                (move_outs alphabet) alphabet [] x x) as [-> _].
Qed.

Lemma in_alphabet_eq x :
  pyset_contains Symbol.__eq__ alphabet x = true
  ↔ ∃ k, k ∈ alphabet ∧ Symbol.__eq__ k x = true.
Proof. apply pyset_contains_elem. Qed.
End CatalogMembers.

(** X11: in a constructed catalog, [y] is in the addition map of [x]
    exactly when the alphabet has symbols equal to [x] and to [y] and [y] is
    reachable from [x]; and [y] is in the removal map of [x] exactly when the
    alphabet has both and [x] is reachable from [y]. *)
Theorem addition_and_removal_maps (alphabet : list Symbol.t) (x y : Symbol.t) :
  let catalog := SymbolCollection.__init__ alphabet in
  (in_map (SymbolCollection.reachable_with_addition_by_symbol catalog) x y = true
   ↔ pyset_contains Symbol.__eq__ alphabet x = true
     ∧ pyset_contains Symbol.__eq__ alphabet y = true
     ∧ Symbol.is_reachable_from y x = true)
  ∧ (in_map (SymbolCollection.reachable_with_removal_by_symbol catalog) x y = true
     ↔ pyset_contains Symbol.__eq__ alphabet x = true
       ∧ pyset_contains Symbol.__eq__ alphabet y = true
       ∧ Symbol.is_reachable_from x y = true).
Proof.
  intros catalog. unfold catalog. rewrite in_addition_map, in_removal_map.
  rewrite !in_alphabet_eq. split; split.
  - intros (k & o & Hk & Ho & Hkx & Hoy & Hr). split; [eauto|]. split; [eauto|].
    by rewrite <- (is_reachable_from_proper o y k x).
  - intros ((k & Hk & Hkx) & (o & Ho & Hoy) & Hr). exists k, o.
    by rewrite (is_reachable_from_proper o y k x).
  - intros (k & o & Hk & Ho & Hkx & Hoy & Hr). split; [eauto|]. split; [eauto|].
    by rewrite <- (is_reachable_from_proper k x o y).
  - intros ((k & Hk & Hkx) & (o & Ho & Hoy) & Hr). exists k, o.
    by rewrite (is_reachable_from_proper k x o y).
Qed.

(** X12: a constructed catalog iterates over its alphabet; the keys of
    its three maps are the symbols that the alphabet has an equal of; every
    key and every member of every set stored in the maps is a symbol of the
    alphabet itself; and no set holds two equal symbols. *)
Theorem catalog_maps_hold_alphabet_symbols (alphabet : list Symbol.t) (x : Symbol.t) :
  let catalog := SymbolCollection.__init__ alphabet in
  let maps := [SymbolCollection.reachable_with_addition_by_symbol catalog;
               SymbolCollection.reachable_with_removal_by_symbol catalog;
               SymbolCollection.reachable_with_move_by_symbol catalog] in
  SymbolCollection.__iter__ catalog = alphabet
  ∧ Forall (λ m, is_key m x = pyset_contains Symbol.__eq__ alphabet x) maps
  ∧ Forall (dict_invariant (λ k, k ∈ alphabet)
              (λ s, (∀ o, o ∈ s → o ∈ alphabet) ∧ distinct_for Symbol.__eq__ s)) maps.
Proof.
  intros catalog maps.
  destruct (catalog_is_key alphabet x) as (H1 & H2 & H3).
  destruct (catalog_dict_invariant alphabet) as (H4 & H5 & H6).
  unfold maps, catalog. cbv zeta in *.
  split; [by destruct (init_spec alphabet) as [? _]|].
  split; (apply Forall_cons; split; [assumption|]);
    (apply Forall_cons; split; [assumption|]);
    (apply Forall_cons; split; [assumption|]); constructor.
Qed.

Section MoveMap.
Variable alphabet : list Symbol.t.

Lemma in_move_map_sym x y :
  in_map (SymbolCollection.reachable_with_move_by_symbol (SymbolCollection.__init__ alphabet)) x y = true →
  in_map (SymbolCollection.reachable_with_move_by_symbol (SymbolCollection.__init__ alphabet)) y x = true.
Proof.
  rewrite !in_move_map. intros (k & o & i & Hk & Ho & Hkx & Hoy & Hi & Hr).
  pose proof (reachable_removal_set o i Hr) as (i' & Hi' & He)%pyset_contains_elem.
  exists o, k, i'. repeat split; try done.
  rewrite (is_reachable_from_proper k k i' i); [by apply removal_set_reachable| |done].
  apply Symbol_eq_refl.
Qed.
End MoveMap.

(** X13: the move map of a constructed catalog is symmetric: [y] is in
    the set of [x] exactly when [x] is in the set of [y]. *)
Theorem move_map_symmetric (alphabet : list Symbol.t) (x y : Symbol.t) :
  let moves := SymbolCollection.reachable_with_move_by_symbol
                 (SymbolCollection.__init__ alphabet) in
  in_map moves x y = in_map moves y x.
Proof.
  intros moves. apply eq_true_iff_eq. split; apply in_move_map_sym.
Qed.

(** X14: in a constructed catalog a removal followed by an addition is a
    move: when [z] is in the removal map of [x] and [y] in the addition map
    of [z], then [y] is in the move map of [x]. *)
Theorem removal_then_addition_is_move (alphabet : list Symbol.t) (x y z : Symbol.t) :
  let catalog := SymbolCollection.__init__ alphabet in
  in_map (SymbolCollection.reachable_with_removal_by_symbol catalog) x z = true →
  in_map (SymbolCollection.reachable_with_addition_by_symbol catalog) z y = true →
  in_map (SymbolCollection.reachable_with_move_by_symbol catalog) x y = true.
Proof.
  intros catalog. unfold catalog.
  rewrite in_removal_map, in_addition_map, in_move_map.
  intros (k & o & Hk & Ho & Hkx & Hoz & Hr) (k' & o' & Hk' & Ho' & Hkz & Hoy & Hr').
  assert (Symbol.is_reachable_from k z = true) as Hkz'.
  { rewrite <- (is_reachable_from_proper k k o z); [done| |done]. apply Symbol_eq_refl. }
  pose proof (reachable_removal_set k z Hkz') as (i & Hi & He)%pyset_contains_elem.
  exists k, o', i. repeat split; try done.
  rewrite (is_reachable_from_proper o' o' i k'); [done|apply Symbol_eq_refl|].
  eapply Symbol_eq_trans; [exact He|]. by rewrite Symbol_eq_sym.
Qed.

Lemma removal_then_addition_is_move_witness :
  in_map (SymbolCollection.reachable_with_move_by_symbol
            (SymbolCollection.__init__ [plus_b; minus; eq_a])) plus_b eq_a = true.
Proof.
  apply (removal_then_addition_is_move [plus_b; minus; eq_a] plus_b eq_a minus);
    vm_compute; reflexivity.
Defined.

(** ** Expressions *)

(** X15: [substitute_symbol] raises [IndexError] exactly when the index
    is past the end; otherwise it returns an expression of the same length
    that has the new symbol at the index and the old symbols everywhere
    else. *)
Theorem substitute_symbol_spec (self : Expression.t) (new_symbol : Symbol.t) (index : nat) :
  match Expression.substitute_symbol self new_symbol index with
  | Ok e =>
      (index < length (Expression.symbols self))%nat
      ∧ length (Expression.symbols e) = length (Expression.symbols self)
      ∧ Expression.symbols e !! index = Some new_symbol
      ∧ ∀ j, j ≠ index → Expression.symbols e !! j = Expression.symbols self !! j
  | Raise exn => exn = IndexError ∧ (length (Expression.symbols self) ≤ index)%nat
  | Undefined => False
  end.
Proof.
  unfold Expression.substitute_symbol.
  destruct (decide (index < length (Expression.symbols self))%nat) as [Hlt|Hge]; simpl.
  - split; [done|]. split; [by rewrite length_insert|]. split.
    + by apply list_lookup_insert_eq.
    + intros j Hj. by apply list_lookup_insert_ne.
  - split; [done|lia].
Qed.

(** X16: substituting twice at one index keeps the second symbol only;
    substitutions at two different indices can be done in either order; and
    substituting the symbol that was there gives the expression back. *)
Theorem substitute_symbol_algebra (self : Expression.t) (a b : Symbol.t) (i j : nat) :
  (e ← Expression.substitute_symbol self a i; Expression.substitute_symbol e b i)
  = Expression.substitute_symbol self b i
  ∧ (i ≠ j →
     (e ← Expression.substitute_symbol self a i; Expression.substitute_symbol e b j)
     = (e ← Expression.substitute_symbol self b j; Expression.substitute_symbol e a i))
  ∧ (Expression.symbols self !! i = Some a →
     Expression.substitute_symbol self a i = Ok self).
Proof.
  unfold Expression.substitute_symbol. destruct self as [l]. simpl.
  split; [|split].
  - destruct (decide (i < length l)%nat); simpl; [|done].
    rewrite length_insert. destruct (decide (i < length l)%nat); [|done].
    by rewrite list_insert_insert_eq.
  - intros Hne.
    destruct (decide (i < length l)%nat), (decide (j < length l)%nat); simpl;
      rewrite ?length_insert;
      repeat (destruct (decide _); try lia); try done.
    by rewrite list_insert_insert_ne.
  - intros Hi. destruct (decide (i < length l)%nat) as [|Hge].
    + by rewrite list_insert_id.
    + apply lookup_lt_Some in Hi. lia.
Qed.

Section Code.
Lemma string_append_assoc (a b c : string) : (a +:+ b) +:+ c = a +:+ (b +:+ c).
Proof.
  induction a as [|ch a IH]; [done|].
  change (String ch ((a +:+ b) +:+ c) = String ch (a +:+ (b +:+ c))).
  by rewrite IH.
Qed.

Lemma join_app l1 l2 :
  Expression.join (l1 ++ l2)
  = (c1 ← Expression.join l1; c2 ← Expression.join l2; Ok (c1 +:+ c2)).
Proof.
  induction l1 as [|[s|] l1 IH]; simpl.
  - by destruct (Expression.join l2).
  - rewrite IH. destruct (Expression.join l1) as [c1| |]; simpl; [|done..].
    destruct (Expression.join l2) as [c2| |]; simpl; [|done..].
    by rewrite string_append_assoc.
  - done.
Qed.

Lemma join_outcome l :
  match Expression.join l with
  | Ok _ => Forall is_Some l
  | Raise e => e = TypeError ∧ None ∈ l
  | Undefined => False
  end.
Proof.
  induction l as [|[s|] l IH]; simpl.
  - constructor.
  - destruct (Expression.join l) as [c| |]; simpl; [|by destruct IH as [-> ?]; split; [|right]|done].
    constructor; [eauto|done].
  - split; [done|left].
Qed.
End Code.

(** X17: the code of an expression is the concatenation of the codes of
    its parts, and so is its display code; [code] raises [TypeError] exactly
    when some symbol has no code (as the intermediate symbols of
    [removal_set] do), and returns a string otherwise. *)
Theorem code_concatenates (l1 l2 : list Symbol.t) :
  Expression.code (Expression.mk (l1 ++ l2))
  = (c1 ← Expression.code (Expression.mk l1);
     c2 ← Expression.code (Expression.mk l2); Ok (c1 +:+ c2))
  ∧ Expression.display_code (Expression.mk (l1 ++ l2))
    = Expression.display_code (Expression.mk l1)
      +:+ Expression.display_code (Expression.mk l2)
  ∧ (Expression.code (Expression.mk l1) = Raise TypeError
     ↔ ∃ s, s ∈ l1 ∧ Symbol.code s = None)
  ∧ (Expression.code (Expression.mk l1) = Raise TypeError
     ∨ ∃ c, Expression.code (Expression.mk l1) = Ok c).
Proof.
  unfold Expression.code, Expression.display_code. simpl.
  split; [by rewrite fmap_app, join_app|]. split.
  { induction l1 as [|s l1 IH]; simpl; [done|]. by rewrite IH, string_append_assoc. }
  pose proof (join_outcome (Symbol.code <$> l1)) as H.
  destruct (Expression.join (Symbol.code <$> l1)) as [c|e|]; [| |done].
  - split; [|right; eauto]. split; [done|].
    intros (s & Hs & Hc). rewrite Forall_forall in H.
    destruct (H (Symbol.code s)) as [? Hsome]; [|congruence].
    apply list_elem_of_fmap. eauto.
  - destruct H as [-> H]. split; [|by left]. split; [|done]. intros _.
    apply list_elem_of_fmap in H as (s & Hc & Hs). eauto.
Qed.

Section Outcome.
Implicit Types (self exp : Expression.t).

Lemma evaluate_code_outcome self :
  Forall catalog_token (Expression.symbols self) →
  ∃ c, Expression.code self = Ok c
       ∧ (Expression.evaluate_code self = Raise (ValueError (ArgStr c))
          ∨ ∃ v, Expression.evaluate_code self = Ok v).
Proof.
  intros Htok. unfold Expression.evaluate_code, Expression.code.
  destruct (catalog_tokens_code _ Htok) as [c Hc]. rewrite Hc. simpl.
  exists c. split; [done|].
  unfold eval. destruct (code_counts _ c Htok Hc) as [_ ->].
  destruct (tokenize [] (list_ascii_of_string c) ≫= parse []); [right; eauto|by left].
Qed.

Lemma and_all_outcome (ev : Expression.t → result PyVal) exps b :
  Forall (λ exp, (∃ b', ev exp = Ok (VBool b'))
                 ∨ ∃ c, Expression.code exp = Ok c
                        ∧ ev exp = Raise (ValueError (ArgStr c))) exps →
  (∃ b', Expression.and_all ev (VBool b) exps = Ok (VBool b'))
  ∨ ∃ exp c, exp ∈ exps ∧ Expression.code exp = Ok c
             ∧ Expression.and_all ev (VBool b) exps = Raise (ValueError (ArgStr c)).
Proof.
  intros H. revert b. induction H as [|exp exps He _ IH]; intros b; simpl.
  - left. eauto.
  - destruct b; simpl.
    + destruct He as [[b' ->]|(c & Hc & ->)]; simpl.
      * destruct (IH b') as [?|(exp' & c & Hin & Hc & Hr)]; [by left|].
        right. exists exp', c. split; [by right|done].
      * right. exists exp, c. split; [left|done].
    + destruct (IH false) as [?|(exp' & c & Hin & Hc & Hr)]; [by left|].
      right. exists exp', c. split; [by right|done].
Qed.

Lemma pairwise_subexpressions_tokens self :
  Forall catalog_token (Expression.symbols self) →
  Forall (λ exp, Forall catalog_token (Expression.symbols exp))
         (pairwise_subexpressions self).
Proof.
  intros Htok. unfold pairwise_subexpressions.
  destruct (operand_groups (Expression.symbols self)) as [g rest] eqn:Hgr.
  apply operand_groups_spec in Hgr as (Hl & _ & _).
  apply adjacent_pairs_Forall. by rewrite <- Hl.
Qed.

Lemma evaluate_cases self :
  Forall catalog_token (Expression.symbols self) →
  match Expression.evaluate self with
  | Ok (VInt _) => length (Expression.equality_operators self) = 0%nat
  | Ok (VBool _) => (0 < length (Expression.equality_operators self))%nat
  | Raise e =>
      ∃ exp c,
        (exp = self
         ∨ (1 < length (Expression.equality_operators self))%nat
           ∧ exp ∈ Expression.equality_subexpressions self)
        ∧ Expression.code exp = Ok c ∧ e = ValueError (ArgStr c)
  | Undefined => False
  end.
Proof.
  intros Htok.
  destruct (decide (1 < length (Expression.equality_operators self))%nat) as [Hn|Hn].
  - rewrite evaluate_chain by done.
    rewrite equality_subexpressions_pairwise by lia.
    destruct (and_all_outcome Expression.evaluate (pairwise_subexpressions self) true)
      as [[b' ->]|(exp & c & Hin & Hc & ->)].
    + pose proof (pairwise_subexpressions_one_sign self) as H1.
      pose proof (pairwise_subexpressions_tokens self Htok) as H2.
      rewrite Forall_forall in *. intros exp Hexp.
      specialize (H1 exp Hexp). specialize (H2 exp Hexp). simpl in H1.
      rewrite evaluate_leaf by lia.
      destruct (evaluate_code_outcome exp H2) as (c & Hc & [Hr|[v Hv]]).
      * right. eauto.
      * left. rewrite <- evaluate_leaf in Hv by lia.
        destruct (evaluate_one_sign_bool exp v H2 H1 Hv) as [b ->].
        rewrite <- evaluate_leaf by lia. eauto.
    + lia.
    + exists exp, c. split; [right|]; done.
  - destruct (evaluate_code_outcome self Htok) as (c & Hc & [Hr|[v Hv]]).
    + rewrite evaluate_leaf by lia. rewrite Hr. exists self, c. split; [by left|done].
    + rewrite <- evaluate_leaf in Hv by lia. rewrite Hv.
      destruct (decide (length (Expression.equality_operators self) = 0%nat)) as [H0|H0].
      * by destruct (evaluate_no_sign_int self v Htok H0 Hv) as [z ->].
      * assert (length (Expression.equality_operators self) = 1%nat) as H1 by lia.
        destruct (evaluate_one_sign_bool self v Htok H1 Hv) as [b ->]. lia.
Qed.
End Outcome.

(** X18: on catalog tokens [evaluate] returns an integer when the
    expression has no equality sign and a boolean when it has one or more,
    or raises [ValueError] with the code of the expression, or of the
    sub-expression of a chain, that is not valid; it raises nothing else. *)
Theorem evaluate_outcome (self : Expression.t) :
  Forall catalog_token (Expression.symbols self) →
  match Expression.evaluate self with
  | Ok (VInt _) => length (Expression.equality_operators self) = 0%nat
  | Ok (VBool _) => (0 < length (Expression.equality_operators self))%nat
  | Raise e =>
      ∃ exp c,
        (exp = self
         ∨ (1 < length (Expression.equality_operators self))%nat
           ∧ exp ∈ Expression.equality_subexpressions self)
        ∧ Expression.code exp = Ok c ∧ e = ValueError (ArgStr c)
  | Undefined => False
  end.
Proof. apply evaluate_cases. Qed.

Lemma evaluate_outcome_witness :
  match Expression.evaluate (Expression.mk [one_a; plus_b; eq_a; two; eq_a; two]) with
  | Ok (VInt _) =>
      length (Expression.equality_operators
                (Expression.mk [one_a; plus_b; eq_a; two; eq_a; two])) = 0%nat
  | Ok (VBool _) =>
      (0 < length (Expression.equality_operators
                     (Expression.mk [one_a; plus_b; eq_a; two; eq_a; two])))%nat
  | Raise e =>
      ∃ exp c,
        (exp = Expression.mk [one_a; plus_b; eq_a; two; eq_a; two]
         ∨ (1 < length (Expression.equality_operators
                          (Expression.mk [one_a; plus_b; eq_a; two; eq_a; two])))%nat
           ∧ exp ∈ Expression.equality_subexpressions
                     (Expression.mk [one_a; plus_b; eq_a; two; eq_a; two]))
        ∧ Expression.code exp = Ok c ∧ e = ValueError (ArgStr c)
  | Undefined => False
  end.
Proof.
  apply (evaluate_outcome (Expression.mk [one_a; plus_b; eq_a; two; eq_a; two])).
  repeat (apply Forall_cons; split); [..|constructor]; vm_compute; auto.
Defined.

Section Shorter.
Lemma flatten_cons g e g' rest :
  flatten g ((e, g') :: rest) = g ++ e :: flatten g' rest.
Proof. reflexivity. Qed.

Lemma length_flatten_ge g rest :
  (length g + length rest ≤ length (flatten g rest))%nat.
Proof.
  revert g. induction rest as [|[e g'] rest IH]; intros g.
  - unfold flatten. rewrite length_app. simpl. lia.
  - rewrite flatten_cons, length_app. cbn [length]. specialize (IH g'). lia.
Qed.

Lemma length_adjacent_pairs_le g rest exp :
  exp ∈ adjacent_pairs g rest →
  (length (Expression.symbols exp) + length rest ≤ S (length (flatten g rest)))%nat.
Proof.
  revert g. induction rest as [|[e g'] rest IH]; intros g.
  - intros H. inversion H.
  - rewrite flatten_cons, length_app. cbn [length adjacent_pairs].
    intros [->|H]%elem_of_cons.
    + cbn [Expression.symbols]. rewrite length_app. cbn [length].
      pose proof (length_flatten_ge g' rest). lia.
    + apply IH in H. lia.
Qed.

Lemma adjacent_pairs_subseteq g rest exp :
  exp ∈ adjacent_pairs g rest → Expression.symbols exp ⊆ flatten g rest.
Proof.
  revert g. induction rest as [|[e g'] rest IH]; intros g.
  - intros H. inversion H.
  - rewrite flatten_cons. cbn [adjacent_pairs]. intros [->|H]%elem_of_cons.
    + cbn [Expression.symbols]. intros x. rewrite !elem_of_app, !elem_of_cons.
      intros [?|[?|Hx]]; [tauto|tauto|]. right. right.
      destruct rest as [|[e1 g1] rest].
      * unfold flatten. simpl. by rewrite app_nil_r.
      * rewrite flatten_cons. apply elem_of_app. by left.
    + intros x Hx. apply (IH g' H) in Hx. rewrite elem_of_app, elem_of_cons. tauto.
Qed.
End Shorter.

(** X19: every sub-expression that [evaluate] recurses on is made of
    symbols of the chain and is strictly shorter than the chain: with [n > 1]
    equality signs it is at least [n - 1] symbols shorter. *)
Theorem equality_subexpressions_shorter (self exp : Expression.t) :
  (1 < length (Expression.equality_operators self))%nat →
  exp ∈ Expression.equality_subexpressions self →
  (length (Expression.symbols exp) + length (Expression.equality_operators self)
   ≤ S (length (Expression.symbols self)))%nat
  ∧ (length (Expression.symbols exp) < length (Expression.symbols self))%nat
  ∧ Expression.symbols exp ⊆ Expression.symbols self.
Proof.
  intros Hn. rewrite equality_subexpressions_pairwise by lia.
  rewrite <- length_pairwise_subexpressions in *.
  unfold pairwise_subexpressions in *.
  destruct (operand_groups (Expression.symbols self)) as [g rest] eqn:Hgr.
  apply operand_groups_spec in Hgr as (Hl & _ & _). rewrite Hl.
  rewrite length_adjacent_pairs in *. intros Hexp.
  pose proof (length_adjacent_pairs_le g rest exp Hexp) as Hle.
  split; [done|]. split; [lia|]. by apply adjacent_pairs_subseteq.
Qed.

Lemma equality_subexpressions_shorter_witness :
  (length [two; eq_a; two] < length [two; eq_a; two; eq_a; three])%nat.
Proof.
  refine (proj1 (proj2 (equality_subexpressions_shorter
            (Expression.mk [two; eq_a; two; eq_a; three])
            (Expression.mk [two; eq_a; two]) _ _))).
  - vm_compute. lia.
  - assert (Expression.equality_subexpressions (Expression.mk [two; eq_a; two; eq_a; three])
            = [Expression.mk [two; eq_a; two]; Expression.mk [two; eq_a; three]]) as ->
      by (vm_compute; reflexivity).
    left.
Defined.

(** ** The search loops *)

Section Loops.
Context {A S : Type}.
Implicit Types (l : list A) (body : S → A → result S).

Lemma for_each_invariant_in (P : S → Prop) l body (s s' : S) :
  (∀ s x s', x ∈ l → P s → body s x = Ok s' → P s') →
  P s → for_each l body s = Ok s' → P s'.
Proof.
  revert s. induction l as [|x l IH]; intros s Hbody Hs; simpl.
  - by intros [= <-].
  - destruct (body s x) as [s1| |] eqn:Hb; simpl; try done.
    apply IH.
    + intros s0 y s0' Hy. apply Hbody. by right.
    + eapply Hbody; [left|done..].
Qed.

Lemma for_each_mono (R : S → S → Prop) `{!PreOrder R} l body (s s' : S) :
  (∀ s x s', body s x = Ok s' → R s s') →
  for_each l body s = Ok s' → R s s'.
Proof.
  intros Hbody. revert s. induction l as [|x l IH]; intros s; simpl.
  - by intros [= <-].
  - destruct (body s x) as [s1| |] eqn:Hb; simpl; try done.
    intros H. etrans; [by eapply Hbody|by apply IH].
Qed.

(** A loop that has returned has run its body on each element, and what
    the body returned then is below the final state. *)
Lemma for_each_elem (R : S → S → Prop) `{!PreOrder R} l body (s s' : S) x :
  (∀ s x s', body s x = Ok s' → R s s') →
  for_each l body s = Ok s' → x ∈ l →
  ∃ s1 s2, body s1 x = Ok s2 ∧ R s2 s'.
Proof.
  intros Hbody. revert s. induction l as [|y l IH]; intros s; simpl.
  - intros _ H. inversion H.
  - destruct (body s y) as [s1| |] eqn:Hb; simpl; try done.
    intros Hl [->|Hx]%elem_of_cons.
    + exists s, s1. split; [done|]. by eapply for_each_mono.
    + by eapply IH.
Qed.

(** A loop whose body returns on every element returns. *)
Lemma for_each_returns (P : S → Prop) l body (s : S) :
  (∀ s x, x ∈ l → P s → ∃ s', body s x = Ok s' ∧ P s') →
  P s → ∃ s', for_each l body s = Ok s' ∧ P s'.
Proof.
  revert s. induction l as [|x l IH]; intros s Hbody Hs; simpl; [eauto|].
  destruct (Hbody s x) as (s1 & -> & Hs1); [left|done|]. simpl.
  apply IH; [|done]. intros s0 y Hy. apply Hbody. by right.
Qed.

(** A loop whose body returns or raises [e] returns or raises [e]. *)
Lemma for_each_returns_or_raises (e : PyExn) l body (s : S) :
  (∀ s x, x ∈ l → (∃ s', body s x = Ok s') ∨ body s x = Raise e) →
  (∃ s', for_each l body s = Ok s') ∨ for_each l body s = Raise e.
Proof.
  revert s. induction l as [|x l IH]; intros s Hbody; simpl; [eauto|].
  destruct (Hbody s x) as [[s1 ->]| ->]; [left| |by right]. simpl.
  apply IH. intros s0 y Hy. apply Hbody. by right.
Qed.
End Loops.

Section Enumerate.
Lemma elem_of_enumerate_nat {A : Type} (l : list A) i x :
  (i, x) ∈ enumerate_nat l ↔ l !! i = Some x.
Proof.
  unfold enumerate_nat. rewrite elem_of_lookup_imap. split.
  - by intros (i' & y & [= -> ->] & H).
  - intros H. eauto.
Qed.
End Enumerate.

#[global] Instance grows_preorder : PreOrder grows.
Proof.
  split.
  - by intros d i j a b.
  - intros d1 d2 d3 H12 H23 i j a b H. by apply H23, H12.
Qed.

Section Recording.
Implicit Types (d : Substitutions) (e : Expression.t) (a b : option string).

Lemma grows_record d i j a b e : grows d (record_substitution d i j a b e).
Proof.
  intros i' j' a' b' H.
  destruct (decide ((i, j, a, b) = (i', j', a', b'))) as [[= <- <- <- <-]|Hne].
  - rewrite recorded_record_eq. eauto.
  - by rewrite recorded_record_ne.
Qed.

(** What a call of [_test_substitution] that returns has done. *)
Lemma test_substitution_inv expression d i j s1 s2 d' :
  _test_substitution expression d i j s1 s2 = Ok d' →
  (i < length (Expression.symbols expression))%nat
  ∧ (j < length (Expression.symbols expression))%nat
  ∧ match Expression.evaluate (candidate_expression expression i j s1 s2) with
    | Ok (VBool true) =>
        d' = record_substitution d i j (Symbol.code s1) (Symbol.code s2)
               (candidate_expression expression i j s1 s2)
    | _ => d' = d
    end.
Proof.
  unfold _test_substitution, Expression.substitute_symbol, candidate_expression.
  destruct (decide (i < _)%nat) as [Hi|]; simpl; [|done].
  rewrite length_insert.
  destruct (decide (j < _)%nat) as [Hj|]; simpl; [|done].
  intros H. split; [done|]. split; [done|].
  destruct (Expression.evaluate _) as [[z|[]]|[]|]; try done; by injection H as <-.
Qed.

Lemma test_substitution_grows expression d i j s1 s2 d' :
  _test_substitution expression d i j s1 s2 = Ok d' → grows d d'.
Proof.
  intros (_ & _ & H)%test_substitution_inv.
  destruct (Expression.evaluate _) as [[z|[]]|[]|]; subst d'; try done.
  apply grows_record.
Qed.

Lemma from_candidates_empty symbols expression : from_candidates symbols expression ∅.
Proof. intros i j a b e. by rewrite recorded_empty. Qed.

Lemma test_substitution_from_candidates symbols expression d i j s1 s2 d' :
  candidate symbols expression i j s1 s2 →
  from_candidates symbols expression d →
  _test_substitution expression d i j s1 s2 = Ok d' →
  from_candidates symbols expression d'.
Proof.
  intros Hc Hd (_ & _ & H)%test_substitution_inv.
  destruct (Expression.evaluate _) as [[z|[]]|[]|]; subst d'; try done.
  intros i' j' a' b' e'.
  destruct (decide ((i, j, Symbol.code s1, Symbol.code s2) = (i', j', a', b')))
    as [[= <- <- <- <-]|Hne].
  - rewrite recorded_record_eq. intros [= <-]. eauto 10.
  - rewrite recorded_record_ne by done. apply Hd.
Qed.
End Recording.

Section SearchLoops.
Variables (symbols : SymbolCollection.t) (expression : Expression.t).

Lemma search_loops :
  search symbols expression
  = for_each (enumerate_nat (Expression.__iter__ expression))
      (source_body symbols expression) ∅.
Proof. reflexivity. Qed.
End SearchLoops.

Section SearchSound.
Variables (symbols : SymbolCollection.t) (expression : Expression.t).

Lemma pydict_getitem_Ok {A V : Type} (eqb : A → A → bool) (d : list (A * V)) k v :
  pydict_getitem eqb d k = Ok v ↔ pydict_get eqb d k = Some v.
Proof.
  unfold pydict_getitem. destruct (pydict_get eqb d k); split; try done; congruence.
Qed.

Lemma dest_body_from_candidates i src d p d' :
  Expression.symbols expression !! i = Some src →
  p ∈ enumerate_nat (Expression.__iter__ expression) →
  from_candidates symbols expression d →
  dest_body symbols expression i src d p = Ok d' →
  from_candidates symbols expression d'.
Proof.
  intros Hi Hp Hd. destruct p as [j dst]. apply elem_of_enumerate_nat in Hp.
  unfold Expression.__iter__ in Hp. unfold dest_body.
  destruct (decide (i = j)) as [<-|Hne].
  - destruct (pydict_getitem _ _ _) as [moves| |] eqn:Hm; simpl; try done.
    apply pydict_getitem_Ok in Hm.
    apply (for_each_invariant_in (from_candidates symbols expression)); [|done].
    intros d1 x d1' Hx Hd1. apply test_substitution_from_candidates; [|done].
    exists src, src. split; [done|]. split; [done|].
    destruct (decide (i = i)); [|done]. split; [|done]. by exists moves.
  - destruct (pydict_getitem _ (SymbolCollection.reachable_with_removal_by_symbol _) _)
      as [removals| |] eqn:Hr; simpl; try done.
    apply pydict_getitem_Ok in Hr.
    apply (for_each_invariant_in (from_candidates symbols expression)); [|done].
    intros d1 x d1' Hx Hd1.
    destruct (pydict_getitem _ _ _) as [additions| |] eqn:Ha; simpl; try done.
    apply pydict_getitem_Ok in Ha.
    apply (for_each_invariant_in (from_candidates symbols expression)); [|done].
    intros d2 y d2' Hy Hd2. apply test_substitution_from_candidates; [|done].
    exists src, dst. split; [done|]. split; [done|].
    destruct (decide (i = j)); [done|]. split; [by exists removals|by exists additions].
Qed.

Lemma search_from_candidates d :
  search symbols expression = Ok d → from_candidates symbols expression d.
Proof.
  rewrite search_loops.
  apply (for_each_invariant_in (from_candidates symbols expression));
    [|apply from_candidates_empty].
  intros d1 [i src] d1' Hp Hd1. apply elem_of_enumerate_nat in Hp.
  unfold source_body.
  apply (for_each_invariant_in (from_candidates symbols expression)); [|done].
  intros d2 p d2' Hp' Hd2. by apply dest_body_from_candidates.
Qed.

Lemma dest_body_grows i src d p d' :
  dest_body symbols expression i src d p = Ok d' → grows d d'.
Proof.
  destruct p as [j dst]. unfold dest_body. destruct (decide (i = j)).
  - destruct (pydict_getitem _ _ _) as [moves| |]; simpl; try done.
    apply (for_each_mono grows). intros d1 x d1'. apply test_substitution_grows.
  - destruct (pydict_getitem _ (SymbolCollection.reachable_with_removal_by_symbol _) _)
      as [removals| |]; simpl; try done.
    apply (for_each_mono grows). intros d1 x d1'.
    destruct (pydict_getitem _ _ _) as [additions| |]; simpl; try done.
    apply (for_each_mono grows). intros d2 y d2'. apply test_substitution_grows.
Qed.

Lemma source_body_grows d p d' :
  source_body symbols expression d p = Ok d' → grows d d'.
Proof.
  destruct p as [i src]. unfold source_body.
  apply (for_each_mono grows). intros d1 x d1'. apply dest_body_grows.
Qed.

Lemma test_substitution_records d i j s1 s2 d' :
  Expression.evaluate (candidate_expression expression i j s1 s2) = Ok (VBool true) →
  _test_substitution expression d i j s1 s2 = Ok d' →
  is_Some (recorded d' i j (Symbol.code s1) (Symbol.code s2)).
Proof.
  intros He (_ & _ & H)%test_substitution_inv. rewrite He in H. subst d'.
  rewrite recorded_record_eq. eauto.
Qed.

Lemma dest_body_records i src j dst d d' s1 s2 :
  Expression.symbols expression !! i = Some src →
  Expression.symbols expression !! j = Some dst →
  candidate symbols expression i j s1 s2 →
  Expression.evaluate (candidate_expression expression i j s1 s2) = Ok (VBool true) →
  dest_body symbols expression i src d (j, dst) = Ok d' →
  is_Some (recorded d' i j (Symbol.code s1) (Symbol.code s2)).
Proof.
  intros Hi Hj (src' & dst' & Hi' & Hj' & Hc) He.
  assert (src' = src) as -> by congruence. assert (dst' = dst) as -> by congruence.
  unfold dest_body. destruct (decide (i = j)) as [<-|Hne].
  - destruct Hc as [(moves & Hm & Hin) ->].
    apply pydict_getitem_Ok in Hm. rewrite Hm. simpl. intros Hloop.
    destruct (for_each_elem grows _ _ _ _ s1
                (λ d1 x d1', test_substitution_grows expression d1 i i x x d1')
                Hloop Hin) as (d1 & d2 & Ht & Hg).
    apply Hg. by eapply test_substitution_records.
  - destruct Hc as [(removals & Hr & Hin1) (additions & Ha & Hin2)].
    apply pydict_getitem_Ok in Hr. apply pydict_getitem_Ok in Ha.
    rewrite Hr. simpl. intros Hloop.
    assert (∀ d1 (x : Symbol.t) d1',
              (additions ← pydict_getitem Symbol.__eq__
                             (SymbolCollection.reachable_with_addition_by_symbol symbols)
                             dst;
               for_each additions
                 (λ valid_substitutions new_dest_symbol,
                    _test_substitution expression valid_substitutions i j x
                      new_dest_symbol) d1) = Ok d1' → grows d1 d1') as Hmono.
    { intros d1 x d1'. rewrite Ha. simpl.
      apply (for_each_mono grows). intros d2 y d2'. apply test_substitution_grows. }
    destruct (for_each_elem grows _ _ _ _ s1 Hmono Hloop Hin1) as (d1 & d2 & Hb & Hg).
    rewrite Ha in Hb. simpl in Hb.
    destruct (for_each_elem grows _ _ _ _ s2
                (λ d3 y d3', test_substitution_grows expression d3 i j s1 y d3')
                Hb Hin2) as (d3 & d4 & Ht & Hg').
    apply Hg, Hg'. by eapply test_substitution_records.
Qed.

Lemma search_records_candidate d i j s1 s2 :
  search symbols expression = Ok d →
  candidate symbols expression i j s1 s2 →
  Expression.evaluate (candidate_expression expression i j s1 s2) = Ok (VBool true) →
  is_Some (recorded d i j (Symbol.code s1) (Symbol.code s2)).
Proof.
  rewrite search_loops. intros Hs Hc He.
  pose proof Hc as (src & dst & Hi & Hj & _).
  apply elem_of_enumerate_nat in Hi as Hi'. apply elem_of_enumerate_nat in Hj as Hj'.
  destruct (for_each_elem grows _ _ _ _ _ source_body_grows Hs Hi')
    as (d1 & d2 & Hb & Hg).
  unfold source_body in Hb.
  destruct (for_each_elem grows _ _ _ _ _
              (λ d3 p d3', dest_body_grows i src d3 p d3') Hb Hj')
    as (d3 & d4 & Hb' & Hg').
  apply Hg, Hg'. by eapply dest_body_records.
Qed.

Lemma candidate_expression_code i j s1 s2 s1' s2' :
  Symbol.code s1 = Symbol.code s1' → Symbol.code s2 = Symbol.code s2' →
  Expression.code (candidate_expression expression i j s1 s2)
  = Expression.code (candidate_expression expression i j s1' s2').
Proof.
  intros H1 H2. unfold Expression.code, candidate_expression. simpl.
  by rewrite !list_fmap_insert, H1, H2.
Qed.
End SearchSound.

(** X20: every entry that the search has recorded under the indices [i]
    and [j] and the codes [a] and [b] is the puzzle with the symbol at [i]
    replaced and then the symbol at [j], by symbols that have these codes and
    that the loops draw from the catalog: one symbol from the move map of the
    symbol at [i] when [i = j], and otherwise one from the removal map of the
    symbol at [i] and one from the addition map of the symbol at [j]. *)
Theorem search_records_candidates_only
    (symbols : SymbolCollection.t) (expression : Expression.t)
    (d : Substitutions) (i j : nat) (a b : option string) (e : Expression.t) :
  search symbols expression = Ok d →
  recorded d i j a b = Some e →
  ∃ s1 s2, candidate symbols expression i j s1 s2
           ∧ a = Symbol.code s1 ∧ b = Symbol.code s2
           ∧ e = candidate_expression expression i j s1 s2.
Proof. intros Hs. by apply search_from_candidates. Qed.

(** X21: the search misses nothing: for every pair of symbols that the
    loops draw from the catalog for the indices [i] and [j], when the puzzle
    with the two replacements evaluates to [True], the mapping has an entry
    under [i], [j] and the codes of the two symbols, and the expression
    stored there has the same code; it may be one recorded later for other
    symbols with the same codes. *)
Theorem search_records_every_true_candidate
    (symbols : SymbolCollection.t) (expression : Expression.t)
    (d : Substitutions) (i j : nat) (s1 s2 : Symbol.t) :
  search symbols expression = Ok d →
  candidate symbols expression i j s1 s2 →
  Expression.evaluate (candidate_expression expression i j s1 s2) = Ok (VBool true) →
  ∃ e, recorded d i j (Symbol.code s1) (Symbol.code s2) = Some e
       ∧ Expression.code e
         = Expression.code (candidate_expression expression i j s1 s2).
Proof.
  intros Hs Hc He.
  destruct (search_records_candidate _ _ _ _ _ _ _ Hs Hc He) as [e Hr].
  exists e. split; [done|].
  destruct (search_from_candidates _ _ _ Hs _ _ _ _ _ Hr) as (s1' & s2' & _ & H1 & H2 & ->).
  by apply candidate_expression_code.
Qed.

Lemma search_records_candidates_only_witness :
  ∃ s1 s2,
    candidate (SymbolCollection.__init__ [one_a; eq_a])
      (Expression.mk [one_a; eq_a; one_a]) 1 1 s1 s2
    ∧ Some "=="%string = Symbol.code s1 ∧ Some "=="%string = Symbol.code s2
    ∧ Expression.mk [one_a; eq_a; one_a]
      = candidate_expression (Expression.mk [one_a; eq_a; one_a]) 1 1 s1 s2.
Proof.
  assert (search (SymbolCollection.__init__ [one_a; eq_a])
                 (Expression.mk [one_a; eq_a; one_a])
          = Ok (record_substitution
                  (record_substitution
                     (record_substitution ∅ 0 0 (Some "1"%string) (Some "1"%string)
                        (Expression.mk [one_a; eq_a; one_a]))
                     1 1 (Some "=="%string) (Some "=="%string)
                     (Expression.mk [one_a; eq_a; one_a]))
                  2 2 (Some "1"%string) (Some "1"%string)
                  (Expression.mk [one_a; eq_a; one_a]))) as H1
    by (vm_cast_no_check (eq_refl (search (SymbolCollection.__init__ [one_a; eq_a])
                                     (Expression.mk [one_a; eq_a; one_a])))).
  refine (search_records_candidates_only _ _ _ _ _ _ _ _ H1 _).
  rewrite recorded_record_ne by discriminate. apply recorded_record_eq.
Defined.

Lemma search_records_every_true_candidate_witness :
  ∃ e,
    recorded
      (record_substitution
         (record_substitution
            (record_substitution ∅ 0 0 (Some "1"%string) (Some "1"%string)
               (Expression.mk [one_a; eq_a; one_a]))
            1 1 (Some "=="%string) (Some "=="%string)
            (Expression.mk [one_a; eq_a; one_a]))
         2 2 (Some "1"%string) (Some "1"%string)
         (Expression.mk [one_a; eq_a; one_a]))
      0 0 (Symbol.code one_a) (Symbol.code one_a) = Some e
    ∧ Expression.code e
      = Expression.code
          (candidate_expression (Expression.mk [one_a; eq_a; one_a]) 0 0 one_a one_a).
Proof.
  apply (search_records_every_true_candidate
           (SymbolCollection.__init__ [one_a; eq_a])
           (Expression.mk [one_a; eq_a; one_a])).
  - vm_cast_no_check (eq_refl (search (SymbolCollection.__init__ [one_a; eq_a])
                                 (Expression.mk [one_a; eq_a; one_a]))).
  - exists one_a, one_a. split; [reflexivity|]. split; [reflexivity|].
    destruct (decide (0%nat = 0%nat)); [|done]. split; [|done].
    exists [one_a]. split; [vm_compute; reflexivity|left].
  - vm_compute. reflexivity.
Defined.

Section SearchReturns.
Variables (alphabet : list Symbol.t) (expression : Expression.t).
Hypothesis alphabet_tokens : Forall catalog_token alphabet.
Hypothesis expression_tokens : Forall catalog_token (Expression.symbols expression).

(** A lookup in a map of the catalog gives symbols of the alphabet, or
    raises [KeyError] for a key that the alphabet has no equal of. *)
Lemma catalog_getitem (m : list (Symbol.t * list Symbol.t)) x :
  m ∈ [SymbolCollection.reachable_with_addition_by_symbol (SymbolCollection.__init__ alphabet);
       SymbolCollection.reachable_with_removal_by_symbol (SymbolCollection.__init__ alphabet);
       SymbolCollection.reachable_with_move_by_symbol (SymbolCollection.__init__ alphabet)] →
  if pyset_contains Symbol.__eq__ alphabet x
  then ∃ s, pydict_getitem Symbol.__eq__ m x = Ok s ∧ ∀ o, o ∈ s → o ∈ alphabet
  else pydict_getitem Symbol.__eq__ m x = Raise KeyError.
Proof.
  intros Hm.
  assert (is_key m x = pyset_contains Symbol.__eq__ alphabet x
          ∧ dict_invariant (λ k, k ∈ alphabet)
              (λ s, (∀ o, o ∈ s → o ∈ alphabet) ∧ distinct_for Symbol.__eq__ s) m)
    as [Hkey Hinv].
  { destruct (catalog_is_key alphabet x) as (H1 & H2 & H3).
    destruct (catalog_dict_invariant alphabet) as (H4 & H5 & H6). cbv zeta in *.
    apply elem_of_cons in Hm as [->|Hm]; [done|].
    apply elem_of_cons in Hm as [->|Hm]; [done|].
    apply list_elem_of_singleton in Hm as ->. done. }
  rewrite <- Hkey. unfold is_key, has_key, pydict_getitem.
  destruct (pydict_get Symbol.__eq__ m x) as [s|] eqn:Hs; [|done].
  exists s. split; [done|].
  apply pydict_get_elem in Hs as (k & Hk & _). by destruct (Hinv k s Hk) as [_ [? _]].
Qed.

Lemma test_substitution_returns d i j s1 s2 :
  (i < length (Expression.symbols expression))%nat →
  (j < length (Expression.symbols expression))%nat →
  s1 ∈ alphabet → s2 ∈ alphabet →
  ∃ d', _test_substitution expression d i j s1 s2 = Ok d'.
Proof.
  intros Hi Hj H1 H2.
  assert (Forall catalog_token
            (Expression.symbols (candidate_expression expression i j s1 s2))) as Htok.
  { rewrite Forall_forall in alphabet_tokens. unfold candidate_expression. simpl.
    apply Forall_insert; [|by apply alphabet_tokens].
    apply Forall_insert; [done|by apply alphabet_tokens]. }
  pose proof (evaluate_cases _ Htok) as Hev.
  unfold _test_substitution, Expression.substitute_symbol.
  destruct (decide (i < _)%nat); [|lia]. simpl. rewrite length_insert.
  destruct (decide (j < _)%nat); [|lia]. simpl.
  fold (candidate_expression expression i j s1 s2).
  change (Expression.mk (<[j:=s2]> (<[i:=s1]> (Expression.symbols expression))))
    with (candidate_expression expression i j s1 s2).
  destruct (Expression.evaluate (candidate_expression expression i j s1 s2))
    as [[z|[]]|e|]; eauto; [|done].
  destruct Hev as (exp & c & _ & _ & ->). eauto.
Qed.

Lemma dest_body_returns i src d p :
  Expression.symbols expression !! i = Some src →
  p ∈ enumerate_nat (Expression.__iter__ expression) →
  (∃ d', dest_body (SymbolCollection.__init__ alphabet) expression i src d p = Ok d')
  ∨ dest_body (SymbolCollection.__init__ alphabet) expression i src d p = Raise KeyError.
Proof.
  intros Hi Hp. destruct p as [j dst]. apply elem_of_enumerate_nat in Hp.
  unfold Expression.__iter__ in Hp.
  pose proof (lookup_lt_Some _ _ _ Hi) as Hil.
  pose proof (lookup_lt_Some _ _ _ Hp) as Hjl.
  unfold dest_body. destruct (decide (i = j)) as [<-|Hne].
  - pose proof (catalog_getitem
      (SymbolCollection.reachable_with_move_by_symbol (SymbolCollection.__init__ alphabet))
      src) as Hm.
    destruct (pyset_contains Symbol.__eq__ alphabet src).
    + destruct Hm as (moves & -> & Hmoves); [set_solver|]. simpl.
      apply for_each_returns_or_raises. intros d1 x Hx. left.
      apply test_substitution_returns; auto.
    + rewrite Hm by set_solver. by right.
  - pose proof (catalog_getitem
      (SymbolCollection.reachable_with_removal_by_symbol (SymbolCollection.__init__ alphabet))
      src) as Hr.
    destruct (pyset_contains Symbol.__eq__ alphabet src).
    + destruct Hr as (removals & -> & Hremovals); [set_solver|]. simpl.
      apply for_each_returns_or_raises. intros d1 x Hx.
      pose proof (catalog_getitem
        (SymbolCollection.reachable_with_addition_by_symbol (SymbolCollection.__init__ alphabet))
        dst) as Ha.
      destruct (pyset_contains Symbol.__eq__ alphabet dst).
      * destruct Ha as (additions & -> & Hadditions); [set_solver|]. simpl.
        apply for_each_returns_or_raises. intros d2 y Hy. left.
        apply test_substitution_returns; auto.
      * rewrite Ha by set_solver. by right.
    + rewrite Hr by set_solver. by right.
Qed.

Lemma search_returns_or_KeyError :
  (∃ d, search (SymbolCollection.__init__ alphabet) expression = Ok d)
  ∨ search (SymbolCollection.__init__ alphabet) expression = Raise KeyError.
Proof.
  rewrite search_loops. apply for_each_returns_or_raises.
  intros d [i src] Hp. apply elem_of_enumerate_nat in Hp. unfold source_body.
  apply for_each_returns_or_raises. intros d1 p Hp'. by apply dest_body_returns.
Qed.

Lemma search_KeyError_missing :
  search (SymbolCollection.__init__ alphabet) expression = Raise KeyError
  ↔ ∃ s, s ∈ Expression.symbols expression
         ∧ pyset_contains Symbol.__eq__ alphabet s = false.
Proof.
  split.
  - intros Hs.
    destruct (decide (Forall (λ s, pyset_contains Symbol.__eq__ alphabet s = true)
                        (Expression.symbols expression))) as [Hall|Hnot].
    + exfalso. rewrite search_loops in Hs.
      assert (∃ d, for_each (enumerate_nat (Expression.__iter__ expression))
                     (source_body (SymbolCollection.__init__ alphabet) expression) ∅
                   = Ok d ∧ True) as (d & Hd & _); [|congruence].
      rewrite Forall_forall in Hall.
      apply (for_each_returns (λ _, True)); [|done].
      intros d [i src] Hp _. apply elem_of_enumerate_nat in Hp as Hi.
      unfold Expression.__iter__ in Hi. unfold source_body.
      apply (for_each_returns (λ _, True)); [|done].
      intros d1 [j dst] Hp' _. apply elem_of_enumerate_nat in Hp' as Hj.
      unfold Expression.__iter__ in Hj.
      pose proof (lookup_lt_Some _ _ _ Hi) as Hil.
      pose proof (lookup_lt_Some _ _ _ Hj) as Hjl.
      assert (pyset_contains Symbol.__eq__ alphabet src = true) as Hsrc
        by (apply Hall; by eapply list_elem_of_lookup_2).
      assert (pyset_contains Symbol.__eq__ alphabet dst = true) as Hdst
        by (apply Hall; by eapply list_elem_of_lookup_2).
      unfold dest_body. destruct (decide (i = j)) as [<-|Hne].
      * pose proof (catalog_getitem
          (SymbolCollection.reachable_with_move_by_symbol (SymbolCollection.__init__ alphabet))
          src) as Hm.
        rewrite Hsrc in Hm. destruct Hm as (moves & -> & Hmoves); [set_solver|]. simpl.
        apply (for_each_returns (λ _, True)); [|done]. intros d2 x Hx _.
        destruct (test_substitution_returns d2 i i x x) as [d' Hd']; auto. eauto.
      * pose proof (catalog_getitem
          (SymbolCollection.reachable_with_removal_by_symbol (SymbolCollection.__init__ alphabet))
          src) as Hr.
        rewrite Hsrc in Hr. destruct Hr as (removals & -> & Hremovals); [set_solver|].
        simpl.
        apply (for_each_returns (λ _, True)); [|done]. intros d2 x Hx _.
        pose proof (catalog_getitem
          (SymbolCollection.reachable_with_addition_by_symbol (SymbolCollection.__init__ alphabet))
          dst) as Ha.
        rewrite Hdst in Ha. destruct Ha as (additions & -> & Hadditions); [set_solver|].
        simpl.
        apply (for_each_returns (λ _, True)); [|done]. intros d3 y Hy _.
        destruct (test_substitution_returns d3 i j x y) as [d' Hd']; auto. eauto.
    + apply not_Forall_Exists in Hnot; [|apply _].
      apply Exists_exists in Hnot as (s & Hs' & Hf). exists s. split; [done|].
      by apply not_true_is_false.
  - intros (s & Hs & Hmiss).
    destruct search_returns_or_KeyError as [[d Hd]|?]; [|done]. exfalso.
    rewrite search_loops in Hd.
    apply list_elem_of_lookup_1 in Hs as [i Hi].
    assert ((i, s) ∈ enumerate_nat (Expression.__iter__ expression)) as Hp
      by (by apply elem_of_enumerate_nat).
    destruct (for_each_elem grows _ _ _ _ _ (source_body_grows _ _) Hd Hp)
      as (d1 & d2 & Hb & _).
    unfold source_body in Hb.
    destruct (for_each_elem grows _ _ _ _ _
                (λ d3 p d3', dest_body_grows _ _ i s d3 p d3') Hb Hp)
      as (d3 & d4 & Hb' & _).
    unfold dest_body in Hb'. destruct (decide (i = i)); [|done].
    pose proof (catalog_getitem
      (SymbolCollection.reachable_with_move_by_symbol (SymbolCollection.__init__ alphabet))
      s) as Hm.
    rewrite Hmiss in Hm. rewrite Hm in Hb' by set_solver. done.
Qed.
End SearchReturns.

(** X22: with a catalog and a puzzle made of catalog tokens, the search
    raises [KeyError] exactly when some symbol of the puzzle has no equal in
    the alphabet of the catalog, and returns the mapping otherwise; it raises
    nothing else. *)
Theorem search_returns_unless_symbol_missing
    (alphabet : list Symbol.t) (expression : Expression.t) :
  Forall catalog_token alphabet →
  Forall catalog_token (Expression.symbols expression) →
  (search (SymbolCollection.__init__ alphabet) expression = Raise KeyError
   ↔ ∃ s, s ∈ Expression.symbols expression
          ∧ pyset_contains Symbol.__eq__ alphabet s = false)
  ∧ ((∃ d, search (SymbolCollection.__init__ alphabet) expression = Ok d)
     ∨ search (SymbolCollection.__init__ alphabet) expression = Raise KeyError).
Proof.
  intros Ha He. split.
  - by apply search_KeyError_missing.
  - by apply search_returns_or_KeyError.
Qed.

Lemma search_returns_unless_symbol_missing_witness :
  search (SymbolCollection.__init__ [zero; six_a]) (Expression.mk [zero; eq_a; six_a])
  = Raise KeyError
  ↔ ∃ s, s ∈ [zero; eq_a; six_a]
         ∧ pyset_contains Symbol.__eq__ [zero; six_a] s = false.
Proof.
  apply (search_returns_unless_symbol_missing [zero; six_a]
           (Expression.mk [zero; eq_a; six_a])).
  - repeat (apply Forall_cons; split); [..|constructor]; vm_compute; auto.
  - repeat (apply Forall_cons; split); [..|constructor]; vm_compute; auto.
Defined.

Section StickCount.
Lemma sum_list_with_insert {A : Type} (f : A → nat) (l : list A) i x y :
  l !! i = Some x →
  (sum_list_with f (<[i := y]> l) + f x = sum_list_with f l + f y)%nat.
Proof.
  revert i. induction l as [|z l IH]; intros [|i]; simpl; try done.
  - intros [= ->]. lia.
  - intros H. specialize (IH i H). lia.
Qed.

Lemma iterated_in_map d x y : iterated d x y → in_map d x y = true.
Proof.
  intros (s & Hs & Hy). unfold in_map, entry. rewrite Hs.
  apply pyset_contains_elem. exists y. split; [done|apply Symbol_eq_refl].
Qed.

Lemma iterated_alphabet alphabet (m : list (Symbol.t * list Symbol.t)) x y :
  m ∈ [SymbolCollection.reachable_with_addition_by_symbol (SymbolCollection.__init__ alphabet);
       SymbolCollection.reachable_with_removal_by_symbol (SymbolCollection.__init__ alphabet);
       SymbolCollection.reachable_with_move_by_symbol (SymbolCollection.__init__ alphabet)] →
  iterated m x y → y ∈ alphabet.
Proof.
  intros Hm (s & Hs & Hy).
  assert (dict_invariant (λ k, k ∈ alphabet)
            (λ s, (∀ o, o ∈ s → o ∈ alphabet) ∧ distinct_for Symbol.__eq__ s) m) as Hinv.
  { destruct (catalog_dict_invariant alphabet) as (H4 & H5 & H6). cbv zeta in *.
    apply elem_of_cons in Hm as [->|Hm]; [done|].
    apply elem_of_cons in Hm as [->|Hm]; [done|].
    apply list_elem_of_singleton in Hm as ->. done. }
  apply pydict_get_elem in Hs as (k & Hk & _).
  destruct (Hinv k s Hk) as [_ [Hin _]]. by apply Hin.
Qed.

Lemma move_same_length alphabet x y :
  in_map (SymbolCollection.reachable_with_move_by_symbol (SymbolCollection.__init__ alphabet))
    x y = true →
  StickCollection.__len__ (Symbol.sticks y) = StickCollection.__len__ (Symbol.sticks x).
Proof.
  intros (k & o & i & Hk & Ho & Hkx & Hoy & Hi & Hr)%in_move_map.
  apply removal_set_reachable, is_reachable_from_len in Hi.
  apply is_reachable_from_len in Hr.
  apply StickCollection_eq_len in Hkx. apply StickCollection_eq_len in Hoy. lia.
Qed.

Lemma candidate_one_stick alphabet expression i j s1 s2 :
  candidate (SymbolCollection.__init__ alphabet) expression i j s1 s2 →
  s1 ∈ alphabet ∧ s2 ∈ alphabet
  ∧ (∃ src dst,
       Expression.symbols expression !! i = Some src
       ∧ Expression.symbols expression !! j = Some dst
       ∧ if decide (i = j)
         then in_map (SymbolCollection.reachable_with_move_by_symbol
                        (SymbolCollection.__init__ alphabet)) src s1 = true
              ∧ s2 = s1
         else Symbol.is_reachable_from src s1 = true
              ∧ Symbol.is_reachable_from s2 dst = true)
  ∧ stick_count (candidate_expression expression i j s1 s2) = stick_count expression.
Proof.
  intros (src & dst & Hi & Hj & Hc). unfold stick_count, candidate_expression. simpl.
  set (f := λ s, StickCollection.__len__ (Symbol.sticks s)).
  destruct (decide (i = j)) as [<-|Hne].
  - destruct Hc as [Hm ->].
    assert (s1 ∈ alphabet) as Hin
      by (eapply iterated_alphabet; [|exact Hm]; set_solver).
    apply iterated_in_map in Hm.
    split; [done|]. split; [done|]. split.
    { exists src, src. destruct (decide (i = i)); done. }
    rewrite list_insert_insert_eq.
    pose proof (sum_list_with_insert f _ i src s1 Hi) as Hsum.
    apply move_same_length in Hm. unfold f in *. lia.
  - destruct Hc as [Hr Ha].
    assert (s1 ∈ alphabet) as Hin1
      by (eapply iterated_alphabet; [|exact Hr]; set_solver).
    assert (s2 ∈ alphabet) as Hin2
      by (eapply iterated_alphabet; [|exact Ha]; set_solver).
    apply iterated_in_map, in_removal_map in Hr
      as (k & o & Hk & Ho & Hkx & Hoy & Hr).
    apply iterated_in_map, in_addition_map in Ha
      as (k' & o' & Hk' & Ho' & Hkx' & Hoy' & Ha).
    rewrite (is_reachable_from_proper k src o s1) in Hr by done.
    rewrite (is_reachable_from_proper o' s2 k' dst) in Ha by done.
    split; [done|]. split; [done|]. split.
    { exists src, dst. destruct (decide (i = j)); done. }
    pose proof (sum_list_with_insert f _ i src s1 Hi) as Hsum1.
    assert (<[i:=s1]> (Expression.symbols expression) !! j = Some dst) as Hj'
      by (by rewrite list_lookup_insert_ne).
    pose proof (sum_list_with_insert f _ j dst s2 Hj') as Hsum2.
    apply is_reachable_from_len in Hr. apply is_reachable_from_len in Ha.
    unfold f in *. lia.
Qed.
End StickCount.

Section MoveShape.
(** What membership in the move map says about the two shapes. *)
Lemma in_move_map_shape (alphabet : list Symbol.t) (x y : Symbol.t) :
  in_map (SymbolCollection.reachable_with_move_by_symbol (SymbolCollection.__init__ alphabet))
    x y = true →
  ∃ t t', t ∈ StickCollection.sticks (Symbol.sticks x)
          ∧ (t' ∉ StickCollection.sticks (Symbol.sticks x) ∖ {[ t ]})
          ∧ ∃ dr dc, StickCollection.sticks (Symbol.sticks y)
               = translate dr dc
                   (StickCollection.sticks (Symbol.sticks x) ∖ {[ t ]} ∪ {[ t' ]}).
Proof.
  intros (k & o & i & Hk & Ho & Hks & Hoy & Hi & Hr)%in_move_map.
  apply Symbol_removal_set_elem in Hi as (t & Ht & Hi).
  apply is_reachable_from_spec in Hr. rewrite Hi in Hr.
  apply Symbol_eq_translate in Hks as (dr & dc & Hks).
  apply Symbol_eq_translate in Hoy as (dr' & dc' & Hoy).
  apply (one_stick_more_translate _ _ dr' dc' dr dc) in Hr.
  rewrite <- Hoy, translate_difference, <- Hks in Hr.
  apply one_stick_more_add in Hr as (t' & Ht' & Hr).
  exists (Stick.shift dr dc t), t'. split; [|done].
  rewrite Hks. apply elem_of_translate. eauto.
Qed.
End MoveShape.

(** X23: every solution that the search records with a constructed
    catalog rearranges one stick: it is the puzzle with the symbols at [i]
    and [j] replaced by symbols of the alphabet, and it has as many sticks
    as the puzzle.  For [i ≠ j] the shape of the new symbol at [i] is, up to
    translation, the old one less one of its sticks, and the shape of the new
    symbol at [j] is the old one with one stick more.  For [i = j] the shape
    of the new symbol is the old one with one stick taken away and one stick
    put at a cell that the remaining sticks leave free, which may be the cell
    it was taken from. *)
Theorem solutions_rearrange_one_stick
    (alphabet : list Symbol.t) (expression : Expression.t)
    (d : Substitutions) (i j : nat) (a b : option string) (e : Expression.t) :
  search (SymbolCollection.__init__ alphabet) expression = Ok d →
  recorded d i j a b = Some e →
  ∃ s1 s2 src dst,
    e = candidate_expression expression i j s1 s2
    ∧ a = Symbol.code s1 ∧ b = Symbol.code s2
    ∧ s1 ∈ alphabet ∧ s2 ∈ alphabet
    ∧ Expression.symbols expression !! i = Some src
    ∧ Expression.symbols expression !! j = Some dst
    ∧ (let X := StickCollection.sticks (Symbol.sticks src) in
       let Y := StickCollection.sticks (Symbol.sticks dst) in
       let X1 := StickCollection.sticks (Symbol.sticks s1) in
       let Y2 := StickCollection.sticks (Symbol.sticks s2) in
       if decide (i = j)
       then s2 = s1
            ∧ ∃ t t', t ∈ X ∧ (t' ∉ X ∖ {[ t ]})
                      ∧ ∃ dr dc, X1 = translate dr dc (X ∖ {[ t ]} ∪ {[ t' ]})
       else (∃ t, t ∈ X ∧ ∃ dr dc, X1 = translate dr dc (X ∖ {[ t ]}))
            ∧ (∃ t', (t' ∉ Y) ∧ ∃ dr dc, Y2 = translate dr dc (Y ∪ {[ t' ]})))
    ∧ stick_count e = stick_count expression.
Proof.
  intros Hs Hr.
  destruct (search_from_candidates _ _ _ Hs _ _ _ _ _ Hr) as (s1 & s2 & Hc & -> & -> & ->).
  destruct (candidate_one_stick _ _ _ _ _ _ Hc)
    as (H1 & H2 & (src & dst & Hi & Hj & Hij) & Hcount).
  exists s1, s2, src, dst. repeat (split; [done|]). split; [|done].
  cbv zeta. destruct (decide (i = j)) as [Heq|Hne].
  - destruct Hij as [Hm ->]. split; [done|]. by eapply in_move_map_shape.
  - destruct Hij as [Hsrc Hdst]. split.
    + by apply is_reachable_from_spec in Hsrc as [_ ?].
    + by apply is_reachable_from_spec, one_stick_more_add in Hdst.
Qed.

Local Open Scope string_scope.

Lemma solutions_rearrange_one_stick_witness :
  ∃ s1 s2 src dst,
    Expression.mk [eight; minus; four; eq_b; four]
    = candidate_expression (Expression.mk [six_a; plus_b; four; eq_b; four]) 1 0 s1 s2
    ∧ Some "-" = Symbol.code s1 ∧ Some "8" = Symbol.code s2
    ∧ s1 ∈ [six_a; eight; plus_b; minus; four; eq_b]
    ∧ s2 ∈ [six_a; eight; plus_b; minus; four; eq_b]
    ∧ [six_a; plus_b; four; eq_b; four] !! 1%nat = Some src
    ∧ [six_a; plus_b; four; eq_b; four] !! 0%nat = Some dst
    ∧ (let X := StickCollection.sticks (Symbol.sticks src) in
       let Y := StickCollection.sticks (Symbol.sticks dst) in
       let X1 := StickCollection.sticks (Symbol.sticks s1) in
       let Y2 := StickCollection.sticks (Symbol.sticks s2) in
       if decide (1%nat = 0%nat)
       then s2 = s1
            ∧ ∃ t t', t ∈ X ∧ (t' ∉ X ∖ {[ t ]})
                      ∧ ∃ dr dc, X1 = translate dr dc (X ∖ {[ t ]} ∪ {[ t' ]})
       else (∃ t, t ∈ X ∧ ∃ dr dc, X1 = translate dr dc (X ∖ {[ t ]}))
            ∧ (∃ t', (t' ∉ Y) ∧ ∃ dr dc, Y2 = translate dr dc (Y ∪ {[ t' ]})))
    ∧ stick_count (Expression.mk [eight; minus; four; eq_b; four])
      = stick_count (Expression.mk [six_a; plus_b; four; eq_b; four]).
Proof.
  assert (returns (search (SymbolCollection.__init__ [six_a; eight; plus_b; minus; four; eq_b])
                     (Expression.mk [six_a; plus_b; four; eq_b; four]))) as Hret
    by (vm_cast_no_check I).
  refine (solutions_rearrange_one_stick
            [six_a; eight; plus_b; minus; four; eq_b]
            (Expression.mk [six_a; plus_b; four; eq_b; four])
            (returned _ Hret) 1 0 (Some "-") (Some "8")
            (Expression.mk [eight; minus; four; eq_b; four])
            (returned_eq _ Hret) _).
  vm_cast_no_check (eq_refl (Some (Expression.mk [eight; minus; four; eq_b; four]))).
Defined.

Local Close Scope string_scope.

(** X24: a call of [_test_substitution] that returns leaves every entry
    of the mapping other than the one under its own indices and codes as it
    was, and removes no key. *)
Theorem test_substitution_frame
    (expression : Expression.t) (d d' : Substitutions) (i j : nat) (s1 s2 : Symbol.t)
    (i' j' : nat) (a b : option string) :
  _test_substitution expression d i j s1 s2 = Ok d' →
  (i, j, Symbol.code s1, Symbol.code s2) ≠ (i', j', a, b) →
  recorded d' i' j' a b = recorded d i' j' a b
  ∧ grows d d'.
Proof.
  intros Ht Hne. split; [|by eapply test_substitution_grows].
  apply test_substitution_inv in Ht as (_ & _ & H).
  destruct (Expression.evaluate _) as [[z|[]]|[]|]; subst d'; try done.
  by apply recorded_record_ne.
Qed.

Lemma test_substitution_frame_witness :
  recorded
    (record_substitution ∅ 0 0 (Some "1"%string) (Some "1"%string)
       (Expression.mk [one_a; eq_a; one_a]))
    2 2 (Some "1"%string) (Some "1"%string)
  = recorded ∅ 2 2 (Some "1"%string) (Some "1"%string)
  ∧ grows ∅ (record_substitution ∅ 0 0 (Some "1"%string) (Some "1"%string)
               (Expression.mk [one_a; eq_a; one_a])).
Proof.
  apply (test_substitution_frame (Expression.mk [one_a; eq_a; one_a]) ∅ _ 0 0 one_a one_a).
  - vm_cast_no_check (eq_refl (_test_substitution (Expression.mk [one_a; eq_a; one_a])
                                 ∅ 0 0 one_a one_a)).
  - discriminate.
Defined.

(** X25: the indices under which the search records an entry are
    positions of the puzzle, so the lookups [expression[source_id]] and
    [expression[dest_id]] of the printing loop return a symbol, and the
    recorded expression is as long as the puzzle. *)
Theorem recorded_indices_in_range
    (symbols : SymbolCollection.t) (expression : Expression.t)
    (d : Substitutions) (i j : nat) (a b : option string) (e : Expression.t) :
  search symbols expression = Ok d →
  recorded d i j a b = Some e →
  (∃ src dst, Expression.__getitem__ expression i = Ok src
              ∧ Expression.__getitem__ expression j = Ok dst)
  ∧ length (Expression.symbols e) = length (Expression.symbols expression).
Proof.
  intros Hs Hr.
  destruct (search_from_candidates _ _ _ Hs _ _ _ _ _ Hr)
    as (s1 & s2 & (src & dst & Hi & Hj & _) & _ & _ & ->).
  unfold Expression.__getitem__. rewrite Hi, Hj. split; [eauto|].
  unfold candidate_expression. simpl. by rewrite !length_insert.
Qed.

Lemma recorded_indices_in_range_witness :
  (∃ src dst, Expression.__getitem__ (Expression.mk [one_a; eq_a; one_a]) 0 = Ok src
              ∧ Expression.__getitem__ (Expression.mk [one_a; eq_a; one_a]) 0 = Ok dst)
  ∧ length (Expression.symbols (Expression.mk [one_a; eq_a; one_a]))
    = length (Expression.symbols (Expression.mk [one_a; eq_a; one_a])).
Proof.
  assert (search (SymbolCollection.__init__ [one_a; eq_a])
                 (Expression.mk [one_a; eq_a; one_a])
          = Ok (record_substitution
                  (record_substitution
                     (record_substitution ∅ 0 0 (Some "1"%string) (Some "1"%string)
                        (Expression.mk [one_a; eq_a; one_a]))
                     1 1 (Some "=="%string) (Some "=="%string)
                     (Expression.mk [one_a; eq_a; one_a]))
                  2 2 (Some "1"%string) (Some "1"%string)
                  (Expression.mk [one_a; eq_a; one_a]))) as H1
    by (vm_cast_no_check (eq_refl (search (SymbolCollection.__init__ [one_a; eq_a])
                                     (Expression.mk [one_a; eq_a; one_a])))).
  refine (recorded_indices_in_range _ _ _ 0%nat 0%nat (Some "1"%string) (Some "1"%string)
            (Expression.mk [one_a; eq_a; one_a]) H1 _).
  rewrite recorded_record_ne by discriminate.
  rewrite recorded_record_ne by discriminate.
  apply recorded_record_eq.
Defined.

Section Grid.
Lemma StronglySorted_le_lt (l : list Z) :
  StronglySorted Z.le l → NoDup l → StronglySorted Z.lt l.
Proof.
  induction 1 as [|x l Hl IH Hx]; intros Hnd; [constructor|].
  apply NoDup_cons in Hnd as [Hnot Hnd]. constructor; [by apply IH|].
  rewrite Forall_forall in *. intros y Hy. specialize (Hx y Hy).
  assert (x ≠ y) by (by intros ->). lia.
Qed.

Lemma sorted_elements_spec (X : gset Z) :
  let l := merge_sort Z.le (elements X) in
  (∀ x, x ∈ l ↔ x ∈ X) ∧ StronglySorted Z.lt l.
Proof.
  intros l. unfold l. split.
  - intros x. by rewrite merge_sort_Permutation, elem_of_elements.
  - apply StronglySorted_le_lt.
    + apply StronglySorted_merge_sort; apply _.
    + rewrite merge_sort_Permutation. apply NoDup_elements.
Qed.
End Grid.

(** X26: the rows and the columns that [with_pattern] pairs with the
    lines and the characters of a pattern are the rows and the columns of
    the sticks of the grid, each once, in increasing order. *)
Theorem grid_rows_and_columns (all_sticks : gset Stick.t) :
  (∀ r, r ∈ Symbol.all_rows all_sticks ↔ ∃ t, t ∈ all_sticks ∧ Stick.row t = r)
  ∧ StronglySorted Z.lt (Symbol.all_rows all_sticks)
  ∧ (∀ c, c ∈ Symbol.all_cols all_sticks ↔ ∃ t, t ∈ all_sticks ∧ Stick.column t = c)
  ∧ StronglySorted Z.lt (Symbol.all_cols all_sticks).
Proof.
  unfold Symbol.all_rows, Symbol.all_cols.
  destruct (sorted_elements_spec (set_map Stick.row all_sticks)) as [H1 H2].
  destruct (sorted_elements_spec (set_map Stick.column all_sticks)) as [H3 H4].
  split; [|split; [done|split; [|done]]].
  - intros r. rewrite H1, elem_of_map. split; intros (t & ? & ?); eauto.
  - intros c. rewrite H3, elem_of_map. split; intros (t & ? & ?); eauto.
Qed.

Section Program.
Lemma program_tokens :
  Forall catalog_token (DIGITS ++ OPERATORS)
  ∧ Forall catalog_token (Expression.symbols expression).
Proof.
  split; repeat (apply Forall_cons; split; [vm_compute; auto|]); constructor.
Qed.

Lemma program_symbols_known :
  Forall (λ s, pyset_contains Symbol.__eq__ (DIGITS ++ OPERATORS) s = true)
         (Expression.symbols expression).
Proof.
  repeat (apply Forall_cons; split; [vm_compute; reflexivity|]); constructor.
Qed.
End Program.

(** X27: the search of the program, with its catalog of digits and
    operators and its puzzle, runs to the end and returns the mapping: no
    lookup in the catalog fails and no exception escapes; every entry of the
    mapping evaluates to [True]. *)
Theorem program_search_returns :
  ∃ d, valid_substitutions = Ok d ∧ all_true d.
Proof.
  unfold valid_substitutions, symbols.
  destruct program_tokens as [Ha He].
  destruct (search_returns_or_KeyError (DIGITS ++ OPERATORS) expression Ha He)
    as [[d Hd]|Hk].
  - exists d. split; [done|]. by eapply search_all_true.
  - exfalso.
    apply (search_KeyError_missing (DIGITS ++ OPERATORS) expression Ha He) in Hk
      as (s & Hs & Hmiss).
    pose proof program_symbols_known as Hall. rewrite Forall_forall in Hall.
    rewrite (Hall s Hs) in Hmiss. done.
Qed.

Section SameTokens.
Implicit Types (l : list Symbol.t) (self other : Expression.t).

Lemma positions_same_tokens off l l' :
  Forall2 same_tokens l l' → positions off l = positions off l'.
Proof.
  intros H. revert off. induction H as [|s s' l l' [_ Hs] _ IH]; intros off; simpl; [done|].
  by rewrite Hs, IH.
Qed.

Lemma code_same_tokens l l' :
  Forall2 same_tokens l l' →
  Expression.code (Expression.mk l) = Expression.code (Expression.mk l').
Proof.
  intros H. unfold Expression.code. simpl. f_equal.
  induction H as [|s s' l l' [Hs _] _ IH]; [done|].
  rewrite !fmap_cons. by rewrite Hs, IH.
Qed.

Lemma equality_subexpressions_same_tokens self other :
  Forall2 same_tokens (Expression.symbols self) (Expression.symbols other) →
  Forall2 (λ e e', Forall2 same_tokens (Expression.symbols e) (Expression.symbols e'))
    (Expression.equality_subexpressions self) (Expression.equality_subexpressions other).
Proof.
  intros H. unfold Expression.equality_subexpressions, Expression.boundaries.
  rewrite !equality_operators_positions.
  rewrite <- (positions_same_tokens 0 _ _ H), <- (Forall2_length _ _ _ H).
  apply Forall2_fmap, Forall_Forall2_diag, Forall_forall.
  intros [low high] _. simpl. unfold slice.
  by apply Forall2_take, Forall2_drop.
Qed.

Lemma and_all_same (ev ev' : Expression.t → result PyVal) v exps exps' :
  Forall2 (λ e e', ev e = ev' e') exps exps' →
  Expression.and_all ev v exps = Expression.and_all ev' v exps'.
Proof.
  intros H. revert v. induction H as [|e e' exps exps' He _ IH]; intros v; simpl; [done|].
  rewrite He. destruct (if truthy v then ev' e' else Ok v); simpl; auto.
Qed.

Lemma evaluate_fuel_same_tokens fuel self other :
  Forall2 same_tokens (Expression.symbols self) (Expression.symbols other) →
  Expression.evaluate_fuel fuel self = Expression.evaluate_fuel fuel other.
Proof.
  revert self other. induction fuel as [|fuel IH]; intros self other H; simpl; [done|].
  rewrite !equality_operators_positions, <- (positions_same_tokens 0 _ _ H).
  destruct (decide _).
  - apply and_all_same.
    eapply Forall2_impl; [by apply equality_subexpressions_same_tokens|].
    intros e e' He. by apply IH.
  - unfold Expression.evaluate_code.
    destruct self as [l], other as [l']. simpl in H.
    by rewrite (code_same_tokens l l' H).
Qed.
End SameTokens.

(** X28: [evaluate] looks at the code of each symbol and at whether it is
    an equality operator, and at nothing else: two expressions whose symbols
    agree on both, position by position, evaluate alike, whatever their
    sticks and names. *)
Theorem evaluate_depends_on_codes (self other : Expression.t) :
  Forall2 same_tokens (Expression.symbols self) (Expression.symbols other) →
  Expression.evaluate self = Expression.evaluate other.
Proof.
  intros H. unfold Expression.evaluate.
  rewrite <- (Forall2_length _ _ _ H). by apply evaluate_fuel_same_tokens.
Qed.

Lemma evaluate_depends_on_codes_witness :
  Expression.evaluate (Expression.mk [one_a; eq_a; seven_a])
  = Expression.evaluate (Expression.mk [one_b; eq_b; seven_b]).
Proof.
  apply (evaluate_depends_on_codes (Expression.mk [one_a; eq_a; seven_a])
           (Expression.mk [one_b; eq_b; seven_b])).
  repeat (apply Forall2_cons; split; [split; reflexivity|]). constructor.
Defined.

(** ** A chain against the conjunction of its sub-expressions *)

Section ChainAgainstConjunction.
Implicit Types (self exp : Expression.t).

(** The loop of [evaluate] against evaluating every sub-expression: they
    agree unless a sub-expression raises after one that was false. *)
Lemma and_all_against_each exps b0 :
  Forall (λ exp, (∃ b, Expression.evaluate exp = Ok (VBool b))
                 ∨ ∃ c, Expression.evaluate exp = Raise (ValueError (ArgStr c))) exps →
  match evaluate_each exps with
  | Ok vs =>
      Expression.and_all Expression.evaluate (VBool b0) exps
      = Ok (VBool (b0 && forallb truthy vs))
  | Raise e =>
      (∃ c, e = ValueError (ArgStr c))
      ∧ (Expression.and_all Expression.evaluate (VBool b0) exps = Raise e
         ∨ Expression.and_all Expression.evaluate (VBool b0) exps = Ok (VBool false))
  | Undefined => False
  end.
Proof.
  intros H. revert b0. induction H as [|exp exps He _ IH]; intros b0.
  - simpl. by rewrite andb_true_r.
  - cbn [evaluate_each Expression.and_all].
    destruct He as [[b Hb]|[c Hc]].
    + rewrite Hb. cbn [mbind result_bind]. destruct b0; cbn [truthy].
      * cbn [mbind result_bind]. specialize (IH b).
        destruct (evaluate_each exps) as [vs|e|]; cbn [mbind result_bind]; [|done..].
        exact IH.
      * cbn [mbind result_bind]. rewrite and_all_falsy by done. specialize (IH false).
        destruct (evaluate_each exps) as [vs|e|]; cbn [mbind result_bind]; [done| |done].
        destruct IH as [Hc _]. split; [done|by right].
    + rewrite Hc. cbn [mbind result_bind]. split; [eauto|]. destruct b0; cbn [truthy].
      * by left.
      * cbn [mbind result_bind]. rewrite and_all_falsy by done. by right.
Qed.

Lemma chain_against_conjunction self :
  (1 < length (Expression.equality_operators self))%nat →
  Forall catalog_token (Expression.symbols self) →
  Expression.evaluate self = pairwise_evaluate self
  ∨ (Expression.evaluate self = Ok (VBool false)
     ∧ ∃ c, pairwise_evaluate self = Raise (ValueError (ArgStr c))).
Proof.
  intros Hn Htok. rewrite evaluate_chain by done. unfold pairwise_evaluate.
  assert (Forall (λ exp, (∃ b, Expression.evaluate exp = Ok (VBool b))
                         ∨ ∃ c, Expression.evaluate exp = Raise (ValueError (ArgStr c)))
                 (pairwise_subexpressions self)) as Hall.
  { pose proof (pairwise_subexpressions_one_sign self) as H1.
    pose proof (pairwise_subexpressions_tokens self Htok) as H2.
    rewrite Forall_forall in *. intros exp Hexp.
    specialize (H1 exp Hexp). specialize (H2 exp Hexp). simpl in H1.
    pose proof (evaluate_cases exp H2) as Hc.
    destruct (Expression.evaluate exp) as [[z|b]|e|]; [lia|eauto| |done].
    destruct Hc as (? & c & _ & _ & ->). eauto. }
  pose proof (and_all_against_each (pairwise_subexpressions self) true Hall) as H.
  destruct (evaluate_each (pairwise_subexpressions self)) as [vs|e|]; [| |done].
  - left. by rewrite H.
  - destruct H as [[c ->] [H|H]].
    + left. by rewrite H.
    + right. split; [done|]. simpl. eauto.
Qed.
End ChainAgainstConjunction.

Local Open Scope string_scope.

(** C2, on the code: in the chain [1==2==+] the sub-expression [1==2] is
    [False] and [2==+] raises [ValueError], so evaluating each sub-expression
    on its own and taking the conjunction raises [ValueError]; [evaluate]
    returns [False], because its loop stops evaluating at the first false
    result.  On catalog tokens this is the one way the two differ: a chain
    evaluates as the conjunction of its sub-expressions does, or it returns
    [False] where the conjunction raises [ValueError].  The four chains of
    the claim evaluate as it says. *)
Theorem chain_differs_from_conjunction_on_error :
  let chain := Expression.mk [one_a; eq_a; two; eq_a; plus_b] in
  (1 < length (Expression.equality_operators chain))%nat
  ∧ Forall catalog_token (Expression.symbols chain)
  ∧ Expression.equality_subexpressions chain
    = [Expression.mk [one_a; eq_a; two]; Expression.mk [two; eq_a; plus_b]]
  ∧ pairwise_subexpressions chain = Expression.equality_subexpressions chain
  ∧ Expression.evaluate (Expression.mk [one_a; eq_a; two]) = Ok (VBool false)
  ∧ Expression.evaluate (Expression.mk [two; eq_a; plus_b])
    = Raise (ValueError (ArgStr "2==+"))
  ∧ pairwise_evaluate chain = Raise (ValueError (ArgStr "2==+"))
  ∧ Expression.evaluate chain = Ok (VBool false)
  ∧ Expression.evaluate chain ≠ pairwise_evaluate chain
  ∧ (∀ self,
       (1 < length (Expression.equality_operators self))%nat →
       Forall catalog_token (Expression.symbols self) →
       Expression.evaluate self = pairwise_evaluate self
       ∨ (Expression.evaluate self = Ok (VBool false)
          ∧ ∃ c, pairwise_evaluate self = Raise (ValueError (ArgStr c))))
  ∧ Expression.evaluate (Expression.mk [two; eq_a; two; eq_a; two]) = Ok (VBool true)
  ∧ Expression.evaluate (Expression.mk [two; eq_a; two; eq_a; two; eq_a; two])
    = Ok (VBool true)
  ∧ Expression.evaluate (Expression.mk [two; eq_a; two; eq_a; three]) = Ok (VBool false)
  ∧ Expression.evaluate (Expression.mk [two; eq_a; two; eq_a; one_a; eq_a; two])
    = Ok (VBool false).
Proof.
  intros chain.
  assert (pairwise_evaluate chain = Raise (ValueError (ArgStr "2==+"))) as Hp
    by (vm_compute; reflexivity).
  assert (Expression.evaluate chain = Ok (VBool false)) as He
    by (vm_compute; reflexivity).
  split; [vm_compute; lia|].
  split; [repeat (apply Forall_cons; split; [vm_compute; auto|]); constructor|].
  split; [vm_compute; reflexivity|]. split; [vm_compute; reflexivity|].
  split; [vm_compute; reflexivity|]. split; [vm_compute; reflexivity|].
  split; [exact Hp|]. split; [exact He|].
  split; [rewrite Hp, He; discriminate|].
  split; [intros self; apply chain_against_conjunction|].
  repeat split; vm_compute; reflexivity.
Qed.

Local Close Scope string_scope.

(** ** The move map in the search *)

Section MoveCase.
Variable alphabet : list Symbol.t.

(** The case [source_index == dest_index] of the loops: one call of
    [_test_substitution] for each symbol stored under the source symbol in
    the move map. *)
Lemma dest_body_same_index (expression : Expression.t) (i : nat) (s : Symbol.t)
    (d : Substitutions) (moves : list Symbol.t) :
  pydict_getitem Symbol.__eq__
    (SymbolCollection.reachable_with_move_by_symbol (SymbolCollection.__init__ alphabet)) s
  = Ok moves →
  dest_body (SymbolCollection.__init__ alphabet) expression i s d (i, s)
  = for_each moves
      (λ valid_substitutions new_symbol,
         _test_substitution expression valid_substitutions i i new_symbol new_symbol) d.
Proof.
  intros Hm. unfold dest_body. destruct (decide (i = i)); [|done]. by rewrite Hm.
Qed.

Lemma test_substitution_same_index (expression : Expression.t) (i : nat) (c : Symbol.t)
    (d : Substitutions) :
  (i < length (Expression.symbols expression))%nat →
  let new_expression := Expression.mk (<[i := c]> (Expression.symbols expression)) in
  _test_substitution expression d i i c c
  = match Expression.evaluate new_expression with
    | Ok (VBool true) =>
        Ok (record_substitution d i i (Symbol.code c) (Symbol.code c) new_expression)
    | Ok _ => Ok d
    | Raise (ValueError _) => Ok d
    | Raise e => Raise e
    | Undefined => Undefined
    end.
Proof.
  intros Hi new_expression.
  rewrite (test_substitution_cases expression d i i c c
             (Expression.mk (<[i := c]> (Expression.symbols expression))) new_expression).
  - done.
  - unfold Expression.substitute_symbol. by destruct (decide _); [|lia].
  - unfold Expression.substitute_symbol. simpl. rewrite length_insert.
    destruct (decide _); [|lia]. by rewrite list_insert_insert_eq.
Qed.

Lemma getitem_in_map (m : list (Symbol.t * list Symbol.t)) s moves c :
  pydict_getitem Symbol.__eq__ m s = Ok moves →
  pyset_contains Symbol.__eq__ moves c = in_map m s c.
Proof.
  intros Hm%pydict_getitem_Ok. unfold in_map, entry. by rewrite Hm.
Qed.

Lemma same_symbol_same_expression (l : list Symbol.t) i s c :
  l !! i = Some s → Symbol.__eq__ c s = true →
  Forall2 (λ x y, Symbol.__eq__ x y = true) (<[i := c]> l) l.
Proof.
  intros Hi Hc. rewrite <- (list_insert_id l i s Hi) at 2.
  apply Forall2_insert; [|done].
  apply Forall_Forall2_diag, Forall_forall. intros x _. apply Symbol_eq_refl.
Qed.

Lemma recorded_same_index (expression : Expression.t) d i a b e :
  search (SymbolCollection.__init__ alphabet) expression = Ok d →
  recorded d i i a b = Some e →
  ∃ src c,
    Expression.symbols expression !! i = Some src
    ∧ in_map (SymbolCollection.reachable_with_move_by_symbol
                (SymbolCollection.__init__ alphabet)) src c = true
    ∧ c ∈ alphabet
    ∧ a = Symbol.code c ∧ b = Symbol.code c
    ∧ e = Expression.mk (<[i := c]> (Expression.symbols expression)).
Proof.
  intros Hs Hr.
  destruct (search_from_candidates _ _ _ Hs _ _ _ _ _ Hr)
    as (s1 & s2 & (src & dst & Hi & _ & Hc) & -> & -> & ->).
  destruct (decide (i = i)); [|done]. destruct Hc as [Hm ->].
  exists src, s1. split; [done|]. split; [by apply iterated_in_map|].
  split; [eapply iterated_alphabet; [|exact Hm]; set_solver|].
  split; [done|]. split; [done|].
  unfold candidate_expression. by rewrite list_insert_insert_eq.
Qed.
End MoveCase.

(** C8, as the code has it: for symbols [s] and [y] of the alphabet, [y]
    is in the move map of [s] exactly when the shape of [y] is, up to
    translation, the shape of [s] with one stick taken away and one stick
    put at a cell that the remaining sticks leave free; the cell the stick
    was taken from is such a cell, so a symbol with at least one stick is in
    its own move map.  In the search, the loops run the body for every pair
    of positions, and at a position [i] that holds [s] the case [i = j] calls
    [_test_substitution] once for each symbol [c] stored in the move map
    under [s], and for nothing else; the call builds the puzzle with [c] at
    [i], and records it when it evaluates to [True].  The stored symbols are
    symbols of the alphabet, one for each member of the move map, so when
    [s] has a stick one of them is equal to [s]: the search builds the puzzle
    again, with the stick back where it was.  Every entry recorded under
    [(i, i)] is the puzzle with a member of the move map of its symbol at
    [i]. *)
Theorem move_map_spec (alphabet : list Symbol.t) (s y : Symbol.t) :
  s ∈ alphabet → y ∈ alphabet →
  let catalog := SymbolCollection.__init__ alphabet in
  let move_map := SymbolCollection.reachable_with_move_by_symbol catalog in
  let X := StickCollection.sticks (Symbol.sticks s) in
  let Y := StickCollection.sticks (Symbol.sticks y) in
  (in_map move_map s y = true
   ↔ ∃ t t', t ∈ X ∧ (t' ∉ X ∖ {[ t ]})
             ∧ ∃ dr dc, Y = translate dr dc (X ∖ {[ t ]} ∪ {[ t' ]}))
  ∧ (X ≠ ∅ → in_map move_map s s = true)
  ∧ (∀ expression,
       search catalog expression
       = for_each (enumerate_nat (Expression.__iter__ expression))
           (λ valid_substitutions '(source_index, source_symbol),
              for_each (enumerate_nat (Expression.__iter__ expression))
                (dest_body catalog expression source_index source_symbol)
                valid_substitutions) ∅)
  ∧ (∀ expression i,
       Expression.symbols expression !! i = Some s →
       ∃ moves,
         pydict_getitem Symbol.__eq__ move_map s = Ok moves
         ∧ (∀ d, dest_body catalog expression i s d (i, s)
                 = for_each moves
                     (λ valid_substitutions new_symbol,
                        _test_substitution expression valid_substitutions i i
                          new_symbol new_symbol) d)
         ∧ (∀ c d,
              let new_expression :=
                Expression.mk (<[i := c]> (Expression.symbols expression)) in
              _test_substitution expression d i i c c
              = match Expression.evaluate new_expression with
                | Ok (VBool true) =>
                    Ok (record_substitution d i i (Symbol.code c) (Symbol.code c)
                          new_expression)
                | Ok _ => Ok d
                | Raise (ValueError _) => Ok d
                | Raise e => Raise e
                | Undefined => Undefined
                end)
         ∧ (∀ c, pyset_contains Symbol.__eq__ moves c = in_map move_map s c)
         ∧ (∀ c, c ∈ moves → c ∈ alphabet)
         ∧ distinct_for Symbol.__eq__ moves
         ∧ (X ≠ ∅ →
            ∃ c, c ∈ moves ∧ Symbol.__eq__ c s = true
                 ∧ Forall2 (λ x x', Symbol.__eq__ x x' = true)
                     (<[i := c]> (Expression.symbols expression))
                     (Expression.symbols expression)))
  ∧ (∀ expression d i a b e,
       search catalog expression = Ok d →
       recorded d i i a b = Some e →
       ∃ src c,
         Expression.symbols expression !! i = Some src
         ∧ in_map move_map src c = true
         ∧ c ∈ alphabet
         ∧ a = Symbol.code c ∧ b = Symbol.code c
         ∧ e = Expression.mk (<[i := c]> (Expression.symbols expression))).
Proof.
  intros Hs Hy catalog move_map X Y.
  destruct (move_map_shape alphabet s y Hs Hy) as [Hshape Hself].
  split; [exact Hshape|]. split; [exact Hself|].
  split; [intros expression; reflexivity|].
  split; [|intros expression d i a b e; apply recorded_same_index].
  intros expression i Hi.
  assert (pyset_contains Symbol.__eq__ alphabet s = true) as Hin.
  { apply pyset_contains_elem. exists s. split; [done|apply Symbol_eq_refl]. }
  pose proof (catalog_getitem alphabet move_map s) as Hget. rewrite Hin in Hget.
  destruct Hget as (moves & Hm & Hmoves); [unfold move_map, catalog; set_solver|].
  assert (distinct_for Symbol.__eq__ moves) as Hdis.
  { destruct (catalog_dict_invariant alphabet) as (_ & _ & Hinv). cbv zeta in Hinv.
    apply pydict_getitem_Ok, pydict_get_elem in Hm as (k & Hk & _).
    by destruct (Hinv k moves Hk) as [_ [_ ?]]. }
  exists moves. split; [done|].
  split; [intros d; by apply dest_body_same_index|].
  split.
  { intros c d. apply test_substitution_same_index. by eapply lookup_lt_Some. }
  split; [intros c; by eapply getitem_in_map|].
  split; [done|]. split; [done|].
  intros HX. specialize (Hself HX).
  assert (pyset_contains Symbol.__eq__ moves s = true) as Hmem
    by (rewrite (getitem_in_map move_map s moves s Hm); exact Hself).
  apply pyset_contains_elem in Hmem as (c & Hc & Heq).
  exists c. split; [done|]. split; [done|]. by eapply same_symbol_same_expression.
Qed.

Lemma move_map_spec_witness :
  in_map (SymbolCollection.reachable_with_move_by_symbol
            (SymbolCollection.__init__ (DIGITS ++ OPERATORS))) minus one_b = true
  ↔ ∃ t t', t ∈ StickCollection.sticks (Symbol.sticks minus)
            ∧ (t' ∉ StickCollection.sticks (Symbol.sticks minus) ∖ {[ t ]})
            ∧ ∃ dr dc, StickCollection.sticks (Symbol.sticks one_b)
                 = translate dr dc
                     (StickCollection.sticks (Symbol.sticks minus) ∖ {[ t ]} ∪ {[ t' ]}).
Proof.
  refine (proj1 (move_map_spec (DIGITS ++ OPERATORS) minus one_b _ _));
    unfold DIGITS, OPERATORS; simpl; repeat constructor.
Defined.
